(** * Postings index of the TSDB: store, iterators and set operators

    A shallow embedding of [index/postings.go]: the in-memory postings
    store [MemPostings], the iterator variants behind the [Postings]
    interface, the operators [Intersect], [Merge] and [Without], and the
    shard wrapper [ShardedPostings].

    Conventions of the embedding.
    - [storage.SeriesRef] is an unsigned 64-bit integer.  The code only
      compares and copies references, it never computes with them, so they
      are modelled as [N] (no wrap-around can be observed).
    - Go methods with pointer receivers mutate the iterator; here every
      method takes the state and returns the new one.  An iterator stored
      inside another one (the inputs of an operator) is updated in place in
      the containing structure, which is what the pointers do in Go.  The
      inputs of an operator are assumed to be distinct objects.
    - Loops without an evident bound take a [fuel] argument and return
      [None] when it runs out; theorems give a sufficient amount.
    - The mutex of the store is not modelled: operations run one after the
      other. *)

From Stdlib Require Import NArith List Lia Bool Sorted Permutation.
From stdpp Require Import base option list sorting gmap strings.

Local Open Scope N_scope.

(** ** Basic types *)

Abbreviation SeriesRef := N.

(** A Go [error] value; [None] stands for [nil]. *)
Abbreviation Error := string.

(** [labels.Label] *)
Record Label := mkLabel { Name : string; Value : string }.

Global Instance Label_eq_dec : EqDecision Label.
Proof. solve_decision. Defined.

(** [var allPostingsKey = labels.Label{}] *)
Definition allPostingsKey : Label := mkLabel EmptyString EmptyString.

(** ** The [Postings] interface

    [IsEmptyPostingsType] is the comparison [p == emptyPostings] of an
    interface value with the sentinel; it depends on the dynamic type and is
    therefore part of the class. *)
Class Postings (T : Type) := {
  Next : T → bool * T;
  Seek : SeriesRef → T → bool * T;
  At : T → SeriesRef;
  Err : T → option Error;
  IsEmptyPostingsType : T → bool
}.

(** ** [errPostings], the empty and the failing iterator *)
Record errPostings := mkErrPostings { ep_err : option Error }.

Definition emptyPostings : errPostings := mkErrPostings None.
Definition EmptyPostings : errPostings := emptyPostings.
Definition ErrPostings (e : Error) : errPostings := mkErrPostings (Some e).

Global Instance errPostings_Postings : Postings errPostings := {
  Next e := (false, e);
  Seek _ e := (false, e);
  At _ := 0;
  Err e := ep_err e;
  IsEmptyPostingsType e := match ep_err e with None => true | Some _ => false end
}.

(** ** [sort.Search] of the Go library: binary search for the least index
    in [0, n) at which [f] holds ([n] if there is none).  The interval
    shrinks at every turn, so [n] turns are enough. *)
Fixpoint search_loop (fuel : nat) (f : nat → bool) (i j : nat) : nat :=
  match fuel with
  | O => i
  | S k =>
      if (i <? j)%nat then
        let h := ((i + j) / 2)%nat in
        if f h then search_loop k f i h else search_loop k f (h + 1)%nat j
      else i
  end.

Definition sort_Search (n : nat) (f : nat → bool) : nat := search_loop n f 0%nat n.

(** ** [ListPostings]: iterator over a plain list *)
Record ListPostings := mkListPostings { lp_list : list SeriesRef; lp_cur : SeriesRef }.

Definition newListPostings (l : list SeriesRef) : ListPostings := mkListPostings l 0.

Definition ListPostings_Next (it : ListPostings) : bool * ListPostings :=
  match lp_list it with
  | x :: rest => (true, mkListPostings rest x)
  | [] => (false, mkListPostings [] 0)
  end.

Definition ListPostings_Seek (x : SeriesRef) (it : ListPostings) : bool * ListPostings :=
  if x <=? lp_cur it then (true, it)
  else if (length (lp_list it) =? 0)%nat then (false, it)
  else
    let i := sort_Search (length (lp_list it)) (λ i, x <=? lp_list it !!! i) in
    if (i <? length (lp_list it))%nat
    then (true, mkListPostings (drop (i + 1) (lp_list it)) (lp_list it !!! i))
    else (false, mkListPostings [] (lp_cur it)).

Global Instance ListPostings_Postings : Postings ListPostings := {
  Next := ListPostings_Next;
  Seek := ListPostings_Seek;
  At := lp_cur;
  Err _ := None;
  IsEmptyPostingsType _ := false
}.

(** ** [BigEndianPostings]: iterator over big-endian 32-bit numbers *)
Record BigEndianPostings := mkBigEndianPostings { be_list : list Byte.byte; be_cur : N }.

Definition NewBigEndianPostings (l : list Byte.byte) : BigEndianPostings :=
  mkBigEndianPostings l 0.

(** [binary.BigEndian.Uint32]; the code calls it on at least four bytes. *)
Definition Uint32 (b : list Byte.byte) : N :=
  match b with
  | b0 :: b1 :: b2 :: b3 :: _ =>
      N.lor (N.lor (N.lor (N.shiftl (Byte.to_N b0) 24) (N.shiftl (Byte.to_N b1) 16))
                   (N.shiftl (Byte.to_N b2) 8)) (Byte.to_N b3)
  | _ => 0
  end.

(** The conversion [uint32(x)]. *)
Definition to_uint32 (x : N) : N := x mod 2 ^ 32.

Definition BigEndianPostings_Next (it : BigEndianPostings) : bool * BigEndianPostings :=
  if (4 <=? length (be_list it))%nat
  then (true, mkBigEndianPostings (drop 4 (be_list it)) (Uint32 (be_list it)))
  else (false, it).

Definition BigEndianPostings_Seek (x : SeriesRef) (it : BigEndianPostings)
  : bool * BigEndianPostings :=
  if x <=? be_cur it then (true, it)
  else
    let num := (length (be_list it) / 4)%nat in
    let i := sort_Search num (λ i, to_uint32 x <=? Uint32 (drop (i * 4) (be_list it))) in
    if (i <? num)%nat
    then let j := (i * 4)%nat in
         (true, mkBigEndianPostings (drop (j + 4) (be_list it)) (Uint32 (drop j (be_list it))))
    else (false, mkBigEndianPostings [] (be_cur it)).

Global Instance BigEndianPostings_Postings : Postings BigEndianPostings := {
  Next := BigEndianPostings_Next;
  Seek := BigEndianPostings_Seek;
  At := be_cur;
  Err _ := None;
  IsEmptyPostingsType _ := false
}.

(** ** [ShardedPostings]: an iterator restricted to a range of offsets *)
Record ShardedPostings (T : Type) := mkShardedPostings {
  sp_p : T;
  sp_minOffset : N;
  sp_maxOffset : N;
  sp_initialized : bool
}.
Arguments mkShardedPostings {T}.
Arguments sp_p {T}.
Arguments sp_minOffset {T}.
Arguments sp_maxOffset {T}.
Arguments sp_initialized {T}.

(** [NewShardedPostings].  The pair [range] is the result of
    [offsets.Range(fpFilter)]; the offset table is not part of this file. *)
Definition NewShardedPostings {T} (p : T) (range : N * N) : ShardedPostings T :=
  mkShardedPostings p (fst range) (snd range) false.

Section Sharded.
Context {T : Type} `{Postings T}.

Definition ShardedPostings_Seek (v : SeriesRef) (sp : ShardedPostings T)
  : bool * ShardedPostings T :=
  if sp_maxOffset sp <=? v then (false, sp)
  else
    let v := if v <? sp_minOffset sp then sp_minOffset sp else v in
    let '(ok, p) := Seek v (sp_p sp) in
    (ok, mkShardedPostings p (sp_minOffset sp) (sp_maxOffset sp) (sp_initialized sp)).

Definition ShardedPostings_Next (sp : ShardedPostings T) : bool * ShardedPostings T :=
  if negb (sp_initialized sp) then
    let '(ok, p) := Next (sp_p sp) in
    let sp := mkShardedPostings p (sp_minOffset sp) (sp_maxOffset sp) true in
    if negb ok then (false, sp) else ShardedPostings_Seek 0 sp
  else
    let '(ok, p) := Next (sp_p sp) in
    let sp := mkShardedPostings p (sp_minOffset sp) (sp_maxOffset sp) (sp_initialized sp) in
    if negb ok then (false, sp)
    else if sp_maxOffset sp <=? At p then (false, sp)
    else (true, sp).

Global Instance ShardedPostings_Postings : Postings (ShardedPostings T) := {
  Next := ShardedPostings_Next;
  Seek := ShardedPostings_Seek;
  At sp := At (sp_p sp);
  Err sp := Err (sp_p sp);
  IsEmptyPostingsType _ := false
}.
End Sharded.

(** ** [container/heap] of the Go library, on a slice ordered by [key]

    [postingsHeap] implements [heap.Interface] with
    [Less(i, j) = h[i].At() < h[j].At()], [Swap] exchanging two cells and
    [Pop] removing the last cell. *)
Section Heap.
Context {A : Type} (key : A → N).

Definition heap_Less (h : list A) (i j : nat) : bool :=
  match h !! i, h !! j with
  | Some a, Some b => key a <? key b
  | _, _ => false
  end.

Definition heap_Swap (h : list A) (i j : nat) : list A :=
  match h !! i, h !! j with
  | Some a, Some b => <[j := a]> (<[i := b]> h)
  | _, _ => h
  end.

(** The loop of [down(h, i0, n)]; it returns the slice and the final [i].
    The index at least doubles at every turn, so [n] turns are enough. *)
Fixpoint down_loop (fuel : nat) (h : list A) (i n : nat) : list A * nat :=
  match fuel with
  | O => (h, i)
  | S f =>
      let j1 := (2 * i + 1)%nat in
      if (n <=? j1)%nat then (h, i)
      else
        let j2 := (j1 + 1)%nat in
        let j := if (j2 <? n)%nat && heap_Less h j2 j1 then j2 else j1 in
        if negb (heap_Less h j i) then (h, i)
        else down_loop f (heap_Swap h i j) j n
  end.

Definition heap_down (h : list A) (i0 n : nat) : list A * bool :=
  let '(h', i) := down_loop n h i0 n in (h', (i0 <? i)%nat).

(** The loop of [up(h, j)]; the index at least halves at every turn. *)
Fixpoint up_loop (fuel : nat) (h : list A) (j : nat) : list A :=
  match fuel with
  | O => h
  | S f =>
      let i := ((j - 1) / 2)%nat in
      if (i =? j)%nat || negb (heap_Less h j i) then h
      else up_loop f (heap_Swap h i j) i
  end.

Definition heap_up (h : list A) (j : nat) : list A := up_loop (S j) h j.

(** [for i := n/2 - 1; i >= 0; i-- { down(h, i, n) }] *)
Fixpoint init_loop (k : nat) (h : list A) (n : nat) : list A :=
  match k with
  | O => h
  | S i => init_loop i (fst (heap_down h i n)) n
  end.

Definition heap_Init (h : list A) : list A :=
  init_loop (length h / 2) h (length h).

Definition heap_Fix (h : list A) (i : nat) : list A :=
  let '(h', moved) := heap_down h i (length h) in
  if negb moved then heap_up h' i else h'.

(** [heap.Pop]: exchange the root with the last cell, sift the new root
    down within the first [n] cells, then drop the last cell. *)
Definition heap_Pop (h : list A) : list A :=
  let n := (length h - 1)%nat in
  let h1 := heap_Swap h 0 n in
  let h2 := fst (heap_down h1 0 n) in
  take n h2.
End Heap.

(** ** [intersectPostings] *)
Record intersectPostings (T : Type) := mkIntersectPostings {
  ip_arr : list T;
  ip_cur : SeriesRef
}.
Arguments mkIntersectPostings {T}.
Arguments ip_arr {T}.
Arguments ip_cur {T}.

(** Outcome of one pass of the inner [for] of [doNext] over [it.arr]:
    an input could not seek ([return false]), an input is ahead of the
    candidate ([continue Loop] with the new candidate), or all agree. *)
Inductive sweep (T : Type) :=
| SweepFail (arr : list T)
| SweepRestart (arr : list T) (cur : SeriesRef)
| SweepDone (arr : list T).
Arguments SweepFail {T}.
Arguments SweepRestart {T}.
Arguments SweepDone {T}.

Definition sweep_cons {T} (p : T) (s : sweep T) : sweep T :=
  match s with
  | SweepFail arr => SweepFail (p :: arr)
  | SweepRestart arr c => SweepRestart (p :: arr) c
  | SweepDone arr => SweepDone (p :: arr)
  end.

Section Intersect.
Context {T : Type} `{Postings T}.

Definition newIntersectPostings (its : list T) : intersectPostings T :=
  mkIntersectPostings its 0.

Fixpoint seekAll (cur : SeriesRef) (arr : list T) : sweep T :=
  match arr with
  | [] => SweepDone []
  | p :: rest =>
      let '(ok, p') := Seek cur p in
      if negb ok then SweepFail (p' :: rest)
      else if cur <? At p' then SweepRestart (p' :: rest) (At p')
      else sweep_cons p' (seekAll cur rest)
  end.

Fixpoint doNext (fuel : nat) (it : intersectPostings T)
  : option (bool * intersectPostings T) :=
  match fuel with
  | O => None
  | S f =>
      match seekAll (ip_cur it) (ip_arr it) with
      | SweepFail arr => Some (false, mkIntersectPostings arr (ip_cur it))
      | SweepRestart arr c => doNext f (mkIntersectPostings arr c)
      | SweepDone arr => Some (true, mkIntersectPostings arr (ip_cur it))
      end
  end.

(** The [for] of [Next]: every input advances once and the candidate
    becomes the largest value seen; it stops at the first input that
    cannot advance. *)
Fixpoint nextAll (cur : SeriesRef) (arr : list T) : bool * list T * SeriesRef :=
  match arr with
  | [] => (true, [], cur)
  | p :: rest =>
      let '(ok, p') := Next p in
      if negb ok then (false, p' :: rest, cur)
      else
        let cur := if cur <? At p' then At p' else cur in
        let '(ok', rest', cur') := nextAll cur rest in
        (ok', p' :: rest', cur')
  end.

Definition intersectPostings_Next (fuel : nat) (it : intersectPostings T)
  : option (bool * intersectPostings T) :=
  let '(ok, arr, cur) := nextAll (ip_cur it) (ip_arr it) in
  if negb ok then Some (false, mkIntersectPostings arr cur)
  else doNext fuel (mkIntersectPostings arr cur).

Definition intersectPostings_Seek (fuel : nat) (id : SeriesRef) (it : intersectPostings T)
  : option (bool * intersectPostings T) :=
  doNext fuel (mkIntersectPostings (ip_arr it) id).

Fixpoint firstErr (arr : list T) : option Error :=
  match arr with
  | [] => None
  | p :: rest => match Err p with Some e => Some e | None => firstErr rest end
  end.

Definition intersectPostings_Err (it : intersectPostings T) : option Error :=
  firstErr (ip_arr it).
End Intersect.

(** ** [mergedPostings] *)
Record mergedPostings (T : Type) := mkMergedPostings {
  mp_h : list T;
  mp_initialized : bool;
  mp_cur : SeriesRef;
  mp_err : option Error
}.
Arguments mkMergedPostings {T}.
Arguments mp_h {T}.
Arguments mp_initialized {T}.
Arguments mp_cur {T}.
Arguments mp_err {T}.

Section Merged.
Context {T : Type} `{Postings T}.

(** The loop of [newMergedPostings]: [inl ph] is the list of the inputs
    that produced a first value, [inr e] the error of the first input that
    failed with one. *)
Fixpoint mergedInputs (p : list T) (ph : list T) : list T + Error :=
  match p with
  | [] => inl ph
  | it :: rest =>
      let '(ok, it') := Next it in
      if ok then mergedInputs rest (ph ++ [it'])
      else match Err it' with
           | Some e => inr e
           | None => mergedInputs rest ph
           end
  end.

(** [None] is the result [(nil, false)]. *)
Definition newMergedPostings (p : list T) : option (mergedPostings T) :=
  match mergedInputs p [] with
  | inr e => Some (mkMergedPostings [] false 0 (Some e))
  | inl [] => None
  | inl ph => Some (mkMergedPostings ph false 0 None)
  end.

(** The body shared by the loops of [Next] and [Seek]: [step] advances
    the top of the heap; an exhausted top is popped, an advanced one is
    sifted down.  [inl] is an early [return false], [inr] carries on. *)
Definition advanceTop (step : T → bool * T) (it : mergedPostings T)
  : option (mergedPostings T + mergedPostings T) :=
  match mp_h it with
  | [] => None
  | cur :: _ =>
      let '(ok, cur') := step cur in
      let h := <[0%nat := cur']> (mp_h it) in
      if negb ok then
        let h := heap_Pop At h in
        match Err cur' with
        | Some e => Some (inl (mkMergedPostings h (mp_initialized it) (mp_cur it) (Some e)))
        | None =>
            if (length h =? 0)%nat
            then Some (inl (mkMergedPostings h (mp_initialized it) (mp_cur it) (mp_err it)))
            else Some (inr (mkMergedPostings h (mp_initialized it) (mp_cur it) (mp_err it)))
        end
      else
        Some (inr (mkMergedPostings (heap_Fix At h 0) (mp_initialized it) (mp_cur it)
                                    (mp_err it)))
  end.

Fixpoint mergedNextLoop (fuel : nat) (it : mergedPostings T)
  : option (bool * mergedPostings T) :=
  match fuel with
  | O => None
  | S f =>
      match advanceTop Next it with
      | None => None
      | Some (inl it') => Some (false, it')
      | Some (inr it') =>
          match mp_h it' with
          | [] => None
          | top :: _ =>
              if negb (At top =? mp_cur it')
              then Some (true, mkMergedPostings (mp_h it') (mp_initialized it') (At top)
                                                (mp_err it'))
              else mergedNextLoop f it'
          end
      end
  end.

Definition mergedPostings_Next (fuel : nat) (it : mergedPostings T)
  : option (bool * mergedPostings T) :=
  if (length (mp_h it) =? 0)%nat || bool_decide (mp_err it ≠ None) then Some (false, it)
  else if negb (mp_initialized it) then
    let h := heap_Init At (mp_h it) in
    match h with
    | [] => None
    | top :: _ => Some (true, mkMergedPostings h true (At top) (mp_err it))
    end
  else mergedNextLoop fuel it.

Fixpoint mergedSeekLoop (fuel : nat) (id : SeriesRef) (it : mergedPostings T)
  : option (bool * mergedPostings T) :=
  match fuel with
  | O => None
  | S f =>
      if mp_cur it <? id then
        match advanceTop (Seek id) it with
        | None => None
        | Some (inl it') => Some (false, it')
        | Some (inr it') =>
            match mp_h it' with
            | [] => None
            | top :: _ =>
                mergedSeekLoop f id (mkMergedPostings (mp_h it') (mp_initialized it')
                                                      (At top) (mp_err it'))
            end
        end
      else Some (true, it)
  end.

Definition mergedPostings_Seek (fuel : nat) (id : SeriesRef) (it : mergedPostings T)
  : option (bool * mergedPostings T) :=
  if (length (mp_h it) =? 0)%nat || bool_decide (mp_err it ≠ None) then Some (false, it)
  else if negb (mp_initialized it) then
    match mergedPostings_Next fuel it with
    | None => None
    | Some (false, it') => Some (false, it')
    | Some (true, it') => mergedSeekLoop fuel id it'
    end
  else mergedSeekLoop fuel id it.
End Merged.

(** ** [removedPostings] *)
Record removedPostings (T : Type) := mkRemovedPostings {
  rp_full : T;
  rp_remove : T;
  rp_cur : SeriesRef;
  rp_initialized : bool;
  rp_fok : bool;
  rp_rok : bool
}.
Arguments mkRemovedPostings {T}.
Arguments rp_full {T}.
Arguments rp_remove {T}.
Arguments rp_cur {T}.
Arguments rp_initialized {T}.
Arguments rp_fok {T}.
Arguments rp_rok {T}.

Section Removed.
Context {T : Type} `{Postings T}.

Definition newRemovedPostings (full remove : T) : removedPostings T :=
  mkRemovedPostings full remove 0 false false false.

(** [rp.cur = rp.full.At(); rp.fok = rp.full.Next(); return true] *)
Definition takeFull (rp : removedPostings T) : bool * removedPostings T :=
  let '(ok, full) := Next (rp_full rp) in
  (true, mkRemovedPostings full (rp_remove rp) (At (rp_full rp)) (rp_initialized rp)
                           ok (rp_rok rp)).

Fixpoint removedLoop (fuel : nat) (rp : removedPostings T)
  : option (bool * removedPostings T) :=
  match fuel with
  | O => None
  | S f =>
      if negb (rp_fok rp) then Some (false, rp)
      else if negb (rp_rok rp) then Some (takeFull rp)
      else
        let fcur := At (rp_full rp) in
        let rcur := At (rp_remove rp) in
        if fcur <? rcur then Some (takeFull rp)
        else if rcur <? fcur then
          let '(ok, remove) := Seek fcur (rp_remove rp) in
          removedLoop f (mkRemovedPostings (rp_full rp) remove (rp_cur rp)
                                           (rp_initialized rp) (rp_fok rp) ok)
        else
          let '(ok, full) := Next (rp_full rp) in
          removedLoop f (mkRemovedPostings full (rp_remove rp) (rp_cur rp)
                                           (rp_initialized rp) ok (rp_rok rp))
  end.

Definition removedPostings_Next (fuel : nat) (rp : removedPostings T)
  : option (bool * removedPostings T) :=
  if negb (rp_initialized rp) then
    let '(fok, full) := Next (rp_full rp) in
    let '(rok, remove) := Next (rp_remove rp) in
    removedLoop fuel (mkRemovedPostings full remove (rp_cur rp) true fok rok)
  else removedLoop fuel rp.

Definition removedPostings_Seek (fuel : nat) (id : SeriesRef) (rp : removedPostings T)
  : option (bool * removedPostings T) :=
  if id <=? rp_cur rp then Some (true, rp)
  else
    let '(fok, full) := Seek id (rp_full rp) in
    let '(rok, remove) := Seek id (rp_remove rp) in
    removedPostings_Next fuel (mkRemovedPostings full remove (rp_cur rp) true fok rok).

Definition removedPostings_Err (rp : removedPostings T) : option Error :=
  match Err (rp_full rp) with
  | Some e => Some e
  | None => Err (rp_remove rp)
  end.
End Removed.

(** ** Values of interface type [Postings] returned by the operators

    An operator returns the empty sentinel, one of its arguments, or a new
    composite iterator. *)
Inductive PostingsOf (T : Type) :=
| PErr (e : errPostings)
| PIn (p : T)
| PIntersect (it : intersectPostings T)
| PMerged (it : mergedPostings T)
| PRemoved (it : removedPostings T).
Arguments PErr {T}.
Arguments PIn {T}.
Arguments PIntersect {T}.
Arguments PMerged {T}.
Arguments PRemoved {T}.

Definition liftStep {A B} (c : A → B) (r : option (bool * A)) : option (bool * B) :=
  match r with
  | Some (ok, a) => Some (ok, c a)
  | None => None
  end.

Section Operators.
Context {T : Type} `{Postings T}.

Definition PNext (fuel : nat) (p : PostingsOf T) : option (bool * PostingsOf T) :=
  match p with
  | PErr e => liftStep PErr (Some (Next e))
  | PIn q => liftStep PIn (Some (Next q))
  | PIntersect it => liftStep PIntersect (intersectPostings_Next fuel it)
  | PMerged it => liftStep PMerged (mergedPostings_Next fuel it)
  | PRemoved it => liftStep PRemoved (removedPostings_Next fuel it)
  end.

Definition PSeek (fuel : nat) (v : SeriesRef) (p : PostingsOf T)
  : option (bool * PostingsOf T) :=
  match p with
  | PErr e => liftStep PErr (Some (Seek v e))
  | PIn q => liftStep PIn (Some (Seek v q))
  | PIntersect it => liftStep PIntersect (intersectPostings_Seek fuel v it)
  | PMerged it => liftStep PMerged (mergedPostings_Seek fuel v it)
  | PRemoved it => liftStep PRemoved (removedPostings_Seek fuel v it)
  end.

Definition PAt (p : PostingsOf T) : SeriesRef :=
  match p with
  | PErr e => At e
  | PIn q => At q
  | PIntersect it => ip_cur it
  | PMerged it => mp_cur it
  | PRemoved it => rp_cur it
  end.

Definition PErrOf (p : PostingsOf T) : option Error :=
  match p with
  | PErr e => Err e
  | PIn q => Err q
  | PIntersect it => intersectPostings_Err it
  | PMerged it => mp_err it
  | PRemoved it => removedPostings_Err it
  end.

Definition Intersect (its : list T) : PostingsOf T :=
  match its with
  | [] => PErr EmptyPostings
  | [p] => PIn p
  | _ =>
      if existsb IsEmptyPostingsType its then PErr EmptyPostings
      else PIntersect (newIntersectPostings its)
  end.

Definition Merge (its : list T) : PostingsOf T :=
  match its with
  | [] => PErr EmptyPostings
  | [p] => PIn p
  | _ =>
      match newMergedPostings its with
      | None => PErr EmptyPostings
      | Some p => PMerged p
      end
  end.

Definition Without (full drop : T) : PostingsOf T :=
  if IsEmptyPostingsType full then PErr EmptyPostings
  else if IsEmptyPostingsType drop then PIn full
  else PRemoved (newRemovedPostings full drop).

(** [ExpandPostings]: [for p.Next() { res = append(res, p.At()) }],
    then [return res, p.Err()]. *)
Fixpoint ExpandPostings (fuel : nat) (p : PostingsOf T)
  : option (list SeriesRef * option Error) :=
  match fuel with
  | O => None
  | S f =>
      match PNext fuel p with
      | None => None
      | Some (false, p') => Some ([], PErrOf p')
      | Some (true, p') =>
          match ExpandPostings f p' with
          | None => None
          | Some (res, e) => Some (PAt p' :: res, e)
          end
      end
  end.
End Operators.

(** ** The postings store [MemPostings] *)
Record MemPostings := mkMemPostings {
  m : gmap string (gmap string (list SeriesRef));
  ordered : bool
}.

Definition NewMemPostings : MemPostings := mkMemPostings ∅ true.
Definition NewUnorderedMemPostings : MemPostings := mkMemPostings ∅ false.

(** The repair loop of [addFor]:
    [for i := len(list) - 1; i >= 1; i-- { if list[i] >= list[i-1] { break }; swap }] *)
Fixpoint repairOrder (i : nat) (lst : list SeriesRef) : list SeriesRef :=
  match i with
  | O => lst
  | S j =>
      match lst !! i, lst !! j with
      | Some a, Some b =>
          if b <=? a then lst else repairOrder j (<[j := a]> (<[i := b]> lst))
      | _, _ => lst
      end
  end.

Definition addFor (id : SeriesRef) (l : Label) (p : MemPostings) : MemPostings :=
  let nm := default ∅ (m p !! Name l) in
  let lst := default [] (nm !! Value l) ++ [id] in
  let lst := if ordered p then repairOrder (length lst - 1) lst else lst in
  mkMemPostings (<[Name l := <[Value l := lst]> nm]> (m p)) (ordered p).

(** [Add]; [lset] lists the labels in the order in which [lset.Range]
    visits them. *)
Definition Add (id : SeriesRef) (lset : list Label) (p : MemPostings) : MemPostings :=
  addFor id allPostingsKey (foldl (λ p l, addFor id l p) p lset).

(** [sort.Sort(seriesRefSlice(l))] sorts in increasing order; on integers
    every sorting algorithm returns the same slice. *)
Definition sortRefs (l : list SeriesRef) : list SeriesRef := merge_sort N.le l.

(** [EnsureOrder]: the workers sort every postings list once, each list
    independently of the others. *)
Definition EnsureOrder (p : MemPostings) : MemPostings :=
  if ordered p then p
  else mkMemPostings ((λ nm : gmap string (list SeriesRef), sortRefs <$> nm) <$> m p) true.

(** [Get]: a [nil] slice (here the empty list) gives the empty sentinel. *)
Definition Get (name value : string) (p : MemPostings) : PostingsOf ListPostings :=
  match default [] (default ∅ (m p !! name) !! value) with
  | [] => PErr EmptyPostings
  | lp => PIn (newListPostings lp)
  end.

Definition All (p : MemPostings) : PostingsOf ListPostings :=
  Get (Name allPostingsKey) (Value allPostingsKey) p.

(** [LabelValues]; Go visits a map in an unspecified order, here the order
    of the keys of the finite map stands for it. *)
Definition LabelValues (name : string) (p : MemPostings) : list string :=
  (map_to_list (default ∅ (m p !! name))).*1.

(** The body of the innermost loop of [Delete], for the list under
    [(n, l)]. *)
Definition deleteIn (deleted : gset SeriesRef) (n l : string) (p : MemPostings)
  : MemPostings :=
  let nm := default ∅ (m p !! n) in
  let lst := default [] (nm !! l) in
  if negb (existsb (λ id, bool_decide (id ∈ deleted)) lst) then p
  else
    let repl := filter (λ id, id ∉ deleted) lst in
    if (0 <? length repl)%nat
    then mkMemPostings (<[n := <[l := repl]> nm]> (m p)) (ordered p)
    else mkMemPostings (<[n := delete l nm]> (m p)) (ordered p).

(** The body of the loop over the label names: the values are collected
    first, then each list is treated, then an empty inner map is dropped. *)
Definition deleteName (deleted : gset SeriesRef) (p : MemPostings) (n : string)
  : MemPostings :=
  let vals := (map_to_list (default ∅ (m p !! n))).*1 in
  let p := foldl (λ p l, deleteIn deleted n l p) p vals in
  if (size (default ∅ (m p !! n)) =? 0)%nat
  then mkMemPostings (delete n (m p)) (ordered p)
  else p.

Definition Delete (deleted : gset SeriesRef) (p : MemPostings) : MemPostings :=
  let keys := (map_to_list (m p)).*1 in
  foldl (deleteName deleted) p keys.

(** ** Interface values of two dynamic types

    A slice of [Postings] may hold iterators of different types; the sum of
    two implementations is again an implementation. *)
Global Instance sum_Postings {A B : Type} `{Postings A} `{Postings B} : Postings (A + B) := {
  Next p := match p with
            | inl a => ((Next a).1, inl (Next a).2)
            | inr b => ((Next b).1, inr (Next b).2)
            end;
  Seek v p := match p with
              | inl a => ((Seek v a).1, inl (Seek v a).2)
              | inr b => ((Seek v b).1, inr (Seek v b).2)
              end;
  At p := match p with inl a => At a | inr b => At b end;
  Err p := match p with inl a => Err a | inr b => Err b end;
  IsEmptyPostingsType p :=
    match p with inl a => IsEmptyPostingsType a | inr b => IsEmptyPostingsType b end
}.

(** ** Notions used to state the properties of the store *)

Definition postingsList (n v : string) (p : MemPostings) : list SeriesRef :=
  default [] (default ∅ (m p !! n) !! v).

Definition insertRef (id : SeriesRef) (k : nat) (l : list SeriesRef) : list SeriesRef :=
  filter (λ x, x ≤ id) l ++ replicate k id ++ filter (λ x, id < x) l.

Definition sortedStore (p : MemPostings) : Prop :=
  ∀ n v, StronglySorted N.le (postingsList n v p).

Definition occurrences (l : Label) (ls : list Label) : nat :=
  length (filter (λ x, x = l) ls).

Definition postingsEntry (n v : string) (p : MemPostings) : option (list SeriesRef) :=
  m p !! n ≫= λ nm, nm !! v.

(** What [Delete] makes of one postings list: a list without deleted
    member stays, the others lose their deleted members and the entry
    disappears if nothing is left. *)
Definition deleteFrom (deleted : gset SeriesRef) (l : list SeriesRef)
  : option (list SeriesRef) :=
  if decide (Forall (λ id, id ∉ deleted) l) then Some l
  else match filter (λ id, id ∉ deleted) l with
       | [] => None
       | repl => Some repl
       end.

Definition deleteInner (deleted : gset SeriesRef) (nm : gmap string (list SeriesRef))
  : option (gmap string (list SeriesRef)) :=
  let nm' := omap (deleteFrom deleted) nm in
  if decide (nm' = ∅) then None else Some nm'.

(** The store after a sequence of [Add] calls, in the order of the list. *)
Definition addAll (adds : list (SeriesRef * list Label)) (p : MemPostings) : MemPostings :=
  foldl (λ p a, Add a.1 a.2 p) p adds.

(** [ExpandPostings] returns [res] and no error, whatever the fuel beyond
    the length of [res]. *)
Definition expandsTo (p : PostingsOf ListPostings) (res : list SeriesRef) : Prop :=
  ∀ fuel, (length res < fuel)%nat → ExpandPostings fuel p = Some (res, None).

(** Reads after ordering return exactly the series added under a label, in
    strictly increasing order. *)
Definition orderedReadsExact (adds : list (SeriesRef * list Label)) : Prop :=
  let p := EnsureOrder (addAll adds NewUnorderedMemPostings) in
  (∀ n v, (∃ a, a ∈ adds ∧ mkLabel n v ∈ a.2) →
     ∃ res, expandsTo (Get n v p) res ∧ StronglySorted N.lt res ∧
            ∀ r, r ∈ res ↔ ∃ ls, (r, ls) ∈ adds ∧ mkLabel n v ∈ ls) ∧
  (∃ res, expandsTo (All p) res ∧ StronglySorted N.lt res ∧
          ∀ r, r ∈ res ↔ r ∈ adds.*1).

(** The references appended under label [l] by a sequence of [Add] calls. *)
Definition appended (l : Label) (adds : list (SeriesRef * list Label)) : list SeriesRef :=
  adds ≫= λ a, replicate (occurrences l (a.2 ++ [allPostingsKey])) a.1.

(** A label set is well formed when no label is listed twice and the key
    reserved for [All] is not used as a label. *)
Definition wellFormedLabels (ls : list Label) : Prop :=
  NoDup ls ∧ allPostingsKey ∉ ls.

(** ** Conforming iterators

    [seekList x l] is what is left of an increasing list [l] from its first
    element that is at least [x]. *)
Fixpoint seekList (x : SeriesRef) (l : list SeriesRef) : list SeriesRef :=
  match l with
  | [] => []
  | y :: rest => if x <=? y then l else seekList x rest
  end.

Section Conformance.
Context {T : Type} `{Postings T}.

(** [Positioned p c l]: the iterator [p] stands on the value [c], the
    values [l] are still to come, and [p] follows the contract of the
    interface from here on: [At] reads [c]; [Seek] to a value not above
    [c] changes nothing and succeeds; [Next] moves to the head of [l];
    [Seek] to a larger value moves to the first value of [l] that is at
    least the target; both fail without error when no such value is
    left. *)
Inductive Positioned : T → SeriesRef → list SeriesRef → Prop :=
| Positioned_intro (p : T) (c : SeriesRef) (l : list SeriesRef) :
    At p = c →
    Err p = None →
    (∀ x, x ≤ c → Seek x p = (true, p)) →
    (l = [] → (Next p).1 = false ∧ Err (Next p).2 = None) →
    (∀ y l', l = y :: l' → (Next p).1 = true) →
    (∀ y l', l = y :: l' → Positioned (Next p).2 y l') →
    (∀ x, c < x → seekList x l = [] → (Seek x p).1 = false ∧ Err (Seek x p).2 = None) →
    (∀ x y l', c < x → seekList x l = y :: l' → (Seek x p).1 = true) →
    (∀ x y l', c < x → seekList x l = y :: l' → Positioned (Seek x p).2 y l') →
    Positioned p c l.

(** [After r l]: the outcome [r] of a [Next] or [Seek] when the values
    [l] were left: success on the head of [l], or failure without error
    when [l] is empty. *)
Definition After (r : bool * T) (l : list SeriesRef) : Prop :=
  match l with
  | [] => r.1 = false ∧ Err r.2 = None
  | y :: l' => r.1 = true ∧ Positioned r.2 y l'
  end.

(** [Fresh p l]: the iterator [p] has not been advanced yet and will
    produce the values [l]; the empty sentinel produces nothing. *)
Definition Fresh (p : T) (l : list SeriesRef) : Prop :=
  Err p = None ∧
  (IsEmptyPostingsType p = true → l = []) ∧
  After (Next p) l.

(** A conforming input: a fresh iterator over a strictly increasing
    list. *)
Definition Conforming (p : T) (l : list SeriesRef) : Prop :=
  StronglySorted N.lt l ∧ Fresh p l.

(** [ExpandPostings] returns [res] and no error with any fuel from [n]
    on. *)
Definition expandsFrom (n : nat) (p : PostingsOf T) (res : list SeriesRef) : Prop :=
  ∀ fuel, (n ≤ fuel)%nat → ExpandPostings fuel p = Some (res, None).
End Conformance.

(** ** Invariant of [removedPostings]

    [F] are the values of [full] not yet consumed, [R] those of [remove];
    before the first step the inputs are still fresh. *)
Definition RemovedInv {T} `{Postings T} (rp : removedPostings T) (F R : list SeriesRef)
  : Prop :=
  StronglySorted N.lt F ∧ StronglySorted N.lt R ∧
  if rp_initialized rp
  then After (rp_fok rp, rp_full rp) F ∧ After (rp_rok rp, rp_remove rp) R
  else After (Next (rp_full rp)) F ∧ After (Next (rp_remove rp)) R.

(** ** What [ShardedPostings] produces

    [takeBelow hi l] is the prefix of [l] below [hi]. *)
Fixpoint takeBelow (hi : SeriesRef) (l : list SeriesRef) : list SeriesRef :=
  match l with
  | [] => []
  | z :: rest => if z <? hi then z :: takeBelow hi rest else []
  end.

(** The values produced by repeated [Next] on a sharded iterator over the
    values [l]: the first value from [lo] on, whatever it is, then the
    following ones as long as they are below [hi]. *)
Definition shardedValues (lo hi : N) (l : list SeriesRef) : list SeriesRef :=
  if hi =? 0 then []
  else match seekList lo l with
       | [] => []
       | y :: rest => y :: takeBelow hi rest
       end.

(** The values of [l] within [lo, hi). *)
Definition inRange (lo hi : N) (l : list SeriesRef) : list SeriesRef :=
  filter (λ v, lo ≤ v ∧ v < hi) l.

(** ** What [Intersect] and [Merge] produce *)

(** The values of the first list that every other list contains. *)
Definition commonValues (ls : list (list SeriesRef)) : list SeriesRef :=
  match ls with
  | [] => []
  | l :: rest => filter (λ x, Forall (λ l', x ∈ l') rest) l
  end.

Definition totalLength (ls : list (list SeriesRef)) : nat :=
  sum_list_with length ls.

(** An input of a running [intersectPostings]: it stands on the head of
    [L]. *)
Definition StandsOn {T} `{Postings T} (p : T) (L : list SeriesRef) : Prop :=
  ∃ h t, L = h :: t ∧ Positioned p h t.

(** An input that has not been advanced since the last value was produced:
    its next step leads into [L]. *)
Definition Pending {T} `{Postings T} (p : T) (L : list SeriesRef) : Prop :=
  Err p = None ∧ After (Next p) L.

(** The common values from [c] on. *)
Definition commonFrom (c : SeriesRef) (ls : list (list SeriesRef)) : list SeriesRef :=
  commonValues (seekList c <$> ls).

(** An input of [doNext] with candidate [cur]: it stands on what is left of
    [L] from some earlier candidate on. *)
Definition Reach {T} `{Postings T} (cur : SeriesRef) (p : T) (L : list SeriesRef) : Prop :=
  ∃ c, c ≤ cur ∧ StandsOn p (seekList c L).

(** The number of values above [c] that the inputs still hold; it bounds
    the number of restarts of [doNext]. *)
Definition ahead (c : SeriesRef) (ls : list (list SeriesRef)) : nat :=
  sum_list_with (λ L, length (filter (λ x, c < x) L)) ls.

(** Invariant of [intersectPostings] between two calls of [Next]: the
    inputs are pending on the lists [Ls] and no value left is below the
    candidate. *)
Definition IntersectInv {T} `{Postings T} (it : intersectPostings T)
    (Ls : list (list SeriesRef)) : Prop :=
  Forall2 Pending (ip_arr it) Ls ∧
  Forall (StronglySorted N.lt) Ls ∧
  Ls ≠ [] ∧
  Forall (Forall (λ x, ip_cur it ≤ x)) Ls.

(** ** The heap property

    [kAt h i] is the key of cell [i] (0 outside the slice).  Cell [i] is in
    order within the first [n] cells when its key is not above the keys of
    its children [2i+1] and [2i+2]. *)
Section HeapSpec.
Context {A : Type} (key : A → N).

Definition kAt (h : list A) (i : nat) : N := from_option key 0 (h !! i).

Definition nodeOk (n : nat) (h : list A) (i : nat) : Prop :=
  ∀ j, j = (2 * i + 1)%nat ∨ j = (2 * i + 2)%nat → (j < n)%nat → kAt h i ≤ kAt h j.

Definition heapFrom (k n : nat) (h : list A) : Prop :=
  ∀ i, (k ≤ i)%nat → nodeOk n h i.

Definition isHeap (h : list A) : Prop := heapFrom 0 (length h) h.

(** Invariant of the loop of [down]: every cell from [i0] on is in
    order except the cell [i] being sifted, and the parent of [i] is not
    above the children of [i]. *)
Definition holeInv (i0 n : nat) (h : list A) (i : nat) : Prop :=
  (∀ a, (i0 ≤ a)%nat → a ≠ i → nodeOk n h a) ∧
  (∀ p c, (i0 ≤ p)%nat → i = (2 * p + 1)%nat ∨ i = (2 * p + 2)%nat →
          c = (2 * i + 1)%nat ∨ c = (2 * i + 2)%nat → (c < n)%nat →
          kAt h p ≤ kAt h c).
End HeapSpec.

(** The values of all lists, each once, in increasing order. *)
Definition mergedValues (ls : list (list SeriesRef)) : list SeriesRef :=
  merge_sort N.le (remove_dups (mjoin ls)).

(** Some list of [Ls] holds [x]. *)
Definition holds (Ls : list (list SeriesRef)) (x : SeriesRef) : Prop :=
  ∃ L, L ∈ Ls ∧ x ∈ L.

(** Invariant of an initialized [mergedPostings] between two calls: the
    inputs in the heap stand on the heads of the lists [Ls], the slice is a
    heap for [At], and the current value is the one of its root. *)
Definition MergedRun {T} `{Postings T} (mp : mergedPostings T)
    (Ls : list (list SeriesRef)) : Prop :=
  mp_initialized mp = true ∧ mp_err mp = None ∧
  Forall2 StandsOn (mp_h mp) Ls ∧
  Forall (StronglySorted N.lt) Ls ∧
  isHeap At (mp_h mp) ∧
  ∃ top rest, mp_h mp = top :: rest ∧ mp_cur mp = At top.

(** ** Positions reached by the composite iterators *)

(** An [intersectPostings] that stands on a value: every input stands on
    the candidate. *)
Definition IntersectPositioned {T} `{Postings T} (it : intersectPostings T) : Prop :=
  ip_arr it ≠ [] ∧ Forall (λ p, ∃ l, Positioned p (ip_cur it) l) (ip_arr it).

(** A [mergedPostings] that stands on a value. *)
Definition MergedPositioned {T} (mp : mergedPostings T) : Prop :=
  mp_h mp ≠ [] ∧ mp_err mp = None ∧ mp_initialized mp = true.

(** A [ShardedPostings] that stands on a value: the inner iterator stands
    on a value not below the lower bound, with increasing values to come. *)
Definition ShardedPositioned {T} `{Postings T} (sp : ShardedPostings T) : Prop :=
  ∃ c l, Positioned (sp_p sp) c l ∧ StronglySorted N.lt (c :: l) ∧ sp_minOffset sp ≤ c.

(** ** Inputs that have terminated with an error

    [Failed p e]: from this state on, [Next] and [Seek] of [p] return false
    and [Err] returns [e]. *)
Definition Failed {T} `{Postings T} (p : T) (e : Error) : Prop :=
  ∃ I : T → Prop, I p ∧
    ∀ q, I q → Err q = Some e ∧ (Next q).1 = false ∧ I (Next q).2 ∧
               ∀ x, (Seek x q).1 = false ∧ I (Seek x q).2.

(** The input at position [k] of the slice has terminated with [e]. *)
Definition FailedAt {T} `{Postings T} (k : nat) (arr : list T) (e : Error) : Prop :=
  ∃ p, arr !! k = Some p ∧ Failed p e.
(** ** Further operations of the store *)

(** [AllPostingsKey] returns the name and the value of the reserved key. *)
Definition AllPostingsKey : string * string :=
  (Name allPostingsKey, Value allPostingsKey).

(** The comparison [<] of Go on strings is byte-wise lexicographic, a
    proper prefix being smaller; this is the comparison of the library. *)
Definition string_lt (a b : string) : Prop := String.ltb a b = true.
Definition string_le (a b : string) : Prop := String.leb a b = true.

Global Instance string_le_dec : RelDecision string_le.
Proof. intros a b. unfold string_le. apply _. Defined.

(** [sort.Strings] sorts in increasing order; on a total order every
    sorting algorithm returns the same slice. *)
Definition sort_Strings (l : list string) : list string := merge_sort string_le l.

(** The body of the outer loop of [Symbols]: the name and every value of
    its inner map enter the set. *)
Definition addSymbols (symbols : gset string) (ne : string * gmap string (list SeriesRef))
  : gset string :=
  foldl (λ s v, {[v]} ∪ s) ({[ne.1]} ∪ symbols) (map_to_list ne.2).*1.

(** [Symbols]; the result is the slice handed to [NewStringListIter],
    which is not part of this file. *)
Definition Symbols (p : MemPostings) : list string :=
  let symbols := foldl addSymbols ∅ (map_to_list (m p)) in
  sort_Strings (elements symbols).

(** The function given to [sort.Slice] by [SortedKeys]. *)
Definition keyLess (a b : Label) : bool :=
  if negb (bool_decide (Name a = Name b)) then String.ltb (Name a) (Name b)
  else String.ltb (Value a) (Value b).

Definition key_le (a b : Label) : Prop := keyLess b a = false.

Global Instance key_le_dec : RelDecision key_le.
Proof. intros a b. unfold key_le. apply _. Defined.

(** The keys collected by the loops of [SortedKeys], in the order of the
    visit. *)
Definition storeKeys (p : MemPostings) : list Label :=
  map_to_list (m p) ≫= λ ne, (λ v, mkLabel ne.1 v) <$> (map_to_list ne.2).*1.

(** [SortedKeys].  [sort.Slice] is not stable, but two keys of the store
    never compare equal, so that the result does not depend on the sorting
    algorithm. *)
Definition SortedKeys (p : MemPostings) : list Label := merge_sort key_le (storeKeys p).

(** [LabelNames] *)
Definition LabelNames (p : MemPostings) : list string :=
  if (size (m p) =? 0)%nat then []
  else filter (λ name, name ≠ Name allPostingsKey) (map_to_list (m p)).*1.

(** The entries visited by the loops of [Iter], in the order of the
    visit. *)
Definition storeEntries (p : MemPostings) : list (Label * list SeriesRef) :=
  map_to_list (m p) ≫= λ ne, (λ vl, (mkLabel ne.1 vl.1, vl.2)) <$> map_to_list ne.2.

(** The loops of [Iter]: the first error of the callback leaves both
    loops.  The callback may keep a state of its own, which is threaded
    through the calls. *)
Fixpoint iterLoop {S : Type} (f : Label → ListPostings → S → S * option Error)
    (es : list (Label * list SeriesRef)) (s : S) : S * option Error :=
  match es with
  | [] => (s, None)
  | e :: rest =>
      match f e.1 (newListPostings e.2) s with
      | (s', Some err) => (s', Some err)
      | (s', None) => iterLoop f rest s'
      end
  end.

Definition Iter {S : Type} (f : Label → ListPostings → S → S * option Error)
    (p : MemPostings) (s : S) : S * option Error :=
  iterLoop f (storeEntries p) s.

(** [NewListPostings] *)
Definition NewListPostings (l : list SeriesRef) : PostingsOf ListPostings :=
  PIn (newListPostings l).
(** ** Further notions on the store *)

(** The store holds no empty postings list and no empty inner map: an
    entry exists only for a label pair that some series carries. *)
Definition storeInv (p : MemPostings) : Prop :=
  (∀ n nm, m p !! n = Some nm → nm ≠ ∅) ∧
  (∀ n v l, postingsEntry n v p = Some l → l ≠ []).

(** The reference [id] occurs in no postings list. *)
Definition unusedRef (id : SeriesRef) (p : MemPostings) : Prop :=
  ∀ n v, id ∉ postingsList n v p.

(** The callback that records the label and the iterator of every call. *)
Definition recordCall (l : Label) (it : ListPostings) (log : list (Label * ListPostings))
  : list (Label * ListPostings) * option Error :=
  (log ++ [(l, it)], None).

(** [callsSucceed f es s s']: the function [f], called on the entries
    [es] in turn from the state [s] with a new list iterator for each, never
    returns an error and leaves the state [s']. *)
Inductive callsSucceed {S : Type} (f : Label → ListPostings → S → S * option Error)
  : list (Label * list SeriesRef) → S → S → Prop :=
| callsSucceed_nil (s : S) : callsSucceed f [] s s
| callsSucceed_cons (e : Label * list SeriesRef) (es : list (Label * list SeriesRef))
    (s s1 s2 : S) :
    f e.1 (newListPostings e.2) s = (s1, None) →
    callsSucceed f es s1 s2 →
    callsSucceed f (e :: es) s s2.

(** The callback that counts its calls and fails on the label [bad]. *)
Definition failOn (bad : Label) (err : Error) (l : Label) (it : ListPostings) (calls : nat)
  : nat * option Error :=
  (S calls, if bool_decide (l = bad) then Some err else None).

(** The order "not above" of a comparison function. *)
Definition cmp_le {A : Type} (cmp : A → A → comparison) (a b : A) : Prop := cmp b a ≠ Lt.

(** The comparison behind [keyLess]: names first, then values. *)
Definition keyCompare (a b : Label) : comparison :=
  match String.compare (Name a) (Name b) with
  | Eq => String.compare (Value a) (Value b)
  | c => c
  end.

(** The operations that change a store, and a run of them. *)
Inductive StoreOp :=
| OpAdd (id : SeriesRef) (lset : list Label)
| OpEnsureOrder
| OpDelete (deleted : gset SeriesRef).

Definition applyOp (p : MemPostings) (o : StoreOp) : MemPostings :=
  match o with
  | OpAdd id lset => Add id lset p
  | OpEnsureOrder => EnsureOrder p
  | OpDelete deleted => Delete deleted p
  end.

Definition runOps (ops : list StoreOp) (p : MemPostings) : MemPostings :=
  foldl applyOp p ops.

(** In the serving phase every postings list is sorted. *)
Definition servingSorted (p : MemPostings) : Prop :=
  ordered p = true → sortedStore p.
(** ** The byte encoding read by [BigEndianPostings] *)

(** The byte of a number below 256. *)
Definition byteOf (n : N) : Byte.byte := default Byte.x00 (Byte.of_N n).

(** The four bytes of a number below [2^32], most significant first, as
    [binary.BigEndian.PutUint32] writes them. *)
Definition PutUint32 (v : N) : list Byte.byte :=
  [byteOf (v / 2 ^ 24 mod 256); byteOf (v / 2 ^ 16 mod 256);
   byteOf (v / 2 ^ 8 mod 256); byteOf (v / 2 ^ 0 mod 256)].

(** A list of numbers as a byte stream of big-endian 32-bit numbers. *)
Definition encodeBE (l : list N) : list Byte.byte := l ≫= PutUint32.
(** ** Running composite iterators *)

(** A running [intersectPostings] that stands on [y]: every input stands
    on [y], the head of its list of [Ls]. *)
Definition IntersectOn {T} `{Postings T} (it : intersectPostings T)
    (Ls : list (list SeriesRef)) (y : SeriesRef) : Prop :=
  ip_cur it = y ∧ Ls ≠ [] ∧ Forall (StronglySorted N.lt) Ls ∧
  Forall2 (λ p L, ∃ t, L = y :: t ∧ Positioned p y t) (ip_arr it) Ls.

(** The number of lists that start below [id]; it bounds the number of
    turns of the loop of [mergedPostings.Seek]. *)
Definition startsBelow (id : SeriesRef) (L : list SeriesRef) : bool :=
  match L with
  | h :: _ => h <? id
  | [] => false
  end.

Definition startBelow (id : SeriesRef) (Ls : list (list SeriesRef)) : nat :=
  length (filter (λ L, startsBelow id L = true) Ls).

(** The value returned by [Get] as an argument of an operator: the empty
    sentinel or a list-backed iterator. *)
Definition asArgument (q : PostingsOf ListPostings) : option (errPostings + ListPostings) :=
  match q with
  | PErr e => Some (inl e)
  | PIn p => Some (inr p)
  | _ => None
  end.
(** ** [Stats]: cardinality statistics of the store

    [Stat] and [maxHeap] are declared in another file of the package.  The
    heap is a parameter of the embedding: its type, [init] on a new heap,
    [push] and [get]. *)
Record Stat := mkStat { StatName : string; Count : N }.

Record PostingsStats := mkPostingsStats {
  CardinalityMetricsStats : list Stat;
  CardinalityLabelStats : list Stat;
  LabelValueStats : list Stat;
  LabelValuePairsStats : list Stat;
  NumLabelPairs : nat
}.

(** The variables of [Stats] that the loops update; [numLabelPairs] is an
    [int] that counts entries held in memory. *)
Record statsAcc (maxHeap : Type) := mkStatsAcc {
  acc_metrics : maxHeap;
  acc_labels : maxHeap;
  acc_labelValueLength : maxHeap;
  acc_labelValuePairs : maxHeap;
  acc_numLabelPairs : nat
}.
Arguments mkStatsAcc {maxHeap}.
Arguments acc_metrics {maxHeap}.
Arguments acc_labels {maxHeap}.
Arguments acc_labelValueLength {maxHeap}.
Arguments acc_labelValuePairs {maxHeap}.
Arguments acc_numLabelPairs {maxHeap}.

Section Stats.
Context {maxHeap : Type}.
Variable heap_init : nat → maxHeap.
Variable heap_push : Stat → maxHeap → maxHeap.
Variable heap_get : maxHeap → list Stat.

(** The body of the inner loop, over the values of the name [n]; the
    state is [metrics], [labelValuePairs] and the 64-bit [size]. *)
Definition statsValue (label n : string) (st : maxHeap * maxHeap * N)
    (nv : string * list SeriesRef) : maxHeap * maxHeap * N :=
  let '(metrics, labelValuePairs, size) := st in
  let count := N.of_nat (length nv.2) in
  let metrics :=
    if bool_decide (n = label) then heap_push (mkStat nv.1 count) metrics else metrics in
  let labelValuePairs :=
    heap_push (mkStat (String.append n (String.append "=" nv.1)) count) labelValuePairs in
  (metrics, labelValuePairs, (size + N.of_nat (String.length nv.1)) mod 2 ^ 64).

(** The body of the outer loop; the reserved empty name is skipped. *)
Definition statsName (label : string) (acc : statsAcc maxHeap)
    (ne : string * gmap string (list SeriesRef)) : statsAcc maxHeap :=
  if bool_decide (ne.1 = EmptyString) then acc
  else
    let labels := heap_push (mkStat ne.1 (N.of_nat (size ne.2))) (acc_labels acc) in
    let numLabelPairs := (acc_numLabelPairs acc + size ne.2)%nat in
    let '(metrics, labelValuePairs, sz) :=
      foldl (statsValue label ne.1) (acc_metrics acc, acc_labelValuePairs acc, 0)
            (map_to_list ne.2) in
    let labelValueLength := heap_push (mkStat ne.1 sz) (acc_labelValueLength acc) in
    mkStatsAcc metrics labels labelValueLength labelValuePairs numLabelPairs.

Definition Stats (label : string) (p : MemPostings) : PostingsStats :=
  let maxNumOfRecords := 10%nat in
  let acc :=
    foldl (statsName label)
          (mkStatsAcc (heap_init maxNumOfRecords) (heap_init maxNumOfRecords)
                      (heap_init maxNumOfRecords) (heap_init maxNumOfRecords) 0%nat)
          (map_to_list (m p)) in
  mkPostingsStats (heap_get (acc_metrics acc)) (heap_get (acc_labels acc))
                  (heap_get (acc_labelValueLength acc)) (heap_get (acc_labelValuePairs acc))
                  (acc_numLabelPairs acc).
End Stats.

(** * Properties of the store *)

Lemma repairOrder_split (pre suf : list SeriesRef) (id : SeriesRef) :
  ∃ pre1 pre2,
    pre = pre1 ++ pre2 ∧ Forall (λ x, id < x) pre2 ∧
    (∀ b, last pre1 = Some b → b ≤ id) ∧
    repairOrder (length pre) (pre ++ id :: suf) = pre1 ++ id :: pre2 ++ suf.
Proof.
  revert suf. induction pre as [|b pre0 IH] using rev_ind; intros suf.
  - exists [], []. simpl. repeat split; auto. intros b Hb; discriminate.
  - rewrite length_app, Nat.add_1_r. simpl.
    rewrite <- (app_assoc pre0 [b]). simpl.
    assert (Hi : (pre0 ++ b :: id :: suf) !! S (length pre0) = Some id).
    { rewrite lookup_app_r by lia. replace (S (length pre0) - length pre0)%nat with 1%nat by lia. done. }
    assert (Hj : (pre0 ++ b :: id :: suf) !! length pre0 = Some b).
    { rewrite lookup_app_r by lia. rewrite Nat.sub_diag. done. }
    rewrite Hi, Hj.
    destruct (N.leb_spec b id) as [Hle|Hlt].
    + exists (pre0 ++ [b]), []. rewrite app_nil_r. repeat split; auto.
      * intros b'. rewrite last_snoc. intros [= <-]. done.
      * by rewrite <- app_assoc.
    + assert (Hsw : <[length pre0 := id]> (<[S (length pre0) := b]> (pre0 ++ b :: id :: suf))
                    = pre0 ++ id :: b :: suf).
      { rewrite insert_app_r_alt by lia.
        replace (S (length pre0) - length pre0)%nat with 1%nat by lia. simpl.
        rewrite insert_app_r_alt by lia. rewrite Nat.sub_diag. done. }
      rewrite Hsw.
      destruct (IH (b :: suf)) as (p1 & p2 & -> & Hp2 & Hlast & Heq).
      exists p1, (p2 ++ [b]). repeat split; auto.
      * by rewrite app_assoc.
      * apply Forall_app; split; auto.
      * rewrite Heq. by rewrite <- app_assoc.
Qed.

Section ListFacts.
Context {A : Type} (P : A → Prop) `{!∀ x, Decision (P x)}.

Lemma filter_all (l : list A) : Forall P l → filter P l = l.
Proof.
  induction 1 as [|x l Hx _ IH]; [done|].
  by rewrite filter_cons_True, IH.
Qed.

Lemma filter_none (l : list A) : Forall (λ x, ¬ P x) l → filter P l = [].
Proof.
  induction 1 as [|x l Hx _ IH]; [done|].
  by rewrite filter_cons_False.
Qed.

Lemma StronglySorted_filter (R : relation A) (l : list A) :
  StronglySorted R l → StronglySorted R (filter P l).
Proof.
  induction 1 as [|x l Hl IH Hx]; [constructor|].
  rewrite filter_cons. destruct (decide (P x)); [|done].
  constructor; [done|].
  rewrite Forall_forall in Hx |- *.
  intros y [_ Hy]%list_elem_of_filter. auto.
Qed.
End ListFacts.

Lemma insertRef_filter_le id k l :
  filter (λ x, x ≤ id) (insertRef id k l) = filter (λ x, x ≤ id) l ++ replicate k id.
Proof.
  unfold insertRef. rewrite !filter_app.
  rewrite (filter_all (λ x, x ≤ id) (filter _ l)).
  2:{ apply Forall_forall. by intros x [? _]%list_elem_of_filter. }
  rewrite (filter_all (λ x, x ≤ id) (replicate k id)).
  2:{ apply Forall_forall. intros x [-> _]%elem_of_replicate. lia. }
  rewrite (filter_none (λ x, x ≤ id) (filter _ l)).
  2:{ apply Forall_forall. intros x [? _]%list_elem_of_filter. lia. }
  by rewrite app_nil_r.
Qed.

Lemma insertRef_filter_gt id k l :
  filter (λ x, id < x) (insertRef id k l) = filter (λ x, id < x) l.
Proof.
  unfold insertRef. rewrite !filter_app.
  rewrite (filter_none (λ x, id < x) (filter (λ x, x ≤ id) l)).
  2:{ apply Forall_forall. intros x [? _]%list_elem_of_filter. lia. }
  rewrite (filter_none (λ x, id < x) (replicate k id)).
  2:{ apply Forall_forall. intros x [-> _]%elem_of_replicate. lia. }
  rewrite (filter_all (λ x, id < x) (filter _ l)).
  2:{ apply Forall_forall. by intros x [? _]%list_elem_of_filter. }
  done.
Qed.

Lemma insertRef_insertRef id a b l :
  insertRef id a (insertRef id b l) = insertRef id (b + a) l.
Proof.
  unfold insertRef at 1.
  rewrite insertRef_filter_le, insertRef_filter_gt.
  unfold insertRef. by rewrite replicate_add, <- !app_assoc.
Qed.

Lemma insertRef_0 id l : StronglySorted N.le l → insertRef id 0 l = l.
Proof.
  unfold insertRef. simpl.
  induction 1 as [|x l Hl IH Hx]; [done|].
  rewrite !filter_cons.
  destruct (decide (x ≤ id)), (decide (id < x)); try lia.
  - simpl. by rewrite IH.
  - rewrite (filter_none (λ x, x ≤ id) l); [simpl|].
    + rewrite filter_all; [done|]. eapply Forall_impl; [exact Hx|]. simpl. intros; lia.
    + eapply Forall_impl; [exact Hx|]. simpl. intros; lia.
Qed.

Lemma insertRef_sorted id k l :
  StronglySorted N.le l → StronglySorted N.le (insertRef id k l).
Proof.
  intros Hl. unfold insertRef.
  apply StronglySorted_app_2; [| by apply StronglySorted_filter |].
  - intros x1 x2 [H1 _]%list_elem_of_filter
      [[-> _]%elem_of_replicate|[H2 _]%list_elem_of_filter]%elem_of_app; lia.
  - apply StronglySorted_app_2; [| | by apply StronglySorted_filter].
    + intros x1 x2 [-> _]%elem_of_replicate [H2 _]%list_elem_of_filter. lia.
    + induction k; simpl; constructor; [done|].
      apply Forall_forall. intros x [-> _]%elem_of_replicate. lia.
Qed.

Lemma repairOrder_insertRef id l :
  StronglySorted N.le l →
  repairOrder (length (l ++ [id]) - 1) (l ++ [id]) = insertRef id 1 l.
Proof.
  intros Hl. rewrite length_app. simpl.
  replace (length l + 1 - 1)%nat with (length l) by lia.
  destruct (repairOrder_split l [] id) as (p1 & p2 & -> & Hp2 & Hlast & ->).
  unfold insertRef. rewrite !filter_app, app_nil_r.
  assert (Hp1 : Forall (λ x, x ≤ id) p1).
  { destruct (last p1) as [b|] eqn:Hb.
    - specialize (Hlast b eq_refl). apply last_Some in Hb as [p1' ->].
      apply Forall_app. split; [|constructor; auto].
      apply Forall_forall. intros x Hx.
      apply N.le_trans with b; [|auto].
      apply StronglySorted_app_1_l in Hl.
      eapply StronglySorted_app_1_elem_of; [exact Hl|done|]. by left.
    - apply last_None in Hb as ->. constructor. }
  rewrite (filter_all (λ x, x ≤ id) p1) by done.
  rewrite (filter_none (λ x, x ≤ id) p2).
  2:{ eapply Forall_impl; [exact Hp2|]. simpl. intros; lia. }
  rewrite (filter_none (λ x, id < x) p1).
  2:{ eapply Forall_impl; [exact Hp1|]. simpl. intros; lia. }
  rewrite (filter_all (λ x, id < x) p2) by done.
  simpl. by rewrite app_nil_r.
Qed.

Lemma postingsList_addFor id l p n v :
  postingsList n v (addFor id l p) =
    if decide (l = mkLabel n v) then
      let lst := postingsList n v p ++ [id] in
      if ordered p then repairOrder (length lst - 1) lst else lst
    else postingsList n v p.
Proof.
  destruct l as [ln lv]. unfold postingsList, addFor. simpl.
  destruct (decide (ln = n)) as [->|Hn].
  - rewrite lookup_insert_eq. simpl.
    destruct (decide (lv = v)) as [->|Hv].
    + rewrite lookup_insert_eq. simpl. rewrite decide_True by done. done.
    + rewrite lookup_insert_ne by done. rewrite decide_False by congruence. done.
  - rewrite lookup_insert_ne by done. rewrite decide_False by congruence. done.
Qed.

Lemma addFor_ordered id l p : ordered (addFor id l p) = ordered p.
Proof. done. Qed.

Lemma Add_foldl id lset p :
  Add id lset p = foldl (λ p l, addFor id l p) p (lset ++ [allPostingsKey]).
Proof. unfold Add. by rewrite foldl_app. Qed.

Lemma occurrences_cons l x ls :
  occurrences l (x :: ls) = ((if decide (x = l) then 1 else 0) + occurrences l ls)%nat.
Proof. unfold occurrences. rewrite filter_cons. by destruct (decide (x = l)). Qed.

Lemma addAll_serving id ls : ∀ p,
  ordered p = true → sortedStore p →
  let p' := foldl (λ p l, addFor id l p) p ls in
  ordered p' = true ∧ sortedStore p' ∧
  ∀ n v, postingsList n v p' = insertRef id (occurrences (mkLabel n v) ls) (postingsList n v p).
Proof.
  induction ls as [|l ls IH]; intros p Hord Hsorted; simpl.
  - repeat split; auto. intros n v. rewrite insertRef_0; [done|apply Hsorted].
  - assert (Hstep : ∀ n v, postingsList n v (addFor id l p)
        = insertRef id (if decide (l = mkLabel n v) then 1 else 0) (postingsList n v p)).
    { intros n v. rewrite postingsList_addFor, Hord.
      destruct (decide (l = mkLabel n v)); simpl.
      - apply repairOrder_insertRef, Hsorted.
      - rewrite insertRef_0; [done|apply Hsorted]. }
    destruct (IH (addFor id l p)) as (Ho & Hs & Hl); [done| |].
    { intros n v. rewrite Hstep. by apply insertRef_sorted. }
    repeat split; auto.
    intros n v. rewrite Hl, Hstep, insertRef_insertRef. by rewrite occurrences_cons.
Qed.

(** C8: in a store that is in the ordered state and whose lists are all
    sorted, one [Add] leaves the store ordered and every list sorted; each
    list is the former one with the new reference inserted behind the
    elements not larger than it, once per occurrence of the label among the
    labels added, the other elements keeping their relative order. *)
Theorem Add_serving_keeps_sorted (id : SeriesRef) (lset : list Label) (p : MemPostings) :
  ordered p = true → sortedStore p →
  ordered (Add id lset p) = true ∧
  sortedStore (Add id lset p) ∧
  ∀ n v, postingsList n v (Add id lset p) =
         insertRef id (occurrences (mkLabel n v) (lset ++ [allPostingsKey]))
                   (postingsList n v p).
Proof.
  intros Hord Hsorted. rewrite Add_foldl. by apply addAll_serving.
Qed.

Lemma deleteFrom_idem (D : gset SeriesRef) l l' : deleteFrom D l = Some l' → deleteFrom D l' = Some l'.
Proof.
  unfold deleteFrom. destruct (decide (Forall _ l)) as [Hl|Hl].
  - intros [= <-]. by rewrite decide_True.
  - destruct (filter _ l) as [|x r] eqn:Hf; [done|]. intros [= <-].
    rewrite decide_True; [done|]. rewrite <- Hf.
    apply Forall_forall. by intros y [? _]%list_elem_of_filter.
Qed.

Lemma existsb_deleted (D : gset SeriesRef) (l : list SeriesRef) :
  existsb (λ id, bool_decide (id ∈ D)) l = false ↔ Forall (λ id, id ∉ D) l.
Proof.
  induction l as [|x l IH]; simpl.
  - split; [constructor|done].
  - rewrite orb_false_iff, IH, Forall_cons, bool_decide_eq_false. done.
Qed.

Lemma deleteIn_spec (D : gset SeriesRef) n l p nm :
  m p !! n = Some nm →
  deleteIn D n l p =
    mkMemPostings (<[n := partial_alter (λ o, o ≫= deleteFrom D) l nm]> (m p)) (ordered p).
Proof.
  intros Hn. unfold deleteIn. rewrite Hn. simpl.
  destruct (nm !! l) as [lst|] eqn:Hl; simpl.
  - destruct (existsb _ lst) eqn:Hex; simpl.
    + assert (Hnot : ¬ Forall (λ id, id ∉ D) lst).
      { intros HF%existsb_deleted. congruence. }
      assert (Hdel : deleteFrom D lst =
                match filter (λ id, id ∉ D) lst with [] => None | r => Some r end).
      { unfold deleteFrom. by rewrite decide_False. }
      destruct (filter (λ id, id ∉ D) lst) as [|x r]; simpl;
        f_equal; f_equal; apply map_eq; intros v;
        rewrite lookup_partial_alter, Hl; simpl; rewrite Hdel.
      * rewrite lookup_delete. by destruct (decide (l = v)).
      * rewrite lookup_insert. by destruct (decide (l = v)).
    + apply existsb_deleted in Hex. destruct p as [mp o]. simpl in *. f_equal.
      apply map_eq. intros n'. rewrite lookup_insert. case_decide; [subst n'|reflexivity].
      rewrite Hn. f_equal. apply map_eq. intros v.
      rewrite lookup_partial_alter, Hl. simpl.
      case_decide; [subst v|reflexivity].
      unfold deleteFrom. by rewrite decide_True.
  - destruct p as [mp o]. simpl in *. f_equal.
    apply map_eq. intros n'. rewrite lookup_insert. case_decide; [subst n'|reflexivity].
    rewrite Hn. f_equal. apply map_eq. intros v.
    rewrite lookup_partial_alter, Hl. simpl.
    case_decide; [by subst v|reflexivity].
Qed.

Section FoldPartialAlter.
Context {A : Type} (g : option A → option A).
Hypothesis g_idem : ∀ o, g (g o) = g o.

Lemma foldl_partial_alter_lookup (ks : list string) : ∀ (mp : gmap string A) k,
  foldl (λ mp k, partial_alter g k mp) mp ks !! k =
    if decide (k ∈ ks) then g (mp !! k) else mp !! k.
Proof.
  induction ks as [|k0 ks IH]; intros mp k; simpl.
  - destruct (decide (k ∈ [])) as [Hk|]; [|done]. by apply elem_of_nil in Hk.
  - rewrite IH, lookup_partial_alter.
    destruct (decide (k ∈ k0 :: ks)) as [Hin|Hout], (decide (k ∈ ks)) as [Hin'|Hout'],
      (decide (k0 = k)) as [->|Hne]; try reflexivity.
    + apply g_idem.
    + exfalso. apply Hout'. by apply elem_of_cons in Hin as [?|?].
    + exfalso. apply Hout. by right.
    + exfalso. apply Hout. by right.
    + exfalso. apply Hout. by left.
Qed.

Lemma foldl_partial_alter_keys (mp : gmap string A) :
  g None = None →
  ∀ k, foldl (λ mp k, partial_alter g k mp) mp (map_to_list mp).*1 !! k = g (mp !! k).
Proof.
  intros HN k. rewrite foldl_partial_alter_lookup.
  case_decide as Hk; [done|].
  destruct (mp !! k) as [x|] eqn:Hx; [|done].
  exfalso. apply Hk. apply list_elem_of_fmap. exists (k, x). split; [done|].
  by apply elem_of_map_to_list.
Qed.
End FoldPartialAlter.

Lemma foldl_deleteIn (D : gset SeriesRef) n vals : ∀ p nm,
  m p !! n = Some nm →
  foldl (λ p l, deleteIn D n l p) p vals =
    mkMemPostings
      (<[n := foldl (λ nm l, partial_alter (λ o, o ≫= deleteFrom D) l nm) nm vals]> (m p))
      (ordered p).
Proof.
  induction vals as [|l vals IH]; intros p nm Hn; simpl.
  - destruct p as [mp o]. simpl in *. by rewrite insert_id.
  - rewrite (deleteIn_spec D n l p nm Hn).
    erewrite IH; [|simpl; apply lookup_insert_eq].
    simpl. by rewrite insert_insert_eq.
Qed.

Lemma bind_deleteFrom_idem (D : gset SeriesRef) (o : option (list SeriesRef)) :
  (o ≫= deleteFrom D) ≫= deleteFrom D = o ≫= deleteFrom D.
Proof.
  destruct o as [l|]; [simpl|done].
  destruct (deleteFrom D l) as [l'|] eqn:Hl; [simpl|done].
  by apply deleteFrom_idem in Hl.
Qed.

Lemma deleteInner_idem (D : gset SeriesRef) nm nm' :
  deleteInner D nm = Some nm' → deleteInner D nm' = Some nm'.
Proof.
  unfold deleteInner. case_decide as Hne; [done|]. intros [= <-].
  assert (Heq : omap (deleteFrom D) (omap (deleteFrom D) nm) = omap (deleteFrom D) nm).
  { apply map_eq. intros v. rewrite !lookup_omap. apply bind_deleteFrom_idem. }
  rewrite Heq. by rewrite decide_False.
Qed.

Lemma bind_deleteInner_idem (D : gset SeriesRef) o :
  (o ≫= deleteInner D) ≫= deleteInner D = o ≫= deleteInner D.
Proof.
  destruct o as [nm|]; [simpl|done].
  destruct (deleteInner D nm) as [nm'|] eqn:Hnm; [simpl|done].
  by apply deleteInner_idem in Hnm.
Qed.

Lemma deleteName_spec (D : gset SeriesRef) p n :
  deleteName D p n =
    mkMemPostings (partial_alter (λ o, o ≫= deleteInner D) n (m p)) (ordered p).
Proof.
  unfold deleteName. destruct (m p !! n) as [nm|] eqn:Hn; simpl.
  - rewrite (foldl_deleteIn D n _ p nm Hn). simpl. rewrite lookup_insert_eq. simpl.
    set (nm2 := foldl _ nm _).
    assert (Hnm2 : nm2 = omap (deleteFrom D) nm).
    { apply map_eq. intros v. unfold nm2.
      rewrite (foldl_partial_alter_keys (λ o, o ≫= deleteFrom D) (bind_deleteFrom_idem D) nm eq_refl).
      by rewrite lookup_omap. }
    destruct (Nat.eqb_spec (size nm2) 0) as [Hz|Hz]; f_equal; apply map_eq; intros n';
      rewrite lookup_partial_alter, Hn; simpl; unfold deleteInner; rewrite <- Hnm2.
    + apply map_size_empty_iff in Hz. destruct (decide (nm2 = ∅)); [|done].
      rewrite lookup_delete, lookup_insert. by destruct (decide (n = n')).
    + apply map_size_non_empty_iff in Hz. destruct (decide (nm2 = ∅)); [done|].
      rewrite lookup_insert. by destruct (decide (n = n')).
  - rewrite map_to_list_empty. simpl. rewrite Hn. simpl. rewrite map_size_empty. simpl.
    f_equal. apply map_eq. intros n'. rewrite lookup_partial_alter, Hn. simpl.
    rewrite lookup_delete. case_decide; [by subst n'|done].
Qed.

Lemma foldl_deleteName (D : gset SeriesRef) keys : ∀ p,
  foldl (deleteName D) p keys =
    mkMemPostings (foldl (λ mp n, partial_alter (λ o, o ≫= deleteInner D) n mp) (m p) keys)
                  (ordered p).
Proof.
  induction keys as [|n keys IH]; intros p; simpl.
  - by destruct p.
  - rewrite IH, deleteName_spec. done.
Qed.

Lemma Delete_lookup (D : gset SeriesRef) p n :
  m (Delete D p) !! n = m p !! n ≫= deleteInner D.
Proof.
  unfold Delete. rewrite foldl_deleteName. simpl.
  by rewrite (foldl_partial_alter_keys (λ o, o ≫= deleteInner D)
                (bind_deleteInner_idem D) (m p) eq_refl).
Qed.

(** C9: after [Delete D] every entry holds its former list without the
    members of [D], in the former order (a list without member of [D] is
    the same list), and an entry whose list becomes empty is gone; no label
    name is left with an empty inner map; a value whose references were all
    deleted is absent from [LabelValues]; so after [Delete {3}] on a store
    where 3 was the only reference under (env, prod), prod is absent from
    [LabelValues env]. *)
Theorem Delete_removes_references (D : gset SeriesRef) (p : MemPostings) :
  ordered (Delete D p) = ordered p ∧
  (∀ n v, postingsEntry n v (Delete D p) = postingsEntry n v p ≫= deleteFrom D) ∧
  (∀ n nm, m (Delete D p) !! n = Some nm → nm ≠ ∅) ∧
  (∀ n v l, postingsEntry n v p = Some l → l ≠ [] → Forall (λ id, id ∈ D) l →
            v ∉ LabelValues n (Delete D p)) ∧
  (∀ q, postingsEntry "env" "prod" q = Some [3] →
        "prod" ∉ LabelValues "env" (Delete {[3]} q)).
Proof.
  assert (Hentry : ∀ D p n v,
    postingsEntry n v (Delete D p) = postingsEntry n v p ≫= deleteFrom D).
  { clear. intros D p n v. unfold postingsEntry. rewrite Delete_lookup.
    destruct (m p !! n) as [nm|]; [simpl|done].
    unfold deleteInner. case_decide as He; simpl.
    - rewrite <- lookup_omap, He. by rewrite lookup_empty.
    - by rewrite lookup_omap. }
  assert (Hgone : ∀ (D : gset SeriesRef) p n v l,
    postingsEntry n v p = Some l → l ≠ [] → Forall (λ id, id ∈ D) l →
    v ∉ LabelValues n (Delete D p)).
  { clear -Hentry. intros D p n v l Hl Hne Hall Hin.
    unfold LabelValues in Hin. apply list_elem_of_fmap in Hin as [[v' l'] [-> Hin]].
    apply elem_of_map_to_list in Hin. simpl in Hin, Hl.
    assert (Hsome : postingsEntry n v' (Delete D p) = Some l').
    { unfold postingsEntry. destruct (m (Delete D p) !! n); [done|].
      simpl in Hin. by rewrite lookup_empty in Hin. }
    rewrite Hentry, Hl in Hsome. simpl in Hsome. unfold deleteFrom in Hsome.
    destruct l as [|x l]; [done|].
    rewrite decide_False in Hsome.
    2:{ intros HF. apply Forall_cons in HF as [Hx _]. apply Forall_cons in Hall as [Hx' _]. done. }
    rewrite filter_none in Hsome; [done|].
    eapply Forall_impl; [exact Hall|]. simpl. intros y Hy Hy'. done. }
  split; [|split; [|split; [|split]]].
  - unfold Delete. by rewrite foldl_deleteName.
  - apply Hentry.
  - intros n nm. rewrite Delete_lookup.
    destruct (m p !! n) as [nm0|]; [simpl|done].
    unfold deleteInner. case_decide; [done|]. by intros [= <-].
  - apply Hgone.
  - intros q Hq. apply (Hgone _ _ _ _ [3] Hq); [done|].
    constructor; [set_solver|constructor].
Qed.

Lemma ExpandPostings_list (l : list SeriesRef) : ∀ cur fuel,
  (length l < fuel)%nat →
  ExpandPostings fuel (PIn (mkListPostings l cur)) = Some (l, None).
Proof.
  induction l as [|x l IH]; intros cur fuel Hf; (destruct fuel as [|f]; [simpl in Hf; lia|]).
  - done.
  - simpl in Hf. cbn -[ExpandPostings]. 
    change (ExpandPostings (S f) (PIn (mkListPostings (x :: l) cur))) with
      (match ExpandPostings f (PIn (mkListPostings l x)) with
       | None => None | Some (res, e) => Some (x :: res, e) end).
    rewrite IH by lia. done.
Qed.

Lemma expandsTo_Get n v p : expandsTo (Get n v p) (postingsList n v p).
Proof.
  intros fuel Hf. unfold Get. fold (postingsList n v p).
  destruct (postingsList n v p) as [|x l] eqn:Hl.
  - destruct fuel; [simpl in Hf; lia|done].
  - by apply ExpandPostings_list.
Qed.

Lemma expandsTo_inj (p : PostingsOf ListPostings) r1 r2 :
  expandsTo p r1 → expandsTo p r2 → r1 = r2.
Proof.
  intros H1 H2.
  specialize (H1 (S (length r1 `max` length r2)) ltac:(lia)).
  specialize (H2 (S (length r1 `max` length r2)) ltac:(lia)).
  congruence.
Qed.

Lemma addFor_all_unordered id ls : ∀ p,
  ordered p = false →
  let p' := foldl (λ p l, addFor id l p) p ls in
  ordered p' = false ∧
  ∀ n v, postingsList n v p' =
         postingsList n v p ++ replicate (occurrences (mkLabel n v) ls) id.
Proof.
  induction ls as [|l ls IH]; intros p Hord; simpl.
  - split; [done|]. intros n v. by rewrite app_nil_r.
  - destruct (IH (addFor id l p)) as [Ho Hl]; [done|].
    split; [done|]. intros n v.
    rewrite Hl, postingsList_addFor, Hord, occurrences_cons.
    destruct (decide (l = mkLabel n v)); simpl; [|done].
    by rewrite <- app_assoc.
Qed.

Lemma addAll_unordered adds : ∀ p,
  ordered p = false →
  ordered (addAll adds p) = false ∧
  ∀ n v, postingsList n v (addAll adds p) = postingsList n v p ++ appended (mkLabel n v) adds.
Proof.
  induction adds as [|[id ls] adds IH]; intros p Hord; unfold addAll; simpl.
  - split; [done|]. intros n v. by rewrite app_nil_r.
  - pose proof (addFor_all_unordered id (ls ++ [allPostingsKey]) p Hord) as [Ho Hl].
    rewrite <- Add_foldl in Ho, Hl.
    destruct (IH (Add id ls p) Ho) as [Ho' Hl'].
    split; [done|]. intros n v.
    unfold addAll in Hl'. rewrite Hl', Hl. unfold appended. simpl.
    by rewrite <- app_assoc.
Qed.

Lemma postingsList_EnsureOrder n v p :
  ordered p = false →
  postingsList n v (EnsureOrder p) = sortRefs (postingsList n v p).
Proof.
  intros Hord. unfold EnsureOrder, postingsList. rewrite Hord. simpl.
  rewrite lookup_fmap. destruct (m p !! n) as [nm|]; simpl.
  - rewrite lookup_fmap. by destruct (nm !! v).
  - by rewrite lookup_empty.
Qed.

Lemma occurrences_0 (l : Label) ls : l ∉ ls → occurrences l ls = 0%nat.
Proof.
  intros Hl. unfold occurrences. rewrite filter_none; [done|].
  apply Forall_forall. by intros x Hx ->.
Qed.

Lemma occurrences_NoDup (l : Label) ls :
  NoDup ls → occurrences l ls = if decide (l ∈ ls) then 1%nat else 0%nat.
Proof.
  induction 1 as [|x ls Hx Hnd IH].
  - destruct (decide (l ∈ [])) as [Hin|]; [by apply elem_of_nil in Hin|done].
  - rewrite occurrences_cons, IH.
    destruct (decide (x = l)) as [->|Hne].
    + rewrite (decide_False (P := l ∈ ls)) by done.
      rewrite decide_True; [done|by left].
    + destruct (decide (l ∈ ls)).
      * rewrite decide_True; [done|by right].
      * rewrite decide_False; [done|]. by intros [?|?]%elem_of_cons.
Qed.

Lemma occurrences_app (l : Label) l1 l2 :
  occurrences l (l1 ++ l2) = (occurrences l l1 + occurrences l l2)%nat.
Proof. unfold occurrences. by rewrite filter_app, length_app. Qed.

Lemma appended_spec (l : Label) adds :
  NoDup adds.*1 →
  Forall (λ a, wellFormedLabels a.2) adds →
  NoDup (appended l adds) ∧
  ∀ r, r ∈ appended l adds ↔ ∃ ls, (r, ls) ∈ adds ∧ (l ∈ ls ∨ l = allPostingsKey).
Proof.
  induction adds as [|[id ls] adds IH]; simpl; intros Hnd Hwf.
  - split; [constructor|]. intros r. split; [by intros ?%elem_of_nil|].
    by intros (ls & ?%elem_of_nil & _).
  - apply NoDup_cons in Hnd as [Hid Hnd]. apply Forall_cons in Hwf as [[Hls Hall] Hwf].
    destruct (IH Hnd Hwf) as [IHnd IHin]. simpl in *.
    assert (Hocc : occurrences l (ls ++ [allPostingsKey]) =
                   if decide (l ∈ ls ∨ l = allPostingsKey) then 1%nat else 0%nat).
    { rewrite occurrences_app, occurrences_NoDup by done.
      rewrite occurrences_cons. unfold occurrences at 1. simpl.
      destruct (decide (l ∈ ls)) as [Hin|Hin], (decide (allPostingsKey = l)) as [<-|Hne].
      - done.
      - rewrite decide_True; [done|by left].
      - rewrite decide_True; [done|by right].
      - rewrite decide_False; [done|]. intros [?|?]; congruence. }
    unfold appended. simpl. fold (appended l adds). rewrite Hocc.
    split.
    + case_decide; simpl; [|done]. apply NoDup_cons. split; [|done].
      intros (ls' & Hin & _)%IHin. apply Hid.
      apply list_elem_of_fmap. by exists (id, ls').
    + intros r. rewrite elem_of_app, IHin. split.
      * intros [Hr|(ls' & Hin & Hl)].
        -- case_decide as Hd; simpl in Hr; [|by apply elem_of_nil in Hr].
           apply list_elem_of_singleton in Hr as ->. exists ls. split; [by left|done].
        -- exists ls'. split; [by right|done].
      * intros (ls' & Hin & Hl). apply elem_of_cons in Hin as [[= -> ->]|Hin].
        -- left. rewrite decide_True by done. by left.
        -- right. by exists ls'.
Qed.

Lemma sortRefs_strict (l : list SeriesRef) :
  NoDup l → StronglySorted N.lt (sortRefs l) ∧ ∀ r, r ∈ sortRefs l ↔ r ∈ l.
Proof.
  intros Hnd. unfold sortRefs.
  pose proof (merge_sort_Permutation N.le l) as Hperm.
  assert (Hs : StronglySorted N.le (merge_sort N.le l)).
  { apply StronglySorted_merge_sort; [apply _|]. intros x y. lia. }
  split; [|intros r; by rewrite Hperm].
  rewrite <- Hperm in Hnd. clear Hperm.
  induction Hs as [|x s Hs IH Hx]; [constructor|].
  apply NoDup_cons in Hnd as [Hxs Hnd]. constructor; [by apply IH|].
  rewrite Forall_forall in Hx |- *. intros y Hy.
  specialize (Hx y Hy). assert (x ≠ y) by (by intros ->). lia.
Qed.

(** C1, as amended: reads after ordering are exact when the label sets are
    well formed. *)
Theorem Get_All_after_EnsureOrder (adds : list (SeriesRef * list Label)) :
  NoDup adds.*1 →
  Forall (λ a, wellFormedLabels a.2) adds →
  orderedReadsExact adds.
Proof.
  intros Hnd Hwf. unfold orderedReadsExact.
  destruct (addAll_unordered adds NewUnorderedMemPostings eq_refl) as [Hord Hlist].
  assert (Hpl : ∀ n v, postingsList n v (EnsureOrder (addAll adds NewUnorderedMemPostings))
                       = sortRefs (appended (mkLabel n v) adds)).
  { intros n v. rewrite postingsList_EnsureOrder, Hlist by done.
    unfold postingsList at 1. simpl. by rewrite lookup_empty. }
  split.
  - intros n v (a0 & Ha0 & Hl0). exists (sortRefs (appended (mkLabel n v) adds)).
    destruct (appended_spec (mkLabel n v) adds Hnd Hwf) as [Hnd' Hin].
    destruct (sortRefs_strict _ Hnd') as [Hs Hel].
    split; [|split; [done|]].
    + rewrite <- Hpl. apply expandsTo_Get.
    + intros r. rewrite Hel, Hin. split.
      * intros (ls & Hls & [Hl|Hl]); [by exists ls|].
        exists ls. split; [done|].
        exfalso. rewrite Forall_forall in Hwf. destruct (Hwf _ Ha0) as [_ Hno].
        by rewrite Hl in Hl0.
      * intros (ls & Hls & Hl). exists ls. auto.
  - exists (sortRefs (appended allPostingsKey adds)).
    destruct (appended_spec allPostingsKey adds Hnd Hwf) as [Hnd' Hin].
    destruct (sortRefs_strict _ Hnd') as [Hs Hel].
    split; [|split; [done|]].
    + unfold All. change allPostingsKey with (mkLabel EmptyString EmptyString).
      simpl. rewrite <- Hpl. apply expandsTo_Get.
    + intros r. rewrite Hel, Hin. split.
      * intros (ls & Hls & _). apply list_elem_of_fmap. by exists (r, ls).
      * intros [[r' ls] [-> Hls]]%list_elem_of_fmap. exists ls. auto.
Qed.

Lemma Get_All_after_EnsureOrder_witness :
  orderedReadsExact [(7, [mkLabel "env" "prod"]); (3, [mkLabel "env" "prod"; mkLabel "job" "a"])].
Proof.
  apply Get_All_after_EnsureOrder; compute_done.
Defined.

(** C1, as stated, fails when a label set contains the reserved key: the
    reference is then appended twice to the list behind [All]. *)
Lemma reserved_label_breaks_reads :
  NoDup [(1, [allPostingsKey])].*1 ∧ ¬ orderedReadsExact [(1, [allPostingsKey])].
Proof.
  split; [compute_done|].
  intros [_ (res & Hexp & Hs & _)].
  assert (Hexp' : expandsTo
            (All (EnsureOrder (addAll [(1, [allPostingsKey])] NewUnorderedMemPostings)))
            [1; 1]).
  { intros fuel Hf. simpl in Hf.
    change (All (EnsureOrder (addAll [(1, [allPostingsKey])] NewUnorderedMemPostings)))
      with (Get EmptyString EmptyString
              (EnsureOrder (addAll [(1, [allPostingsKey])] NewUnorderedMemPostings))).
    apply (expandsTo_Get EmptyString EmptyString
              (EnsureOrder (addAll [(1, [allPostingsKey])] NewUnorderedMemPostings)) fuel).
    exact Hf. }
  rewrite (expandsTo_inj _ _ _ Hexp Hexp') in Hs.
  apply StronglySorted_cons in Hs as [Hlt _]. apply Forall_cons in Hlt as [Hlt _]. lia.
Qed.

Lemma Add_serving_keeps_sorted_witness :
  let p := Add 5 [mkLabel "env" "prod"] NewMemPostings in
  ordered (Add 3 [mkLabel "env" "prod"] p) = true ∧
  sortedStore (Add 3 [mkLabel "env" "prod"] p) ∧
  ∀ n v, postingsList n v (Add 3 [mkLabel "env" "prod"] p) =
         insertRef 3 (occurrences (mkLabel n v) ([mkLabel "env" "prod"] ++ [allPostingsKey]))
                   (postingsList n v p).
Proof.
  apply Add_serving_keeps_sorted; [reflexivity|].
  rewrite Add_foldl. apply addAll_serving; [reflexivity|].
  intros n v. unfold postingsList. simpl. rewrite lookup_empty. constructor.
Defined.

(** * Properties of the iterators *)

(** ** Binary search *)
Section Search.
Variable f : nat → bool.
Variable n : nat.
Hypothesis f_mono : ∀ i j, (i ≤ j < n)%nat → f i = true → f j = true.

Lemma search_loop_spec (fuel : nat) : ∀ i j,
  (i ≤ j ≤ n)%nat → (j - i ≤ fuel)%nat →
  (∀ k, (k < i)%nat → f k = false) →
  (∀ k, (j ≤ k < n)%nat → f k = true) →
  let r := search_loop fuel f i j in
  (r ≤ n)%nat ∧ (∀ k, (k < r)%nat → f k = false) ∧ (∀ k, (r ≤ k < n)%nat → f k = true).
Proof.
  induction fuel as [|fuel IH]; intros i j Hij Hfuel Hlo Hhi; cbn [search_loop].
  - assert (i = j) by lia. subst j. repeat split; auto; lia.
  - destruct (Nat.ltb_spec i j) as [Hlt|Hge].
    + assert (Hh : (i ≤ (i + j) / 2 < j)%nat).
      { split; [apply Nat.div_le_lower_bound; lia|apply Nat.Div0.div_lt_upper_bound; lia]. }
      destruct (f ((i + j) / 2)) eqn:Hf.
      * apply IH; [lia|lia|done|].
        intros k Hk. apply (f_mono ((i + j) / 2)); [lia|done].
      * apply IH; [lia|lia| |done].
        intros k Hk. destruct (f k) eqn:Hfk; [|done].
        rewrite (f_mono k ((i + j) / 2)) in Hf; [done|lia|done].
    + assert (i = j) by lia. subst j. repeat split; auto; lia.
Qed.

Lemma sort_Search_spec :
  let r := sort_Search n f in
  (r ≤ n)%nat ∧ (∀ k, (k < r)%nat → f k = false) ∧ (∀ k, (r ≤ k < n)%nat → f k = true).
Proof.
  unfold sort_Search. apply search_loop_spec; [lia|lia|intros; lia|intros; lia].
Qed.
End Search.

Lemma seekList_drop (x : SeriesRef) (l : list SeriesRef) (r : nat) :
  (∀ k y, (k < r)%nat → l !! k = Some y → y < x) →
  (∀ y, l !! r = Some y → x ≤ y) →
  seekList x l = drop r l.
Proof.
  revert r. induction l as [|y l IH]; intros r Hlo Hhi; [by destruct r|].
  destruct r as [|r]; simpl.
  - specialize (Hhi y eq_refl). by destruct (N.leb_spec x y); [|lia].
  - specialize (Hlo 0%nat y ltac:(lia) eq_refl) as Hy.
    destruct (N.leb_spec x y); [lia|].
    apply IH.
    + intros k z Hk Hz. apply (Hlo (S k) z); [lia|done].
    + intros z Hz. by apply Hhi.
Qed.

Lemma seekList_sorted x l : StronglySorted N.lt l → StronglySorted N.lt (seekList x l).
Proof.
  induction 1 as [|y l Hl IH Hy]; simpl; [constructor|].
  destruct (x <=? y); [by constructor|done].
Qed.

Lemma seekList_elem x l y : y ∈ seekList x l → y ∈ l.
Proof.
  induction l as [|z l IH]; simpl; [done|].
  destruct (x <=? z); [done|]. intros Hy. right. auto.
Qed.

Lemma seekList_head x l y l' : seekList x l = y :: l' → x ≤ y.
Proof.
  induction l as [|z l IH]; simpl; [done|].
  destruct (N.leb_spec x z); [|done]. by intros [= <- _].
Qed.

Lemma ListPostings_Seek_gt (l : list SeriesRef) (c x : SeriesRef) :
  StronglySorted N.lt l → c < x →
  ListPostings_Seek x (mkListPostings l c) =
    match seekList x l with
    | [] => (false, mkListPostings [] c)
    | y :: l' => (true, mkListPostings l' y)
    end.
Proof.
  intros Hs Hc. unfold ListPostings_Seek. simpl.
  destruct (N.leb_spec x c); [lia|].
  destruct (Nat.eqb_spec (length l) 0) as [Hz|Hnz].
  { by destruct l. }
  pose proof (sort_Search_spec (λ i, x <=? l !!! i) (length l)) as Hsp.
  destruct Hsp as (Hr & Hlo & Hhi).
  { intros i j Hij Hi. apply N.leb_le in Hi. apply N.leb_le.
    destruct (decide (i = j)) as [->|Hne]; [done|].
    destruct (lookup_lt_is_Some_2 l i ltac:(lia)) as [a Ha].
    destruct (lookup_lt_is_Some_2 l j ltac:(lia)) as [b Hb].
    rewrite (list_lookup_total_correct _ _ _ Ha) in Hi.
    rewrite (list_lookup_total_correct _ _ _ Hb).
    assert (a < b); [|lia].
    rewrite <- (take_drop_middle l j b Hb) in Hs, Ha.
    apply StronglySorted_app in Hs as (Hs & _ & _).
    apply (Hs a b); [|by left].
    rewrite lookup_app_l in Ha.
    - by eapply list_elem_of_lookup_2.
    - rewrite length_take. lia. }
  set (r := sort_Search (length l) (λ i, x <=? l !!! i)) in *.
  assert (Hdrop : seekList x l = drop r l).
  { apply seekList_drop.
    - intros k y Hk Hy. specialize (Hlo k Hk). cbv beta in Hlo.
      rewrite (list_lookup_total_correct _ _ _ Hy) in Hlo. by apply N.leb_gt in Hlo.
    - intros y Hy. specialize (Hhi r). cbv beta in Hhi.
      rewrite (list_lookup_total_correct _ _ _ Hy) in Hhi. apply N.leb_le, Hhi.
      split; [done|]. by eapply lookup_lt_Some. }
  rewrite Hdrop.
  destruct (Nat.ltb_spec r (length l)) as [Hlt|Hge].
  - destruct (lookup_lt_is_Some_2 l r Hlt) as [y Hy].
    rewrite (list_lookup_total_correct _ _ _ Hy).
    rewrite (drop_S _ _ _ Hy). by rewrite Nat.add_1_r.
  - by rewrite drop_ge.
Qed.

Lemma ListPostings_Seek_eq x it : Seek x it = ListPostings_Seek x it.
Proof. reflexivity. Qed.

Lemma ListPostings_Next_eq it : Next it = ListPostings_Next it.
Proof. reflexivity. Qed.

Lemma seekList_length x l : (length (seekList x l) ≤ length l)%nat.
Proof.
  induction l as [|z l IHl]; simpl; [done|]. destruct (x <=? z); simpl; lia.
Qed.

Lemma ListPostings_Positioned (l : list SeriesRef) : ∀ c,
  StronglySorted N.lt (c :: l) → Positioned (mkListPostings l c) c l.
Proof.
  induction l as [l IH] using (induction_ltof1 _ length). unfold ltof in IH.
  intros c Hs. apply StronglySorted_cons in Hs as [Hc Hs].
  constructor.
  - reflexivity.
  - reflexivity.
  - intros x Hx. rewrite ListPostings_Seek_eq. unfold ListPostings_Seek. simpl.
    by destruct (N.leb_spec x c); [|lia].
  - by intros ->.
  - by intros y l' ->.
  - intros y l' ->. rewrite ListPostings_Next_eq. unfold ListPostings_Next. simpl.
    apply IH; [simpl; lia|done].
  - intros x Hx Hnil. by rewrite ListPostings_Seek_eq, ListPostings_Seek_gt, Hnil.
  - intros x y l' Hx Hl. by rewrite ListPostings_Seek_eq, ListPostings_Seek_gt, Hl.
  - intros x y l' Hx Hl. rewrite ListPostings_Seek_eq, ListPostings_Seek_gt, Hl by done.
    simpl. apply IH.
    + pose proof (seekList_length x l) as Hlen. rewrite Hl in Hlen. simpl in Hlen. lia.
    + rewrite <- Hl. by apply seekList_sorted.
Qed.

Lemma ListPostings_Conforming (l : list SeriesRef) :
  StronglySorted N.lt l → Conforming (newListPostings l) l.
Proof.
  intros Hs. split; [done|]. split; [reflexivity|]. split; [done|].
  unfold After. destruct l as [|y l']; [split; reflexivity|].
  split; [reflexivity|]. rewrite ListPostings_Next_eq. unfold ListPostings_Next. simpl.
  by apply ListPostings_Positioned.
Qed.

(** ** Consequences of conformance *)
Section ConformanceFacts.
Context {T : Type} `{Postings T}.

Lemma Positioned_At p c l : Positioned p c l → At p = c.
Proof. by inversion 1. Qed.

Lemma Positioned_Err p c l : Positioned p c l → Err p = None.
Proof. by inversion 1. Qed.

Lemma Positioned_Seek_le p c l x : Positioned p c l → x ≤ c → Seek x p = (true, p).
Proof. inversion 1; auto. Qed.

Lemma Positioned_Next p c l : Positioned p c l → After (Next p) l.
Proof.
  inversion 1 as [? ? ? _ _ _ Hnil Hc1 Hc2 _ _ _]; subst.
  unfold After. destruct l as [|y l']; [auto|]. split; eauto.
Qed.

Lemma Positioned_Seek p c l x : Positioned p c l → After (Seek x p) (seekList x (c :: l)).
Proof.
  intros Hp. inversion Hp as [? ? ? _ _ Hle _ _ _ Hnil Hc1 Hc2]; subst.
  simpl. destruct (N.leb_spec x c) as [Hx|Hx].
  - rewrite Hle by done. split; [reflexivity|exact Hp].
  - unfold After. destruct (seekList x l) as [|y l'] eqn:Hl; [auto|]. split; eauto.
Qed.

Lemma After_Err r l : After r l → Err r.2 = None.
Proof.
  unfold After. destruct l; intros [_ Hr]; [done|]. by eapply Positioned_Err.
Qed.
End ConformanceFacts.

(** ** Expansion of a conforming input *)
Section ExpandInput.
Context {T : Type} `{Postings T}.

Lemma ExpandPostings_PErr (e : errPostings) fuel :
  (1 ≤ fuel)%nat → ExpandPostings (T := T) fuel (PErr e) = Some ([], ep_err e).
Proof. intros Hf. destruct fuel; [lia|done]. Qed.

Lemma ExpandPostings_After (l : list SeriesRef) : ∀ (p : T) fuel,
  (length l < fuel)%nat → After (Next p) l →
  ExpandPostings fuel (PIn p) = Some (l, None).
Proof.
  induction l as [|y l IH]; intros p fuel Hf Ha;
    (destruct fuel as [|f]; [simpl in Hf; lia|]); cbn [ExpandPostings PNext liftStep].
  - destruct Ha as [Hok Herr]. destruct (Next p) as [ok p']. simpl in *. subst ok.
    simpl. by rewrite Herr.
  - destruct Ha as [Hok Hpos]. destruct (Next p) as [ok p'] eqn:HN. simpl in *. subst ok.
    rewrite (IH p' f); [|lia|by eapply Positioned_Next].
    cbn. by rewrite (Positioned_At _ _ _ Hpos).
Qed.

Lemma expandsFrom_Fresh (p : T) (l : list SeriesRef) :
  Fresh p l → expandsFrom (S (length l)) (PIn p) l.
Proof. intros (_ & _ & Ha) fuel Hf. apply ExpandPostings_After; [lia|done]. Qed.
End ExpandInput.

Lemma seekList_elem_iff x l y :
  StronglySorted N.lt l → y ∈ seekList x l ↔ y ∈ l ∧ x ≤ y.
Proof.
  induction 1 as [|z l Hl IH Hz]; simpl.
  - split; [by intros ?%elem_of_nil|by intros [?%elem_of_nil _]].
  - rewrite Forall_forall in Hz. destruct (N.leb_spec x z) as [Hx|Hx].
    + split; [|by intros [? _]]. intros Hy. split; [done|].
      apply elem_of_cons in Hy as [->|Hy]; [done|]. specialize (Hz y Hy). lia.
    + rewrite IH, elem_of_cons. split; [intros [? ?]; auto|].
      intros [[->|?] ?]; [lia|done].
  Qed.

Lemma filter_ext_in {A} (P Q : A → Prop) `{!∀ x, Decision (P x)} `{!∀ x, Decision (Q x)}
    (l : list A) :
  (∀ x, x ∈ l → P x ↔ Q x) → filter P l = filter Q l.
Proof.
  induction l as [|x l IH]; intros HPQ; [done|].
  rewrite !filter_cons. rewrite IH by (intros y Hy; apply HPQ; by right).
  destruct (decide (P x)) as [HP|HP], (decide (Q x)) as [HQ|HQ]; try done.
  - exfalso. apply HQ, HPQ; [by left|done].
  - exfalso. apply HP, HPQ; [by left|done].
Qed.

(** ** [Without] *)
Section WithoutFacts.
Context {T : Type} `{Postings T}.

Lemma removedLoop_spec (fuel : nat) : ∀ (rp : removedPostings T) F R,
  (length F + length R < fuel)%nat →
  rp_initialized rp = true → RemovedInv rp F R →
  ∃ b rp', removedLoop fuel rp = Some (b, rp') ∧
    match filter (λ x, x ∉ R) F with
    | [] => b = false ∧ removedPostings_Err rp' = None
    | y :: rest =>
        b = true ∧ rp_cur rp' = y ∧ rp_initialized rp' = true ∧
        ∃ F' R', RemovedInv rp' F' R' ∧ filter (λ x, x ∉ R') F' = rest ∧
                 (length F' + length R' < length F + length R)%nat
    end.
Proof.
  induction fuel as [|fuel IH]; intros rp F R Hfuel Hinit (HsF & HsR & Hst); [lia|].
  rewrite Hinit in Hst. destruct Hst as [HF HR]. cbn [removedLoop].
  destruct F as [|fc F']; simpl in HF.
  { (* [full] is exhausted *)
    destruct HF as [Hfok HFe]. simpl in Hfok. rewrite Hfok. simpl. exists false, rp. split; [done|].
    split; [done|]. unfold removedPostings_Err. rewrite HFe.
    by apply After_Err in HR. }
  destruct HF as [Hfok HF]. simpl in Hfok. rewrite Hfok. simpl.
  pose proof (Positioned_Next _ _ _ HF) as HFn.
  pose proof (Positioned_At _ _ _ HF) as HFat.
  apply StronglySorted_cons in HsF as [HfcF HsF'].
  assert (Htake : ∀ R0, StronglySorted N.lt R0 → After (rp_rok rp, rp_remove rp) R0 →
            fc ∉ R0 → (length R0 ≤ length R)%nat →
            ∃ b rp', Some (takeFull rp) = Some (b, rp') ∧
              match filter (λ x, x ∉ R0) (fc :: F') with
              | [] => b = false ∧ removedPostings_Err rp' = None
              | y :: rest =>
                  b = true ∧ rp_cur rp' = y ∧ rp_initialized rp' = true ∧
                  ∃ F'' R'', RemovedInv rp' F'' R'' ∧ filter (λ x, x ∉ R'') F'' = rest ∧
                    (length F'' + length R'' < length (fc :: F') + length R)%nat
              end).
  { intros R0 HsR0 HR0 Hfc Hlen. unfold takeFull.
    destruct (Next (rp_full rp)) as [ok full'] eqn:HN.
    eexists _, _. split; [reflexivity|].
    rewrite filter_cons_True by done. simpl.
    split; [done|]. split; [done|]. split; [done|]. exists F', R0. split; [|split; [done|simpl; lia]].
    split; [done|]. split; [done|]. simpl. rewrite Hinit. by split. }
  destruct R as [|rc R']; simpl in HR.
  { (* [remove] is exhausted *)
    destruct HR as [Hrok HRe]. rewrite Hrok. simpl.
    apply (Htake []); [constructor|by split|apply not_elem_of_nil|done]. }
  destruct HR as [Hrok HR]. simpl in Hrok. rewrite Hrok. simpl.
  pose proof (Positioned_At _ _ _ HR) as HRat. rewrite HFat, HRat. clear HRat.
  pose proof HsR as HsR2. apply StronglySorted_cons in HsR2 as [HrcR HsR'].
  rewrite Forall_forall in HrcR.
  destruct (N.ltb_spec fc rc) as [Hlt|Hge].
  { apply (Htake (rc :: R')); [done|by split| |done].
    intros [->|Hin]%elem_of_cons; [lia|]. specialize (HrcR _ Hin). lia. }
  destruct (N.ltb_spec rc fc) as [Hlt|Hge'].
  - (* forward [remove] *)
    pose proof (Positioned_Seek _ _ _ fc HR) as HRs.
    simpl in HRs. destruct (N.leb_spec fc rc); [lia|].
    destruct (Seek fc (rp_remove rp)) as [ok remove'] eqn:HS.
    pose proof (seekList_length fc R') as Hlen.
    destruct (IH (mkRemovedPostings (rp_full rp) remove' (rp_cur rp) (rp_initialized rp)
                                    true ok) (fc :: F') (seekList fc R'))
      as (b & rp' & Hloop & Hres).
    + simpl in *. lia.
    + done.
    + split; [by constructor|]. split; [by apply seekList_sorted|].
      simpl. rewrite Hinit. split; [|done]. by split.
    + exists b, rp'. split; [done|].
      assert (Hfilter : filter (λ x, x ∉ rc :: R') (fc :: F')
                        = filter (λ x, x ∉ seekList fc R') (fc :: F')).
      { apply filter_ext_in. intros x Hx.
        rewrite seekList_elem_iff by done. rewrite elem_of_cons.
        assert (fc ≤ x).
        { apply elem_of_cons in Hx as [->|Hx]; [done|].
          rewrite Forall_forall in HfcF. specialize (HfcF _ Hx). lia. }
        split; [intros Hn [? _]; auto|]. intros Hn [->|?]; [lia|auto]. }
      rewrite Hfilter.
      destruct (filter _ (fc :: F')) as [|y rest]; [done|].
      destruct Hres as (? & ? & ? & F2 & R2 & ? & ? & ?).
      split; [done|]. split; [done|]. split; [done|].
      exists F2, R2. split; [done|]. split; [done|]. simpl in *. lia.
  - (* skip the current posting *)
    assert (rc = fc) by lia. subst rc.
    destruct (Next (rp_full rp)) as [ok full'] eqn:HN.
    destruct (IH (mkRemovedPostings full' (rp_remove rp) (rp_cur rp) (rp_initialized rp)
                                    ok true) F' (fc :: R'))
      as (b & rp' & Hloop & Hres).
    + simpl in *. lia.
    + done.
    + split; [done|]. split; [done|]. simpl. rewrite Hinit. split; [done|by split].
    + exists b, rp'. split; [done|].
      rewrite filter_cons_False by (intros Hn; apply Hn; by left).
      destruct (filter _ F') as [|y rest]; [done|].
      destruct Hres as (? & ? & ? & F2 & R2 & ? & ? & ?).
      split; [done|]. split; [done|]. split; [done|].
      exists F2, R2. split; [done|]. split; [done|]. simpl in *. lia.
Qed.

Lemma removedPostings_Next_spec (fuel : nat) (rp : removedPostings T) F R :
  (length F + length R < fuel)%nat → RemovedInv rp F R →
  ∃ b rp', removedPostings_Next fuel rp = Some (b, rp') ∧
    match filter (λ x, x ∉ R) F with
    | [] => b = false ∧ removedPostings_Err rp' = None
    | y :: rest =>
        b = true ∧ rp_cur rp' = y ∧
        ∃ F' R', RemovedInv rp' F' R' ∧ filter (λ x, x ∉ R') F' = rest ∧
                 (length F' + length R' < length F + length R)%nat
    end.
Proof.
  intros Hfuel Hinv. unfold removedPostings_Next.
  assert (Hgoal : ∀ rp0, rp_initialized rp0 = true → RemovedInv rp0 F R →
    ∃ b rp', removedLoop fuel rp0 = Some (b, rp') ∧
      match filter (λ x, x ∉ R) F with
      | [] => b = false ∧ removedPostings_Err rp' = None
      | y :: rest =>
          b = true ∧ rp_cur rp' = y ∧
          ∃ F' R', RemovedInv rp' F' R' ∧ filter (λ x, x ∉ R') F' = rest ∧
                   (length F' + length R' < length F + length R)%nat
      end).
  { intros rp0 Hi Hinv0.
    destruct (removedLoop_spec fuel rp0 F R Hfuel Hi Hinv0) as (b & rp' & Hl & Hres).
    exists b, rp'. split; [done|].
    destruct (filter _ F); [done|]. destruct Hres as (? & ? & _ & ?). auto. }
  destruct (rp_initialized rp) eqn:Hinit; simpl.
  - by apply Hgoal.
  - destruct Hinv as (HsF & HsR & Hst). rewrite Hinit in Hst. destruct Hst as [HF HR].
    destruct (Next (rp_full rp)) as [fok full']. destruct (Next (rp_remove rp)) as [rok remove'].
    apply Hgoal; [done|]. split; [done|]. split; [done|]. by split.
Qed.

Lemma ExpandPostings_removed (fuel : nat) : ∀ (rp : removedPostings T) F R,
  (length F + length R < fuel)%nat → RemovedInv rp F R →
  ExpandPostings fuel (PRemoved rp) = Some (filter (λ x, x ∉ R) F, None).
Proof.
  induction fuel as [|fuel IH]; intros rp F R Hfuel Hinv; [lia|].
  cbn [ExpandPostings PNext].
  destruct (removedPostings_Next_spec (S fuel) rp F R Hfuel Hinv) as (b & rp' & -> & Hres).
  cbn [liftStep]. destruct (filter _ F) as [|y rest].
  - destruct Hres as [-> Herr]. cbn. by rewrite Herr.
  - destruct Hres as (-> & Hcur & F' & R' & Hinv' & Hrest & Hlen).
    rewrite (IH rp' F' R'); [|lia|done]. cbn. by rewrite Hcur, Hrest.
Qed.

(** [Without] on two conforming inputs yields the values of the first
    that the second does not contain. *)
Lemma Without_expands (full drop : T) (lf ld : list SeriesRef) :
  Conforming full lf → Conforming drop ld →
  expandsFrom (length lf + length ld + 1) (Without full drop) (filter (λ x, x ∉ ld) lf).
Proof.
  intros [HsF (HFe & HFs & HF)] [HsR (HRe & HRs & HR)] fuel Hfuel. unfold Without.
  destruct (IsEmptyPostingsType full) eqn:Hfull.
  { rewrite (HFs eq_refl). simpl. rewrite ExpandPostings_PErr; [done|lia]. }
  destruct (IsEmptyPostingsType drop) eqn:Hdrop.
  { rewrite (HRs eq_refl). rewrite filter_all by (apply Forall_forall; intros; apply not_elem_of_nil).
    apply ExpandPostings_After; [lia|done]. }
  apply ExpandPostings_removed; [lia|].
  split; [done|]. split; [done|]. simpl. by split.
Qed.

Lemma Without_sentinel (full drop : T) :
  (IsEmptyPostingsType full = true → Without full drop = PErr EmptyPostings) ∧
  (IsEmptyPostingsType full = false → IsEmptyPostingsType drop = true →
   Without full drop = PIn full).
Proof. unfold Without. split; [by intros ->|by intros -> ->]. Qed.
End WithoutFacts.

(** C5: for conforming [full] and [drop] over the strictly increasing lists
    [lf] and [ld], expanding [Without full drop] yields exactly the values
    of [lf] that are not in [ld], in the order of [lf]; [Without] returns
    the empty sentinel when [full] is the sentinel and [full] itself when
    only [drop] is; over 1, 2, 3, 4, 5 and 2, 4 the output is 1, 3, 5. *)
Theorem Without_yields_difference {T : Type} `{Postings T}
    (full drop : T) (lf ld : list SeriesRef) :
  Conforming full lf → Conforming drop ld →
  expandsFrom (length lf + length ld + 1) (Without full drop) (filter (λ x, x ∉ ld) lf) ∧
  (IsEmptyPostingsType full = true → Without full drop = PErr EmptyPostings) ∧
  (IsEmptyPostingsType full = false → IsEmptyPostingsType drop = true →
   Without full drop = PIn full) ∧
  ExpandPostings 8 (Without (newListPostings [1; 2; 3; 4; 5]) (newListPostings [2; 4]))
    = Some ([1; 3; 5], None).
Proof.
  intros Hf Hd. split; [by apply Without_expands|].
  split; [apply Without_sentinel|]. split; [apply Without_sentinel|]. reflexivity.
Qed.

Lemma Without_yields_difference_witness :
  expandsFrom 8 (Without (newListPostings [1; 2; 3; 4; 5]) (newListPostings [2; 4]))
              [1; 3; 5].
Proof.
  apply (Without_yields_difference (newListPostings [1; 2; 3; 4; 5]) (newListPostings [2; 4])
           [1; 2; 3; 4; 5] [2; 4]);
    apply ListPostings_Conforming; repeat constructor; lia.
Defined.


(** ** [ShardedPostings] *)
Section ShardedFacts.
Context {T : Type} `{Postings T}.

Lemma ShardedPostings_Next_eq (sp : ShardedPostings T) : Next sp = ShardedPostings_Next sp.
Proof. reflexivity. Qed.

Lemma ShardedPostings_Seek_eq v (sp : ShardedPostings T) :
  Seek v sp = ShardedPostings_Seek v sp.
Proof. reflexivity. Qed.

Lemma ExpandPostings_sharded_running (l : list SeriesRef) : ∀ (p : T) c lo hi fuel,
  (length l < fuel)%nat → Positioned p c l →
  ExpandPostings fuel (PIn (mkShardedPostings p lo hi true)) = Some (takeBelow hi l, None).
Proof.
  induction l as [|z l IH]; intros p c lo hi fuel Hf Hp;
    (destruct fuel as [|f]; [simpl in Hf; lia|]);
    cbn [ExpandPostings PNext liftStep]; rewrite ShardedPostings_Next_eq;
    unfold ShardedPostings_Next; cbn [sp_initialized sp_p sp_minOffset sp_maxOffset negb];
    pose proof (Positioned_Next _ _ _ Hp) as Hn;
    destruct (Next p) as [ok p'] eqn:HN; simpl in Hn.
  - destruct Hn as [-> Herr]. cbn. by rewrite Herr.
  - destruct Hn as [-> Hp']. cbn [negb takeBelow].
    rewrite (Positioned_At _ _ _ Hp').
    destruct (N.leb_spec hi z) as [Hle|Hlt].
    + destruct (N.ltb_spec z hi); [lia|]. cbn. by rewrite (Positioned_Err _ _ _ Hp').
    + destruct (N.ltb_spec z hi); [|lia].
      rewrite (IH p' z lo hi f); [|simpl in Hf; lia|done].
      cbn. by rewrite (Positioned_At _ _ _ Hp').
Qed.

(** What repeated [Next] produces on a fresh sharded iterator. *)
Lemma ShardedPostings_expands (p : T) (l : list SeriesRef) (lo hi : N) :
  Conforming p l →
  expandsFrom (S (length l)) (PIn (NewShardedPostings p (lo, hi))) (shardedValues lo hi l).
Proof.
  intros [Hs (He & _ & Ha)] fuel Hf. destruct fuel as [|f]; [lia|].
  cbn [ExpandPostings PNext liftStep]. rewrite ShardedPostings_Next_eq.
  unfold ShardedPostings_Next, NewShardedPostings.
  cbn [sp_initialized sp_p sp_minOffset sp_maxOffset negb fst snd].
  destruct (Next p) as [ok p'] eqn:HN. unfold shardedValues.
  destruct l as [|x l1]; simpl in Ha.
  { destruct Ha as [-> Herr]. cbn. rewrite Herr. by destruct (hi =? 0). }
  destruct Ha as [-> Hp]. cbn [negb]. unfold ShardedPostings_Seek.
  cbn [sp_initialized sp_p sp_minOffset sp_maxOffset].
  destruct (N.leb_spec hi 0) as [Hz|Hnz].
  { assert (hi = 0) as -> by lia. cbn. by rewrite (Positioned_Err _ _ _ Hp). }
  destruct (N.eqb_spec hi 0) as [?|_]; [lia|].
  assert (Hv : (if 0 <? lo then lo else 0) = lo).
  { destruct (N.ltb_spec 0 lo); lia. }
  rewrite Hv. pose proof (Positioned_Seek _ _ _ lo Hp) as Hsk.
  destruct (Seek lo p') as [ok p''] eqn:HS.
  pose proof (seekList_length lo (x :: l1)) as Hlen.
  destruct (seekList lo (x :: l1)) as [|y l2]; simpl in Hsk.
  - destruct Hsk as [-> Herr]. cbn. by rewrite Herr.
  - destruct Hsk as [-> Hp2].
    rewrite (ExpandPostings_sharded_running l2 p'' y lo hi f); [|simpl in *; lia|done].
    cbn. by rewrite (Positioned_At _ _ _ Hp2).
Qed.

Lemma takeBelow_inRange lo hi l :
  StronglySorted N.lt l → Forall (λ v, lo ≤ v) l → takeBelow hi l = inRange lo hi l.
Proof.
  unfold inRange. induction 1 as [|z l Hl IH Hz]; intros Hlo; [done|].
  apply Forall_cons in Hlo as [Hloz Hlo]. simpl. rewrite filter_cons.
  destruct (N.ltb_spec z hi) as [Hlt|Hge].
  - rewrite decide_True by done. by rewrite IH.
  - rewrite decide_False by lia. rewrite filter_none; [done|].
    eapply Forall_impl; [exact Hz|]. simpl. intros; lia.
Qed.

Lemma seekList_inRange lo hi l :
  StronglySorted N.lt l → inRange lo hi (seekList lo l) = inRange lo hi l.
Proof.
  unfold inRange. induction 1 as [|z l Hl IH Hz]; [done|]. simpl.
  destruct (N.leb_spec lo z) as [Hle|Hlt]; [done|].
  rewrite filter_cons_False by lia. done.
Qed.

(** When the first value reached is below the upper bound, the values
    produced are exactly those of the range. *)
Lemma shardedValues_inRange lo hi l :
  StronglySorted N.lt l →
  (∀ y rest, seekList lo l = y :: rest → y < hi) →
  shardedValues lo hi l = inRange lo hi l.
Proof.
  intros Hs Hfirst. unfold shardedValues.
  rewrite <- (seekList_inRange lo hi l Hs).
  pose proof (seekList_sorted lo l Hs) as Hs'.
  destruct (seekList lo l) as [|y rest] eqn:Hsl.
  { by destruct (hi =? 0). }
  specialize (Hfirst y rest eq_refl).
  destruct (N.eqb_spec hi 0); [lia|].
  pose proof (seekList_head _ _ _ _ Hsl) as Hy.
  apply StronglySorted_cons in Hs' as [Hy' Hs'].
  unfold inRange. rewrite filter_cons_True by done. f_equal.
  apply takeBelow_inRange; [done|].
  eapply Forall_impl; [exact Hy'|]. simpl. intros; lia.
Qed.
End ShardedFacts.

(** C2: on the inner values 5, 25 and the bounds [10, 20) the first [Next]
    lands on 25 through [Seek] and returns it although it is not below the
    upper bound, whereas no value of the inner iterator lies in the range;
    on the inner values 5, 9, 10, 15, 19, 20, 25 the output is 10, 15, 19. *)
Theorem ShardedPostings_first_Next_overshoots :
  Conforming (newListPostings [5; 25]) [5; 25] ∧
  ExpandPostings 3 (PIn (NewShardedPostings (newListPostings [5; 25]) (10, 20)))
    = Some ([25], None) ∧
  inRange 10 20 [5; 25] = [] ∧
  ExpandPostings 8 (PIn (NewShardedPostings (newListPostings [5; 9; 10; 15; 19; 20; 25])
                                            (10, 20)))
    = Some ([10; 15; 19], None).
Proof.
  split; [apply ListPostings_Conforming; repeat constructor; lia|].
  split; [reflexivity|]. split; reflexivity.
Qed.

Section ShardedMore.
Context {T : Type} `{Postings T}.

Lemma ShardedPostings_Seek_out (v : SeriesRef) (sp : ShardedPostings T) :
  sp_maxOffset sp ≤ v → Seek v sp = (false, sp).
Proof.
  intros Hv. rewrite ShardedPostings_Seek_eq. unfold ShardedPostings_Seek.
  by destruct (N.leb_spec (sp_maxOffset sp) v); [|lia].
Qed.

Lemma ShardedPostings_Seek_in (v : SeriesRef) (sp : ShardedPostings T) :
  v < sp_maxOffset sp →
  Seek v sp =
    ((Seek (N.max v (sp_minOffset sp)) (sp_p sp)).1,
     mkShardedPostings (Seek (N.max v (sp_minOffset sp)) (sp_p sp)).2
                       (sp_minOffset sp) (sp_maxOffset sp) (sp_initialized sp)).
Proof.
  intros Hv. rewrite ShardedPostings_Seek_eq. unfold ShardedPostings_Seek.
  destruct (N.leb_spec (sp_maxOffset sp) v); [lia|].
  replace (if v <? sp_minOffset sp then sp_minOffset sp else v)
    with (N.max v (sp_minOffset sp)) by (destruct (N.ltb_spec v (sp_minOffset sp)); lia).
  by destruct (Seek (N.max v (sp_minOffset sp)) (sp_p sp)).
Qed.

Lemma ShardedPostings_Seek_running (sp : ShardedPostings T) c l v :
  Positioned (sp_p sp) c l → v < sp_maxOffset sp →
  match seekList (N.max v (sp_minOffset sp)) (c :: l) with
  | [] => (Seek v sp).1 = false ∧ Err (Seek v sp).2 = None
  | y :: l' =>
      (Seek v sp).1 = true ∧ At (Seek v sp).2 = y ∧ Positioned (sp_p (Seek v sp).2) y l'
  end.
Proof.
  intros Hpos Hv. rewrite (ShardedPostings_Seek_in v sp Hv).
  pose proof (Positioned_Seek _ _ _ (N.max v (sp_minOffset sp)) Hpos) as Ha.
  destruct (seekList (N.max v (sp_minOffset sp)) (c :: l)) as [|y l'];
    simpl in Ha |- *; [done|].
  destruct Ha as [Hok Hp]. split; [done|]. split; [|done].
  by apply Positioned_At in Hp.
Qed.
End ShardedMore.

Lemma seekList_split (x : SeriesRef) (l : list SeriesRef) : ∀ y l',
  seekList x l = y :: l' → ∃ pre, l = pre ++ y :: l' ∧ Forall (λ z, z < x) pre.
Proof.
  induction l as [|z l IH]; intros y l' Hl; [done|]. simpl in Hl.
  destruct (N.leb_spec x z) as [Hle|Hlt].
  - injection Hl as -> ->. by exists [].
  - destruct (IH y l' Hl) as (pre & -> & Hpre).
    exists (z :: pre). split; [done|]. by constructor.
Qed.

Lemma seekList_none (x : SeriesRef) (l : list SeriesRef) :
  seekList x l = [] → Forall (λ z, z < x) l.
Proof.
  induction l as [|z l IH]; simpl; [done|].
  destruct (N.leb_spec x z) as [Hle|Hlt]; [done|]. intros Hl. constructor; auto.
Qed.

(** C10: [Seek] on a sharded iterator compares the upper bound with the
    target only, never with the value reached.  The inner iterator stands
    on [c] with the values [l] to come.  A target at or above [maxOffset] is
    refused and nothing moves.  For a target [v] below [maxOffset], the
    result of [Seek] is the result of the inner [Seek] to the larger of [v]
    and [minOffset], and the bounds are kept.  So [Seek] fails when no
    value of the inner iterator is at least this target, and otherwise
    succeeds with [At] on the first such value [y] of the inner iterator,
    whether [y] is below [maxOffset] or not: when [y] is at or above
    [maxOffset], [Seek] returns true and [At] reads a value of the inner
    iterator that is not below the upper bound. *)
Theorem ShardedPostings_Seek_lands_unchecked {T : Type} `{Postings T}
    (sp : ShardedPostings T) (c : SeriesRef) (l : list SeriesRef) (v : SeriesRef) :
  Positioned (sp_p sp) c l →
  (sp_maxOffset sp ≤ v → Seek v sp = (false, sp)) ∧
  (v < sp_maxOffset sp →
   Seek v sp =
     ((Seek (N.max v (sp_minOffset sp)) (sp_p sp)).1,
      mkShardedPostings (Seek (N.max v (sp_minOffset sp)) (sp_p sp)).2
                        (sp_minOffset sp) (sp_maxOffset sp) (sp_initialized sp))) ∧
  (v < sp_maxOffset sp → seekList (N.max v (sp_minOffset sp)) (c :: l) = [] →
   (Seek v sp).1 = false ∧ Err (Seek v sp).2 = None ∧
   Forall (λ z, z < N.max v (sp_minOffset sp)) (c :: l)) ∧
  (v < sp_maxOffset sp →
   ∀ y l', seekList (N.max v (sp_minOffset sp)) (c :: l) = y :: l' →
     (Seek v sp).1 = true ∧ At (Seek v sp).2 = y ∧
     Positioned (sp_p (Seek v sp).2) y l' ∧
     v ≤ y ∧ sp_minOffset sp ≤ y ∧
     (∃ pre, c :: l = pre ++ y :: l' ∧ Forall (λ z, z < N.max v (sp_minOffset sp)) pre) ∧
     (sp_maxOffset sp ≤ y →
      sp_maxOffset sp ≤ At (Seek v sp).2 ∧ At (Seek v sp).2 ∈ c :: l)).
Proof.
  intros Hpos. split; [apply ShardedPostings_Seek_out|].
  split; [apply ShardedPostings_Seek_in|]. split.
  - intros Hv Hnil. pose proof (ShardedPostings_Seek_running sp c l v Hpos Hv) as Hr.
    rewrite Hnil in Hr. destruct Hr as [Hok Herr].
    split; [done|]. split; [done|]. by apply seekList_none.
  - intros Hv y l' Hl. pose proof (ShardedPostings_Seek_running sp c l v Hpos Hv) as Hr.
    rewrite Hl in Hr. destruct Hr as (Hok & Hat & Hp).
    pose proof (seekList_head _ _ _ _ Hl) as Hy.
    destruct (seekList_split _ _ _ _ Hl) as (pre & Hcl & Hpre).
    split; [done|]. split; [done|]. split; [done|].
    split; [lia|]. split; [lia|]. split; [by exists pre|].
    intros Hhi. rewrite Hat. split; [done|].
    rewrite Hcl. apply elem_of_app. right. by left.
Qed.

(** A new list iterator stands on 0 before its first value. *)
Lemma ShardedPostings_Seek_lands_unchecked_witness :
  let sp := NewShardedPostings (newListPostings [5; 25]) (10, 20) in
  Conforming (newListPostings [5; 25]) [5; 25] ∧
  (Seek 12 sp).1 = true ∧ At (Seek 12 sp).2 = 25 ∧
  20 ≤ At (Seek 12 sp).2 ∧ At (Seek 12 sp).2 ∈ [0; 5; 25] ∧
  Seek 20 sp = (false, sp).
Proof.
  intros sp.
  assert (Hpos : Positioned (sp_p sp) 0 [5; 25]).
  { apply ListPostings_Positioned. repeat constructor; lia. }
  destruct (ShardedPostings_Seek_lands_unchecked sp 0 [5; 25] 12 Hpos)
    as (_ & _ & _ & Hland).
  destruct (Hland ltac:(unfold sp; simpl; lia) 25 [] eq_refl)
    as (Hok & Hat & _ & _ & _ & _ & Hover).
  destruct (Hover ltac:(unfold sp; simpl; lia)) as [Hhi Hin].
  destruct (ShardedPostings_Seek_lands_unchecked sp 0 [5; 25] 20 Hpos) as (Hout & _).
  split; [apply ListPostings_Conforming; repeat constructor; lia|].
  split; [exact Hok|]. split; [exact Hat|].
  split; [exact Hhi|]. split; [exact Hin|].
  apply Hout. unfold sp. simpl. lia.
Defined.

(** ** Increasing lists *)
Lemma StronglySorted_lt_NoDup (l : list SeriesRef) : StronglySorted N.lt l → NoDup l.
Proof.
  induction 1 as [|x l Hl IH Hx]; constructor; [|done].
  rewrite Forall_forall in Hx. intros Hin. specialize (Hx x Hin). lia.
Qed.

Lemma StronglySorted_lt_ext (l1 l2 : list SeriesRef) :
  StronglySorted N.lt l1 → StronglySorted N.lt l2 → (∀ x, x ∈ l1 ↔ x ∈ l2) → l1 = l2.
Proof.
  intros H1 H2 Hel. apply (StronglySorted_unique_strong N.lt); [|done|done|].
  - intros x y _ _ Hxy Hyx. lia.
  - apply NoDup_Permutation; [by apply StronglySorted_lt_NoDup..|done].
Qed.

Lemma StronglySorted_lt_head_le (h x : SeriesRef) (t : list SeriesRef) :
  StronglySorted N.lt (h :: t) → x ∈ h :: t → h ≤ x.
Proof.
  intros [Hh _]%StronglySorted_cons [->|Hx]%elem_of_cons; [done|].
  rewrite Forall_forall in Hh. specialize (Hh x Hx). lia.
Qed.

Lemma seekList_seekList (c c' : SeriesRef) (l : list SeriesRef) :
  c ≤ c' → seekList c' (seekList c l) = seekList c' l.
Proof.
  intros Hc. induction l as [|y l IH]; simpl; [done|].
  destruct (N.leb_spec c y) as [Hy|Hy]; [done|].
  rewrite IH. destruct (N.leb_spec c' y); [lia|done].
Qed.

Lemma seekList_le_head (c h : SeriesRef) (t : list SeriesRef) :
  c ≤ h → seekList c (h :: t) = h :: t.
Proof. intros Hc. simpl. by destruct (N.leb_spec c h); [|lia]. Qed.

Lemma commonValues_elem (ls : list (list SeriesRef)) (x : SeriesRef) :
  x ∈ commonValues ls ↔ ls ≠ [] ∧ Forall (λ l, x ∈ l) ls.
Proof.
  destruct ls as [|l rest]; simpl.
  - split; [by intros ?%elem_of_nil|by intros [? _]].
  - rewrite list_elem_of_filter, Forall_cons.
    split; [intros [? ?]; repeat split; done|intros (_ & ? & ?); by split].
Qed.

Lemma commonValues_sorted (ls : list (list SeriesRef)) :
  Forall (StronglySorted N.lt) ls → StronglySorted N.lt (commonValues ls).
Proof.
  destruct 1 as [|l rest Hl _]; simpl; [constructor|]. by apply StronglySorted_filter.
Qed.

Lemma commonFrom_elem (c : SeriesRef) (ls : list (list SeriesRef)) (x : SeriesRef) :
  Forall (StronglySorted N.lt) ls →
  x ∈ commonFrom c ls ↔ ls ≠ [] ∧ Forall (λ l, x ∈ l) ls ∧ c ≤ x.
Proof.
  intros Hs. unfold commonFrom. rewrite commonValues_elem, Forall_fmap.
  split.
  - intros [Hne Hall]. split; [by destruct ls|].
    destruct ls as [|l rest]; [done|].
    split.
    + eapply Forall_impl; [exact Hall|]. simpl. intros l'. apply seekList_elem.
    + apply Forall_cons in Hall as [Hx _]. apply Forall_cons in Hs as [Hl _].
      simpl in Hx. by apply seekList_elem_iff in Hx as [_ ?].
  - intros (Hne & Hall & Hc). split; [by destruct ls|].
    rewrite Forall_forall in Hall, Hs |- *. intros l Hl. simpl.
    apply seekList_elem_iff; auto.
Qed.

Lemma commonFrom_sorted (c : SeriesRef) (ls : list (list SeriesRef)) :
  Forall (StronglySorted N.lt) ls → StronglySorted N.lt (commonFrom c ls).
Proof.
  intros Hs. apply commonValues_sorted. rewrite Forall_fmap.
  eapply Forall_impl; [exact Hs|]. simpl. intros l. apply seekList_sorted.
Qed.

Lemma commonFrom_restart (c c' : SeriesRef) (ls : list (list SeriesRef)) L t :
  Forall (StronglySorted N.lt) ls → L ∈ ls → seekList c L = c' :: t → c ≤ c' →
  commonFrom c ls = commonFrom c' ls.
Proof.
  intros Hs HL Hsk Hc.
  apply StronglySorted_lt_ext; [by apply commonFrom_sorted..|].
  intros x. rewrite !commonFrom_elem by done.
  split; intros (Hne & Hall & Hx); (split; [done|split; [done|]]); [|lia].
  rewrite Forall_forall in Hall, Hs.
  assert (Hin : x ∈ seekList c L) by (apply seekList_elem_iff; auto).
  rewrite Hsk in Hin.
  eapply StronglySorted_lt_head_le; [|exact Hin].
  rewrite <- Hsk. apply seekList_sorted; auto.
Qed.

Lemma commonFrom_empty (c : SeriesRef) (ls : list (list SeriesRef)) L :
  L ∈ ls → seekList c L = [] → commonFrom c ls = [].
Proof.
  intros HL Hsk. destruct (commonFrom c ls) as [|x rest] eqn:Hcf; [done|].
  assert (Hx : x ∈ commonFrom c ls) by (rewrite Hcf; by left).
  unfold commonFrom in Hx. apply commonValues_elem in Hx as [_ Hall].
  rewrite Forall_fmap, Forall_forall in Hall. specialize (Hall L HL). simpl in Hall.
  rewrite Hsk in Hall. by apply elem_of_nil in Hall.
Qed.

Lemma commonFrom_found (c : SeriesRef) (ls : list (list SeriesRef)) :
  Forall (StronglySorted N.lt) ls → ls ≠ [] →
  Forall (λ L, ∃ t, seekList c L = c :: t) ls →
  ∃ rest, commonFrom c ls = c :: rest.
Proof.
  intros Hs Hne Hall.
  assert (Hc : c ∈ commonFrom c ls).
  { apply commonFrom_elem; [done|]. split; [done|]. split; [|done].
    eapply Forall_impl; [exact Hall|]. simpl. intros L [t Ht].
    apply (seekList_elem c). rewrite Ht. by left. }
  pose proof (commonFrom_sorted c ls Hs) as Hsorted.
  destruct (commonFrom c ls) as [|y rest] eqn:Hcf; [by apply elem_of_nil in Hc|].
  assert (Hy : y ∈ commonFrom c ls) by (rewrite Hcf; by left).
  apply commonFrom_elem in Hy as (_ & _ & Hy); [|done].
  pose proof (StronglySorted_lt_head_le _ _ _ Hsorted Hc).
  assert (y = c) as -> by lia. by exists rest.
Qed.

Lemma ahead_restart (c c' : SeriesRef) (ls : list (list SeriesRef)) L :
  L ∈ ls → c' ∈ L → c < c' → (ahead c' ls < ahead c ls)%nat.
Proof.
  intros HL Hc' Hlt. unfold ahead.
  assert (Hle : ∀ l : list SeriesRef,
            (length (filter (λ x, (c' < x)%N) l) ≤ length (filter (λ x, (c < x)%N) l))%nat).
  { induction l as [|x l IH]; [done|]. rewrite !filter_cons.
    destruct (decide (c' < x)%N), (decide (c < x)%N); simpl; lia. }
  induction ls as [|l ls IH]; [by apply elem_of_nil in HL|].
  cbn [sum_list_with]. apply elem_of_cons in HL as [<-|HL].
  - assert (length (filter (λ x, (c' < x)%N) L) < length (filter (λ x, (c < x)%N) L))%nat.
    { clear -Hc' Hlt Hle. induction L as [|x l IH]; [by apply elem_of_nil in Hc'|].
      rewrite !filter_cons. apply elem_of_cons in Hc' as [<-|Hc'].
      - rewrite decide_False by lia. rewrite decide_True by lia. simpl.
        specialize (Hle l). lia.
      - specialize (IH Hc'). destruct (decide (c' < x)%N), (decide (c < x)%N); simpl; lia. }
    assert (sum_list_with (λ L, length (filter (λ x, (c' < x)%N) L)) ls
            ≤ sum_list_with (λ L, length (filter (λ x, (c < x)%N) L)) ls)%nat.
    { clear -Hle. induction ls as [|l ls IH]; [done|].
      cbn [sum_list_with]. specialize (Hle l). lia. }
    lia.
  - specialize (IH HL). specialize (Hle l). lia.
Qed.

(** ** [Intersect] *)
Section IntersectFacts.
Context {T : Type} `{Postings T}.

Lemma StandsOn_Err (p : T) L : StandsOn p L → Err p = None.
Proof. intros (h & t & _ & Hp). by eapply Positioned_Err. Qed.

Lemma Reach_mono (c c' : SeriesRef) (p : T) L : c ≤ c' → Reach c p L → Reach c' p L.
Proof. intros Hc (c0 & Hc0 & Hp). exists c0. split; [lia|done]. Qed.

Lemma firstErr_None (arr : list T) : Forall (λ p, Err p = None) arr → firstErr arr = None.
Proof. induction 1 as [|p arr Hp _ IH]; simpl; [done|]. by rewrite Hp. Qed.

Lemma Reach_Err c (p : T) L : Reach c p L → Err p = None.
Proof. intros (c0 & _ & Hp). by eapply StandsOn_Err. Qed.

(** One pass of [doNext] over the inputs. *)
Lemma seekAll_spec (cur : SeriesRef) (arr : list T) (Ls : list (list SeriesRef)) :
  Forall2 (Reach cur) arr Ls →
  match seekAll cur arr with
  | SweepFail arr' =>
      (∃ L, L ∈ Ls ∧ seekList cur L = []) ∧ Forall (λ p, Err p = None) arr'
  | SweepRestart arr' c' =>
      cur < c' ∧ (∃ L t, L ∈ Ls ∧ seekList cur L = c' :: t) ∧ Forall2 (Reach c') arr' Ls
  | SweepDone arr' =>
      Forall2 (λ p L, ∃ t, seekList cur L = cur :: t ∧ Positioned p cur t) arr' Ls
  end.
Proof.
  induction 1 as [|p L arr Ls Hp Hrest IH]; simpl; [constructor|].
  destruct Hp as (c0 & Hc0 & h & t & HL & Hp).
  pose proof (Positioned_Seek _ _ _ cur Hp) as Hsk.
  rewrite <- HL, seekList_seekList in Hsk by done.
  destruct (Seek cur p) as [ok p'] eqn:HS.
  destruct (seekList cur L) as [|y t'] eqn:HsL; simpl in Hsk.
  - destruct Hsk as [-> Herr]. simpl. split.
    + exists L. split; [by left|done].
    + constructor; [done|]. eapply Forall2_Forall_l; [exact Hrest|].
      apply Forall_forall. intros q _ L' HR. by eapply Reach_Err.
  - destruct Hsk as [-> Hp']. simpl. rewrite (Positioned_At _ _ _ Hp').
    pose proof (seekList_head _ _ _ _ HsL) as Hy.
    destruct (N.ltb_spec cur y) as [Hlt|Hge].
    + split; [done|]. split.
      * exists L, t'. split; [by left|done].
      * constructor.
        -- exists cur. split; [lia|]. exists y, t'. by rewrite HsL.
        -- eapply Forall2_impl; [exact Hrest|]. intros q L'. apply Reach_mono. lia.
    + assert (y = cur) as -> by lia.
      destruct (seekAll cur arr) as [arr'|arr' c'|arr']; simpl.
      * destruct IH as [(L' & HL' & Hnil) Herr]. split.
        -- exists L'. split; [by right|done].
        -- constructor; [by eapply Positioned_Err|done].
      * destruct IH as (Hlt & (L' & t'' & HL' & Hsk') & Hreach). split; [done|]. split.
        -- exists L', t''. split; [by right|done].
        -- constructor; [|done]. exists cur. split; [lia|]. exists cur, t'. by rewrite HsL.
      * constructor; [|done]. by exists t'.
Qed.

(** [doNext] finds the least common value from the candidate on. *)
Lemma doNext_spec (fuel : nat) : ∀ (arr : list T) (cur : SeriesRef) Ls,
  (ahead cur Ls < fuel)%nat →
  Forall (StronglySorted N.lt) Ls → Ls ≠ [] →
  Forall2 (Reach cur) arr Ls →
  ∃ b it', doNext fuel (mkIntersectPostings arr cur) = Some (b, it') ∧
    match commonFrom cur Ls with
    | [] => b = false ∧ intersectPostings_Err it' = None
    | y :: _ =>
        b = true ∧ ip_cur it' = y ∧
        Forall2 (λ p L, ∃ t, seekList y L = y :: t ∧ Positioned p y t) (ip_arr it') Ls
    end.
Proof.
  induction fuel as [|fuel IH]; intros arr cur Ls Hfuel Hs Hne Hreach; [lia|].
  cbn [doNext ip_cur ip_arr].
  pose proof (seekAll_spec cur arr Ls Hreach) as Hsw.
  destruct (seekAll cur arr) as [arr'|arr' c'|arr'].
  - destruct Hsw as [(L & HL & Hnil) Herr].
    exists false, (mkIntersectPostings arr' cur). split; [done|].
    rewrite (commonFrom_empty cur Ls L HL Hnil). split; [done|].
    by apply firstErr_None.
  - destruct Hsw as (Hlt & (L & t & HL & Hsk) & Hreach').
    rewrite (commonFrom_restart cur c' Ls L t Hs HL Hsk) by lia.
    apply IH; [|done|done|done].
    assert (c' ∈ L) by (apply (seekList_elem cur); rewrite Hsk; by left).
    pose proof (ahead_restart cur c' Ls L HL H0 Hlt). lia.
  - exists true, (mkIntersectPostings arr' cur). split; [done|].
    destruct (commonFrom_found cur Ls Hs Hne) as [rest ->].
    { eapply Forall2_Forall_r; [exact Hsw|]. apply Forall_forall.
      intros L _ p [t [Ht _]]. by exists t. }
    done.
Qed.

Lemma Pending_Err (p : T) L : Pending p L → Err p = None.
Proof. by intros [? _]. Qed.

(** The first loop of [Next]. *)
Lemma nextAll_spec (arr : list T) (Ls : list (list SeriesRef)) : ∀ cur,
  Forall2 Pending arr Ls →
  match nextAll cur arr with
  | (false, arr', _) => [] ∈ Ls ∧ Forall (λ p, Err p = None) arr'
  | (true, arr', cur') =>
      Forall2 StandsOn arr' Ls ∧ cur ≤ cur' ∧
      Forall (λ L, ∀ h t, L = h :: t → h ≤ cur') Ls ∧
      (cur' = cur ∨ ∃ L t, L ∈ Ls ∧ L = cur' :: t)
  end.
Proof.
  intros cur Hall. revert cur.
  induction Hall as [|p L arr Ls [Hperr Hp] Hrest IH]; intros cur; simpl.
  { split; [constructor|]. split; [lia|]. split; [constructor|by left]. }
  destruct (Next p) as [ok p'] eqn:HN.
  destruct L as [|h t]; simpl in Hp.
  - destruct Hp as [-> Herr]. simpl. split; [by left|].
    constructor; [done|]. eapply Forall2_Forall_l; [exact Hrest|].
    apply Forall_forall. intros q _ L' HP. by eapply Pending_Err.
  - destruct Hp as [-> Hpos]. simpl. rewrite (Positioned_At _ _ _ Hpos).
    set (cur1 := if cur <? h then h else cur).
    assert (Hcur1 : cur ≤ cur1 ∧ h ≤ cur1 ∧ (cur1 = cur ∨ cur1 = h)).
    { unfold cur1. destruct (N.ltb_spec cur h); lia. }
    specialize (IH cur1).
    destruct (nextAll cur1 arr) as [[ok' rest'] cur'].
    destruct ok'.
    + destruct IH as (Hst & Hle & Hheads & Hwhich).
      split; [constructor; [by exists h, t|done]|].
      split; [lia|]. split.
      * constructor; [|done]. intros h' t' [= <- <-]. lia.
      * destruct Hwhich as [->|(L' & t' & HL' & ->)].
        -- destruct Hcur1 as (_ & _ & [->| ->]); [by left|].
           right. exists (h :: t), t. split; [by left|done].
        -- right. exists (cur' :: t'), t'. split; [by right|done].
    + destruct IH as [Hnil Herr]. split; [by right|].
      constructor; [by eapply Positioned_Err|done].
Qed.

Lemma seekList_0 (l : list SeriesRef) : seekList 0 l = l.
Proof. destruct l as [|y l]; [done|]. by apply seekList_le_head, N.le_0_l. Qed.

Lemma ahead_le_totalLength c (Ls : list (list SeriesRef)) :
  (ahead c Ls ≤ totalLength Ls)%nat.
Proof.
  unfold ahead, totalLength. induction Ls as [|L Ls IH]; [done|].
  cbn [sum_list_with]. pose proof (length_filter (λ x, c < x) L). lia.
Qed.
Lemma tail_seekList_elem (y x : SeriesRef) (L t : list SeriesRef) :
  StronglySorted N.lt L → seekList y L = y :: t → x ∈ t ↔ x ∈ L ∧ y < x.
Proof.
  intros Hs Hsk. pose proof (seekList_sorted y L Hs) as Hs'. rewrite Hsk in Hs'.
  apply StronglySorted_cons in Hs' as [Hyt _]. rewrite Forall_forall in Hyt.
  split.
  - intros Hx. split; [|by apply Hyt].
    apply (seekList_elem y). rewrite Hsk. by right.
  - intros [Hx Hlt].
    assert (Hin : x ∈ seekList y L) by (apply seekList_elem_iff; [done|split; [done|lia]]).
    rewrite Hsk in Hin. apply elem_of_cons in Hin as [->|?]; [lia|done].
Qed.

Lemma intersectPostings_Next_spec (fuel : nat) (it : intersectPostings T) Ls :
  (totalLength Ls < fuel)%nat → IntersectInv it Ls →
  ∃ b it', intersectPostings_Next fuel it = Some (b, it') ∧
    match commonValues Ls with
    | [] => b = false ∧ intersectPostings_Err it' = None
    | y :: rest =>
        b = true ∧ ip_cur it' = y ∧
        ∃ Ls', IntersectInv it' Ls' ∧ commonValues Ls' = rest ∧
               (totalLength Ls' < totalLength Ls)%nat
    end.
Proof.
  intros Hfuel (Hpend & Hs & Hne & Hlow). unfold intersectPostings_Next.
  pose proof (nextAll_spec (ip_arr it) Ls (ip_cur it) Hpend) as Hnext.
  destruct (nextAll (ip_cur it) (ip_arr it)) as [[ok arr'] cur'].
  destruct ok; simpl.
  2:{ destruct Hnext as [Hnil Herr].
      exists false, (mkIntersectPostings arr' cur'). split; [done|].
      destruct (commonValues Ls) as [|y rest] eqn:Hcv.
      - split; [done|]. by apply firstErr_None.
      - exfalso. assert (Hy : y ∈ commonValues Ls) by (rewrite Hcv; by left).
        apply commonValues_elem in Hy as [_ Hall]. rewrite Forall_forall in Hall.
        specialize (Hall [] Hnil). by apply elem_of_nil in Hall. }
  destruct Hnext as (Hst & Hle & Hheads & Hwhich).
  assert (Hcf : commonFrom cur' Ls = commonValues Ls).
  { apply StronglySorted_lt_ext;
      [by apply commonFrom_sorted|by apply commonValues_sorted|].
    intros x. rewrite commonFrom_elem, commonValues_elem by done.
    split; [by intros (? & ? & _)|]. intros [_ Hall]. split; [done|]. split; [done|].
    rewrite Forall_forall in Hall, Hlow, Hs.
    destruct Hwhich as [->|(L & t & HL & ->)].
    - destruct Ls as [|L Ls']; [done|].
      specialize (Hlow L ltac:(by left)). rewrite Forall_forall in Hlow.
      apply Hlow, Hall. by left.
    - eapply StronglySorted_lt_head_le; [by apply Hs|by apply Hall]. }
  destruct (doNext_spec fuel arr' cur' Ls) as (b & it' & Hdo & Hres); [|done|done| |].
  { pose proof (ahead_le_totalLength cur' Ls). lia. }
  { eapply Forall2_impl; [exact Hst|]. intros p L HpL. exists 0.
    split; [lia|]. by rewrite seekList_0. }
  exists b, it'. split; [done|]. rewrite Hcf in Hres.
  pose proof (commonValues_sorted Ls Hs) as Hcs.
  destruct (commonValues Ls) as [|y rest] eqn:Hcv; [done|].
  destruct Hres as (-> & Hcur & Hpos). split; [done|]. split; [done|].
  exists ((λ L, tail (seekList y L)) <$> Ls).
  apply StronglySorted_cons in Hcs as [Hyrest Hsrest].
  rewrite Forall_forall in Hyrest.
  assert (Htails : Forall (λ L, ∃ t, seekList y L = y :: t) Ls).
  { eapply Forall2_Forall_r; [exact Hpos|]. apply Forall_forall.
    intros L _ p [t [Ht _]]. by exists t. }
  split; [split; [|split; [|split]]|split].
  - apply Forall2_fmap_r. eapply Forall2_impl; [exact Hpos|].
    intros p L (t & Ht & Hp). simpl. rewrite Ht. simpl.
    split; [by eapply Positioned_Err|]. by eapply Positioned_Next.
  - rewrite Forall_fmap. rewrite Forall_forall in Hs |- *. intros L HL. simpl.
    pose proof (seekList_sorted y L (Hs L HL)) as Hsl.
    destruct (seekList y L) as [|z t]; simpl; [constructor|].
    by apply StronglySorted_cons in Hsl as [_ ?].
  - by destruct Ls.
  - rewrite Forall_fmap. rewrite Forall_forall in Hs, Htails |- *. intros L HL. simpl.
    destruct (Htails L HL) as [t Ht]. rewrite Ht, Hcur. simpl.
    apply Forall_forall. intros x Hx.
    apply (tail_seekList_elem y x L t (Hs L HL) Ht) in Hx as [_ ?]. lia.
  - apply StronglySorted_lt_ext; [|done|].
    + apply commonValues_sorted. rewrite Forall_fmap.
      rewrite Forall_forall in Hs |- *. intros L HL. simpl.
      pose proof (seekList_sorted y L (Hs L HL)) as Hsl.
      destruct (seekList y L) as [|z t]; simpl; [constructor|].
      by apply StronglySorted_cons in Hsl as [_ ?].
    + intros x. rewrite commonValues_elem, Forall_fmap.
      assert (Hxy : x ∈ y :: rest ↔ Ls ≠ [] ∧ Forall (λ l, x ∈ l) Ls).
      { rewrite <- Hcv. apply commonValues_elem. }
      split.
      * intros [_ Hall].
        assert (Hall' : Forall (λ L, x ∈ L ∧ y < x) Ls).
        { rewrite Forall_forall in Hall, Hs, Htails |- *. intros L HL.
          destruct (Htails L HL) as [t Ht]. specialize (Hall L HL). simpl in Hall.
          rewrite Ht in Hall. simpl in Hall.
          by apply (tail_seekList_elem y x L t (Hs L HL) Ht). }
        assert (Hin : x ∈ y :: rest).
        { apply Hxy. split; [done|]. eapply Forall_impl; [exact Hall'|]. by intros L [? _]. }
        apply elem_of_cons in Hin as [->|?]; [|done].
        destruct Ls as [|L Ls']; [done|]. apply Forall_cons in Hall' as [[_ ?] _]. lia.
      * intros Hx. split; [by destruct Ls|].
        assert (Hin : x ∈ y :: rest) by (by right).
        apply Hxy in Hin as [_ Hall]. specialize (Hyrest x Hx).
        rewrite Forall_forall in Hall, Hs, Htails |- *. intros L HL. simpl.
        destruct (Htails L HL) as [t Ht]. rewrite Ht. simpl.
        apply (tail_seekList_elem y x L t (Hs L HL) Ht). auto.
  - unfold totalLength. clear -Hne Htails.
    induction Ls as [|L Ls IH]; [done|].
    apply Forall_cons in Htails as [[t Ht] Htails]. rewrite fmap_cons.
    cbn [sum_list_with]. rewrite Ht. simpl.
    pose proof (seekList_length y L) as Hlen. rewrite Ht in Hlen. simpl in Hlen.
    destruct Ls as [|L' Ls']; [simpl; lia|].
    specialize (IH ltac:(done) Htails). lia.
Qed.

Lemma ExpandPostings_intersect (fuel : nat) : ∀ (it : intersectPostings T) Ls,
  (totalLength Ls < fuel)%nat → IntersectInv it Ls →
  ExpandPostings fuel (PIntersect it) = Some (commonValues Ls, None).
Proof.
  induction fuel as [|fuel IH]; intros it Ls Hfuel Hinv; [lia|].
  cbn [ExpandPostings PNext].
  destruct (intersectPostings_Next_spec (S fuel) it Ls Hfuel Hinv) as (b & it' & -> & Hres).
  cbn [liftStep]. destruct (commonValues Ls) as [|y rest].
  - destruct Hres as [-> Herr]. cbn. by rewrite Herr.
  - destruct Hres as (-> & Hcur & Ls' & Hinv' & Hrest & Hlen).
    rewrite (IH it' Ls'); [|lia|done]. cbn. by rewrite Hcur, Hrest.
Qed.
End IntersectFacts.

Section IntersectTheorem.
Context {T : Type} `{Postings T}.

Lemma Conforming_sentinel_common (its : list T) (ls : list (list SeriesRef)) :
  Forall2 Conforming its ls → existsb IsEmptyPostingsType its = true →
  commonValues ls = [].
Proof.
  intros Hall Hex.
  assert (Hnil : [] ∈ ls).
  { induction Hall as [|p l its ls [_ (_ & Hsent & _)] _ IH]; [done|].
    simpl in Hex. apply orb_true_iff in Hex as [Hp|Hex].
    - rewrite (Hsent Hp). by left.
    - right. auto. }
  destruct (commonValues ls) as [|y rest] eqn:Hcv; [done|].
  assert (Hy : y ∈ commonValues ls) by (rewrite Hcv; by left).
  apply commonValues_elem in Hy as [_ Hy]. rewrite Forall_forall in Hy.
  specialize (Hy [] Hnil). by apply elem_of_nil in Hy.
Qed.

Lemma Intersect_expands (its : list T) (ls : list (list SeriesRef)) :
  Forall2 Conforming its ls →
  expandsFrom (S (totalLength ls)) (Intersect its) (commonValues ls).
Proof.
  intros Hall fuel Hfuel.
  destruct Hall as [|p l its ls Hp Hrest].
  { simpl. apply ExpandPostings_PErr. lia. }
  destruct Hrest as [|p2 l2 its ls Hp2 Hrest].
  { simpl. rewrite filter_all by (apply Forall_forall; intros; constructor).
    destruct Hp as [_ (_ & _ & Ha)]. apply ExpandPostings_After; [|done].
    unfold totalLength in Hfuel. simpl in Hfuel. lia. }
  assert (Hall : Forall2 Conforming (p :: p2 :: its) (l :: l2 :: ls)).
  { constructor; [done|]. by constructor. }
  unfold Intersect.
  destruct (existsb IsEmptyPostingsType (p :: p2 :: its)) eqn:Hex.
  { rewrite (Conforming_sentinel_common _ _ Hall Hex). apply ExpandPostings_PErr. lia. }
  apply ExpandPostings_intersect; [lia|].
  split; [|split; [|split]].
  - eapply Forall2_impl; [exact Hall|]. by intros q L [_ (? & _ & ?)].
  - eapply Forall2_Forall_r; [exact Hall|]. apply Forall_forall. by intros L _ q [? _].
  - done.
  - apply Forall_forall. intros L _. apply Forall_forall. intros x _. simpl. lia.
Qed.
End IntersectTheorem.

(** C4: for conforming inputs [its] over the strictly increasing lists
    [ls], expanding [Intersect its] yields exactly the values present in
    every list, in increasing order; without arguments the result is the
    empty sentinel; when an argument is the empty sentinel no value is
    common, and with two arguments or more the result is the sentinel
    itself; over 1, 3, 5, 7 and 3, 4, 5, 6 the output is 3, 5. *)
Theorem Intersect_yields_common {T : Type} `{Postings T}
    (its : list T) (ls : list (list SeriesRef)) :
  Forall2 Conforming its ls →
  expandsFrom (S (totalLength ls)) (Intersect its) (commonValues ls) ∧
  Intersect (T := T) [] = PErr EmptyPostings ∧
  (existsb IsEmptyPostingsType its = true →
   commonValues ls = [] ∧ ((2 ≤ length its)%nat → Intersect its = PErr EmptyPostings)) ∧
  ExpandPostings 9 (Intersect [newListPostings [1; 3; 5; 7]; newListPostings [3; 4; 5; 6]])
    = Some ([3; 5], None).
Proof.
  intros Hall. split; [by apply Intersect_expands|]. split; [done|]. split; [|reflexivity].
  intros Hex. split; [by eapply Conforming_sentinel_common|].
  intros Hlen. destruct its as [|p [|p2 its]]; [simpl in Hlen; lia..|].
  unfold Intersect. by rewrite Hex.
Qed.

Lemma Intersect_yields_common_witness :
  expandsFrom 9 (Intersect [newListPostings [1; 3; 5; 7]; newListPostings [3; 4; 5; 6]])
              [3; 5].
Proof.
  apply (Intersect_yields_common
           [newListPostings [1; 3; 5; 7]; newListPostings [3; 4; 5; 6]]
           [[1; 3; 5; 7]; [3; 4; 5; 6]]).
  constructor; [|constructor; [|constructor]];
    apply ListPostings_Conforming; repeat constructor; lia.
Defined.

(** * [container/heap] *)
Section HeapFacts.
Context {A : Type} (key : A → N).

Lemma heap_Less_kAt (h : list A) (i j : nat) :
  (i < length h)%nat → (j < length h)%nat →
  heap_Less key h i j = (kAt key h i <? kAt key h j).
Proof.
  intros Hi Hj. unfold heap_Less, kAt.
  destruct (lookup_lt_is_Some_2 h i Hi) as [a ->].
  by destruct (lookup_lt_is_Some_2 h j Hj) as [b ->].
Qed.

Lemma heap_Swap_length (h : list A) (i j : nat) : length (heap_Swap h i j) = length h.
Proof.
  unfold heap_Swap. destruct (h !! i), (h !! j); try done. by rewrite !length_insert.
Qed.

Lemma heap_Swap_lookup (h : list A) (i j a : nat) :
  (i < length h)%nat → (j < length h)%nat →
  heap_Swap h i j !! a =
    if decide (a = j) then h !! i else if decide (a = i) then h !! j else h !! a.
Proof.
  intros Hi Hj. unfold heap_Swap.
  destruct (lookup_lt_is_Some_2 h i Hi) as [x Hx].
  destruct (lookup_lt_is_Some_2 h j Hj) as [y Hy]. rewrite Hx, Hy.
  destruct (decide (a = j)) as [->|Haj].
  - rewrite list_lookup_insert_eq; [done|]. by rewrite length_insert.
  - rewrite list_lookup_insert_ne by done.
    destruct (decide (a = i)) as [->|Hai].
    + by rewrite list_lookup_insert_eq.
    + by rewrite list_lookup_insert_ne.
Qed.

Lemma heap_Swap_kAt (h : list A) (i j a : nat) :
  (i < length h)%nat → (j < length h)%nat →
  kAt key (heap_Swap h i j) a =
    if decide (a = j) then kAt key h i
    else if decide (a = i) then kAt key h j else kAt key h a.
Proof.
  intros Hi Hj. unfold kAt. rewrite heap_Swap_lookup by done.
  by destruct (decide (a = j)), (decide (a = i)).
Qed.

Lemma heap_Swap_Permutation (h : list A) (i j : nat) : heap_Swap h i j ≡ₚ h.
Proof.
  unfold heap_Swap.
  destruct (h !! i) as [x|] eqn:Hx; [|done]. destruct (h !! j) as [y|] eqn:Hy; [|done].
  destruct (decide (i = j)) as [->|Hne].
  { rewrite list_insert_insert_eq. assert (x = y) as -> by congruence.
    by rewrite list_insert_id. }
  symmetry. 
  apply (Permutation_inj _ _).
  split; [by rewrite !length_insert|].
  exists (λ a, if decide (a = j) then i else if decide (a = i) then j else a).
  split.
  - intros a b Hab. repeat case_decide; congruence.
  - intros a.
    destruct (decide (a = j)) as [->|Haj].
    + rewrite list_lookup_insert_ne by done.
      rewrite list_lookup_insert_eq; [done|]. by eapply lookup_lt_Some.
    + destruct (decide (a = i)) as [->|Hai].
      * rewrite list_lookup_insert_eq; [done|].
        rewrite length_insert. by eapply lookup_lt_Some.
      * by rewrite !list_lookup_insert_ne.
Qed.
Lemma holeInv_done (i0 n : nat) (h : list A) (i : nat) :
  holeInv key i0 n h i → nodeOk key n h i → heapFrom key i0 n h.
Proof.
  intros [Hothers _] Hi a Ha. destruct (decide (a = i)) as [->|Hne]; auto.
Qed.

Lemma down_loop_spec (i0 n : nat) (fuel : nat) : ∀ (h : list A) (i : nat),
  (n ≤ length h)%nat → (n - i ≤ fuel)%nat → (i0 ≤ i)%nat → holeInv key i0 n h i →
  heapFrom key i0 n (down_loop key fuel h i n).1 ∧
  (down_loop key fuel h i n).1 ≡ₚ h ∧
  (∀ a, (n ≤ a)%nat → (down_loop key fuel h i n).1 !! a = h !! a).
Proof.
  induction fuel as [|fuel IH]; intros h i Hn Hfuel Hi0 Hinv; cbn [down_loop].
  { split; [|done]. apply (holeInv_done i0 n h i Hinv). intros j Hj Hjn. lia. }
  destruct (Nat.leb_spec n (2 * i + 1)) as [Hge|Hlt].
  { split; [|done]. apply (holeInv_done i0 n h i Hinv). intros j Hj Hjn. lia. }
  set (j1 := (2 * i + 1)%nat) in *. set (j2 := (j1 + 1)%nat).
  set (j := if (j2 <? n)%nat && heap_Less key h j2 j1 then j2 else j1).
  assert (Hj : (j = j1 ∨ (j = j2 ∧ (j2 < n)%nat)) ∧ kAt key h j ≤ kAt key h j1 ∧
               ((j2 < n)%nat → kAt key h j ≤ kAt key h j2)).
  { unfold j. destruct (Nat.ltb_spec j2 n) as [Hj2|Hj2]; simpl.
    - rewrite heap_Less_kAt by lia.
      destruct (N.ltb_spec (kAt key h j2) (kAt key h j1)).
      + split; [right; done|]. split; [lia|]. intros _. lia.
      + split; [by left|]. split; [lia|]. intros _. lia.
    - split; [by left|]. split; [lia|]. intros ?. lia. }
  destruct Hj as (Hjcase & Hjj1 & Hjj2).
  assert (Hjn : (j < n)%nat) by (destruct Hjcase as [->|[-> ?]]; lia).
  assert (Hij : (i < j)%nat) by (destruct Hjcase as [->|[-> ?]]; unfold j2, j1; lia).
  rewrite heap_Less_kAt by lia.
  destruct (N.ltb_spec (kAt key h j) (kAt key h i)) as [Hless|Hnot]; cbn [negb].
  2:{ split; [|done]. apply (holeInv_done i0 n h i Hinv). intros c Hc Hcn.
      destruct Hc as [-> | ->].
      - fold j1. lia.
      - replace (2 * i + 2)%nat with j2 in * by (unfold j2, j1; lia).
        specialize (Hjj2 Hcn). lia. }
  assert (Hk : ∀ a, kAt key (heap_Swap h i j) a =
                 if decide (a = j) then kAt key h i
                 else if decide (a = i) then kAt key h j else kAt key h a).
  { intros a. apply heap_Swap_kAt; lia. }
  destruct Hinv as [Hothers Hparent].
  destruct (IH (heap_Swap h i j) j) as (Hheap & Hperm & Hframe).
  - rewrite heap_Swap_length. lia.
  - lia.
  - lia.
  - split.
    + intros a Ha Haj c Hc Hcn. rewrite !Hk.
      rewrite (decide_False (P := a = j)) by done.
      destruct (decide (a = i)) as [->|Hai].
      * destruct (decide (c = j)) as [->|Hcj]; [lia|].
        rewrite decide_False by lia.
        assert (c = j1 ∨ c = j2) as [->| ->] by (unfold j2, j1; lia); [lia|].
        apply Hjj2. lia.
      * assert (c ≠ j) by (destruct Hjcase as [->|[-> ?]]; unfold j2, j1; lia).
        rewrite decide_False by done.
        destruct (decide (c = i)) as [->|Hci].
        -- apply (Hparent a j); [lia|lia| |lia].
           destruct Hjcase as [->|[-> ?]]; unfold j2, j1; lia.
        -- by apply (Hothers a Ha Hai c).
    + intros p c Hp Hpj Hc Hcn. rewrite !Hk.
      assert (p = i) as -> by (destruct Hjcase as [->|[-> ?]]; unfold j2, j1 in *; lia).
      rewrite decide_False by lia. rewrite decide_True by done.
      rewrite decide_False by lia. rewrite decide_False by lia.
      apply (Hothers j); [lia|lia|done|done].
  - split; [done|]. split.
    + rewrite Hperm. apply heap_Swap_Permutation.
    + intros a Ha. rewrite Hframe by done. rewrite heap_Swap_lookup by lia.
      rewrite decide_False by lia. by rewrite decide_False by lia.
Qed.
Lemma heap_down_spec (h : list A) (i0 n : nat) :
  (n ≤ length h)%nat → heapFrom key (S i0) n h →
  heapFrom key i0 n (heap_down key h i0 n).1 ∧
  (heap_down key h i0 n).1 ≡ₚ h ∧
  (∀ a, (n ≤ a)%nat → (heap_down key h i0 n).1 !! a = h !! a).
Proof.
  intros Hn Hheap. unfold heap_down.
  destruct (down_loop_spec i0 n n h i0) as (H1 & H2 & H3); [done|lia|done| |].
  - split.
    + intros a Ha Hne. apply Hheap. lia.
    + intros p c Hp Hpi. lia.
  - by destruct (down_loop key n h i0 n) as [h' i].
Qed.

Lemma init_loop_spec (n : nat) (k : nat) : ∀ (h : list A),
  (n ≤ length h)%nat → heapFrom key k n h →
  heapFrom key 0 n (init_loop key k h n) ∧ init_loop key k h n ≡ₚ h.
Proof.
  induction k as [|k IH]; intros h Hn Hheap; cbn [init_loop]; [done|].
  destruct (heap_down_spec h k n Hn Hheap) as (H1 & H2 & _).
  destruct (IH (heap_down key h k n).1) as [H4 H5]; [|done|].
  - by rewrite (Permutation_length H2).
  - split; [done|]. by rewrite H5.
Qed.

Lemma heap_Init_spec (h : list A) : isHeap key (heap_Init key h) ∧ heap_Init key h ≡ₚ h.
Proof.
  unfold heap_Init, isHeap.
  destruct (init_loop_spec (length h) (length h / 2) h) as [H1 H2]; [done| |].
  - intros i Hi j Hj Hjn.
    pose proof (Nat.div_mod_eq (length h) 2).
    pose proof (Nat.mod_upper_bound (length h) 2). lia.
  - split; [|done]. by rewrite (Permutation_length H2).
Qed.

Lemma heap_Fix_spec (h : list A) :
  heapFrom key 1 (length h) h →
  isHeap key (heap_Fix key h 0) ∧ heap_Fix key h 0 ≡ₚ h.
Proof.
  intros Hheap. unfold heap_Fix.
  destruct (heap_down_spec h 0 (length h)) as (H1 & H2 & _); [done|done|].
  destruct (heap_down key h 0 (length h)) as [h' moved]. simpl in *.
  assert (Hup : heap_up key h' 0 = h') by done.
  destruct moved; simpl; rewrite ?Hup;
    (split; [|done]); unfold isHeap; by rewrite (Permutation_length H2).
Qed.

Lemma heap_Pop_spec (top : A) (rest : list A) :
  heapFrom key 1 (length (top :: rest)) (top :: rest) →
  isHeap key (heap_Pop key (top :: rest)) ∧ heap_Pop key (top :: rest) ≡ₚ rest.
Proof.
  intros Hheap. unfold heap_Pop.
  set (h := top :: rest) in *. set (n := (length h - 1)%nat).
  assert (Hlen : length h = S n) by (unfold n, h; simpl; lia).
  set (h1 := heap_Swap h 0 n).
  assert (Hlen1 : length h1 = S n) by (unfold h1; by rewrite heap_Swap_length).
  assert (Hheap1 : heapFrom key 1 n h1).
  { intros a Ha c Hc Hcn. unfold h1. rewrite !heap_Swap_kAt by lia.
    rewrite !decide_False by lia. apply Hheap; [done|done|lia]. }
  destruct (heap_down_spec h1 0 n) as (H1 & H2 & H3); [lia|done|].
  set (h2 := (heap_down key h1 0 n).1) in *.
  assert (Hlen2 : length h2 = S n) by (by rewrite (Permutation_length H2)).
  assert (Hlast : h2 !! n = Some top).
  { rewrite H3 by done. unfold h1. rewrite heap_Swap_lookup by lia.
    by rewrite decide_True. }
  split.
  - intros a _ c Hc Hcn. rewrite length_take in Hcn.
    unfold kAt. rewrite !lookup_take_lt by lia. apply H1; [lia|done|lia].
  - assert (Hsplit : h2 = take n h2 ++ [top]).
    { rewrite <- (take_drop n h2) at 1. f_equal.
      rewrite (drop_S _ _ _ Hlast). rewrite drop_ge by lia. done. }
    apply (Permutation_app_inv_r [top]). rewrite <- Hsplit, H2.
    unfold h1. rewrite heap_Swap_Permutation. unfold h.
    by rewrite Permutation_cons_append.
Qed.

Lemma isHeap_root_min (h : list A) (a : nat) :
  isHeap key h → (a < length h)%nat → kAt key h 0 ≤ kAt key h a.
Proof.
  intros Hheap. induction a as [a IH] using lt_wf_ind. intros Ha.
  destruct a as [|a]; [done|].
  set (p := (a / 2)%nat).
  assert (Hp : S a = (2 * p + 1)%nat ∨ S a = (2 * p + 2)%nat).
  { pose proof (Nat.div_mod_eq a 2). pose proof (Nat.mod_upper_bound a 2).
    unfold p. lia. }
  assert (Hpa : (p < S a)%nat) by lia.
  specialize (IH p Hpa ltac:(lia)).
  pose proof (Hheap p ltac:(lia) (S a) Hp Ha). lia.
Qed.

Lemma isHeap_head_min (top : A) (rest : list A) :
  isHeap key (top :: rest) → Forall (λ x, key top ≤ key x) (top :: rest).
Proof.
  intros Hheap. apply Forall_forall. intros x Hx.
  apply list_elem_of_lookup in Hx as [a Ha].
  pose proof (isHeap_root_min (top :: rest) a Hheap (lookup_lt_Some _ _ _ Ha)) as Hmin.
  unfold kAt in Hmin. by rewrite Ha in Hmin.
Qed.

Lemma isHeap_replace_root (top top' : A) (rest : list A) :
  isHeap key (top :: rest) → heapFrom key 1 (length (top' :: rest)) (top' :: rest).
Proof.
  intros Hheap a Ha c Hc Hcn.
  destruct a as [|a]; [lia|]. destruct c as [|c]; [lia|].
  apply (Hheap (S a) ltac:(lia) (S c) Hc Hcn).
Qed.
End HeapFacts.

(** * [Merge] *)
Lemma Forall2_Permutation_l {A B} (R : A → B → Prop) (l l' : list A) (k : list B) :
  Forall2 R l k → l ≡ₚ l' → ∃ k', k ≡ₚ k' ∧ Forall2 R l' k'.
Proof.
  intros HF Hperm. revert k HF.
  induction Hperm as [|x l l' _ IH|x y l|l l' l'' _ IH1 _ IH2]; intros k HF.
  - apply Forall2_nil_inv_l in HF as ->. by exists [].
  - apply Forall2_cons_inv_l in HF as (b & k0 & Hxb & HF & ->).
    destruct (IH k0 HF) as (k' & Hk & HF'). exists (b :: k'). split; [by constructor|].
    by constructor.
  - apply Forall2_cons_inv_l in HF as (b & k0 & Hyb & HF & ->).
    apply Forall2_cons_inv_l in HF as (b' & k1 & Hxb & HF & ->).
    exists (b' :: b :: k1). split; [apply perm_swap|]. by repeat constructor.
  - destruct (IH1 k HF) as (k' & Hk & HF'). destruct (IH2 k' HF') as (k'' & Hk' & HF'').
    exists k''. split; [by etrans|done].
Qed.

Lemma holds_Permutation (Ls Ls' : list (list SeriesRef)) (x : SeriesRef) :
  Ls ≡ₚ Ls' → holds Ls x ↔ holds Ls' x.
Proof.
  intros Hperm. unfold holds. split; intros (L & HL & Hx); exists L; split; try done.
  - by rewrite <- Hperm.
  - by rewrite Hperm.
Qed.

Lemma totalLength_Permutation (Ls Ls' : list (list SeriesRef)) :
  Ls ≡ₚ Ls' → totalLength Ls = totalLength Ls'.
Proof. intros Hperm. unfold totalLength. by rewrite Hperm. Qed.

Lemma holds_cons (L : list SeriesRef) (Ls : list (list SeriesRef)) (x : SeriesRef) :
  holds (L :: Ls) x ↔ x ∈ L ∨ holds Ls x.
Proof.
  unfold holds. split.
  - intros (L' & [->|HL]%elem_of_cons & Hx); [by left|]. right. by exists L'.
  - intros [Hx|(L' & HL & Hx)]; [exists L; split; [by left|done]|].
    exists L'. split; [by right|done].
Qed.

Lemma holds_nil (x : SeriesRef) : ¬ holds [] x.
Proof. by intros (L & ?%elem_of_nil & _). Qed.

Lemma mergedValues_spec (ls : list (list SeriesRef)) :
  StronglySorted N.lt (mergedValues ls) ∧ ∀ x, x ∈ mergedValues ls ↔ holds ls x.
Proof.
  unfold mergedValues.
  destruct (sortRefs_strict (remove_dups (mjoin ls))) as [Hs Hel].
  { apply NoDup_remove_dups. }
  split; [done|]. intros x. unfold sortRefs in Hel.
  rewrite Hel, elem_of_remove_dups, list_elem_of_join. unfold holds.
  split; intros (L & ? & ?); exists L; done.
Qed.

Lemma Forall2_elem_of_r {A B} (R : A → B → Prop) (l : list A) (k : list B) (y : B) :
  Forall2 R l k → y ∈ k → ∃ x, x ∈ l ∧ R x y.
Proof.
  induction 1 as [|x y' l k HR _ IH]; [by intros ?%elem_of_nil|].
  intros [->|Hy]%elem_of_cons; [exists x; split; [by left|done]|].
  destruct (IH Hy) as (x' & Hx' & HR'). exists x'. split; [by right|done].
Qed.

Section MergeFacts.
Context {T : Type} `{Postings T}.

Lemma heap_low (h : list T) (Ls : list (list SeriesRef)) (top : T) (rest : list T) :
  h = top :: rest → isHeap At h → Forall2 StandsOn h Ls →
  Forall (StronglySorted N.lt) Ls →
  ∀ x, holds Ls x → At top ≤ x.
Proof.
  intros -> Hheap HF Hs x (L & HL & Hx).
  destruct (Forall2_elem_of_r _ _ _ _ HF HL) as (p & Hp & (hd & t & -> & Hpos)).
  pose proof (isHeap_head_min At top rest Hheap) as Hmin.
  pose proof (proj1 (Forall_forall _ _) Hmin p Hp) as Hminp. simpl in Hminp.
  rewrite (Positioned_At _ _ _ Hpos) in Hminp.
  pose proof (proj1 (Forall_forall _ _) Hs _ HL) as HsL.
  pose proof (StronglySorted_lt_head_le hd x t HsL Hx). lia.
Qed.

Lemma MergedRun_low (mp : mergedPostings T) (Ls : list (list SeriesRef)) :
  MergedRun mp Ls → ∀ x, holds Ls x → mp_cur mp ≤ x.
Proof.
  intros (_ & _ & HF & Hs & Hheap & top & rest & Hh & ->). by eapply heap_low.
Qed.

(** One turn of the loop of [Next]: the root is advanced and the heap
    repaired. *)
Lemma advanceTop_Next_spec (mp : mergedPostings T) (Ls : list (list SeriesRef)) :
  MergedRun mp Ls →
  match advanceTop Next mp with
  | None => False
  | Some (inl mp') => mp_err mp' = None ∧ ∀ x, holds Ls x → x = mp_cur mp
  | Some (inr mp') =>
      mp_initialized mp' = true ∧ mp_err mp' = None ∧ mp_cur mp' = mp_cur mp ∧
      ∃ Ls', Forall2 StandsOn (mp_h mp') Ls' ∧ Forall (StronglySorted N.lt) Ls' ∧
             isHeap At (mp_h mp') ∧ mp_h mp' ≠ [] ∧
             (∀ x, holds Ls x ↔ x = mp_cur mp ∨ holds Ls' x) ∧
             S (totalLength Ls') = totalLength Ls
  end.
Proof.
  intros Hrun. pose proof (MergedRun_low mp Ls Hrun) as Hlow.
  destruct Hrun as (Hi & He & HF & Hs & Hheap & top & rest & Hh & Hcur).
  unfold advanceTop. rewrite Hh in *. 
  apply Forall2_cons_inv_l in HF as (Ltop & Lrest & (c & t & -> & Hpos) & HF & ->).
  pose proof (Positioned_At _ _ _ Hpos) as Hat. rewrite Hat in Hcur.
  pose proof (Positioned_Next _ _ _ Hpos) as Hnext.
  destruct (Next top) as [ok top'] eqn:HN.
  apply Forall_cons in Hs as [Hsct HsR].
  change (<[0%nat:=top']> (top :: rest)) with (top' :: rest).
  pose proof (isHeap_replace_root At top top' rest Hheap) as Hheap1.
  destruct t as [|y t']; simpl in Hnext.
  - (* the root is exhausted: it is popped *)
    destruct Hnext as [-> Herr]. cbn [negb]. rewrite Herr.
    destruct (heap_Pop_spec At top' rest Hheap1) as [Hheap2 Hperm].
    destruct (Nat.eqb_spec (length (heap_Pop At (top' :: rest))) 0) as [Hz|Hnz]; simpl.
    + split; [done|]. apply nil_length_inv in Hz. rewrite Hz in Hperm.
      apply Permutation_nil in Hperm. subst rest.
      apply Forall2_nil_inv_l in HF as ->. rewrite Hcur.
      intros x [Hx|Hx%holds_nil]%holds_cons; [|done].
      by apply list_elem_of_singleton in Hx.
    + split; [done|]. split; [done|]. split; [done|].
      destruct (Forall2_Permutation_l _ _ _ _ HF (symmetry Hperm)) as (Ls' & HLs & HF').
      exists Ls'. split; [done|]. split; [by rewrite <- HLs|]. split; [done|].
      split; [by intros Hnil; rewrite Hnil in Hnz|]. split.
      * intros x. rewrite holds_cons, <- (holds_Permutation _ _ x HLs), Hcur.
        by rewrite list_elem_of_singleton.
      * rewrite <- (totalLength_Permutation _ _ HLs). done.
  - (* the root has advanced: it is sifted down *)
    destruct Hnext as [-> Hpos']. cbn [negb].
    destruct (heap_Fix_spec At (top' :: rest) Hheap1) as [Hheap2 Hperm].
    simpl. split; [done|]. split; [done|]. split; [done|].
    assert (HF1 : Forall2 StandsOn (top' :: rest) ((y :: t') :: Lrest)).
    { constructor; [by exists y, t'|done]. }
    destruct (Forall2_Permutation_l _ _ _ _ HF1 (symmetry Hperm)) as (Ls' & HLs & HF').
    exists Ls'. split; [done|]. split.
    { rewrite <- HLs. constructor; [|done]. by apply StronglySorted_cons in Hsct as [_ ?]. }
    split; [done|]. split.
    { intros Hnil. rewrite Hnil in Hperm. by apply Permutation_nil_cons in Hperm. }
    split.
    + intros x. rewrite <- (holds_Permutation _ _ x HLs), !holds_cons, Hcur.
      rewrite (elem_of_cons (y :: t')). tauto.
    + rewrite <- (totalLength_Permutation _ _ HLs). done.
Qed.
Lemma mergedNextLoop_spec (fuel : nat) : ∀ (mp : mergedPostings T) Ls,
  (totalLength Ls ≤ fuel)%nat → MergedRun mp Ls →
  ∃ b mp', mergedNextLoop fuel mp = Some (b, mp') ∧
    if b then
      mp_cur mp < mp_cur mp' ∧ holds Ls (mp_cur mp') ∧
      (∀ x, holds Ls x → mp_cur mp < x → mp_cur mp' ≤ x) ∧
      ∃ Ls', MergedRun mp' Ls' ∧
             (∀ x, mp_cur mp' < x → holds Ls' x ↔ holds Ls x) ∧
             (totalLength Ls' < totalLength Ls)%nat
    else mp_err mp' = None ∧ ∀ x, holds Ls x → x ≤ mp_cur mp.
Proof.
  induction fuel as [|fuel IH]; intros mp Ls Hfuel Hrun.
  { exfalso. destruct Hrun as (_ & _ & HF & _ & _ & top & rest & Hh & _).
    rewrite Hh in HF. apply Forall2_cons_inv_l in HF as (L & Ls0 & (c & t & -> & _) & _ & ->).
    unfold totalLength in Hfuel. simpl in Hfuel. lia. }
  cbn [mergedNextLoop].
  pose proof (advanceTop_Next_spec mp Ls Hrun) as Hadv.
  pose proof (MergedRun_low mp Ls Hrun) as Hlow.
  destruct (advanceTop Next mp) as [[mp1|mp1]|]; [| |done].
  { destruct Hadv as [Herr Hall]. exists false, mp1. split; [done|]. split; [done|].
    intros x Hx. rewrite (Hall x Hx). lia. }
  destruct Hadv as (Hi & He & Hcur & Ls1 & HF & Hs & Hheap & Hne & Hholds & Hlen).
  destruct (mp_h mp1) as [|top rest] eqn:Hh; [done|].
  pose proof (heap_low (top :: rest) Ls1 top rest eq_refl Hheap HF Hs) as Hlow1.
  assert (Htop : holds Ls1 (At top)).
  { apply Forall2_cons_inv_l in HF as (L & Ls0 & (c & t & -> & Hpos) & _ & ->).
    rewrite (Positioned_At _ _ _ Hpos). apply holds_cons. left. by left. }
  assert (Hge : mp_cur mp ≤ At top).
  { apply Hlow, Hholds. by right. }
  destruct (N.eqb_spec (At top) (mp_cur mp1)) as [Heq|Hneq]; cbn [negb].
  - (* the same value again: next turn *)
    assert (Hrun1 : MergedRun mp1 Ls1).
    { split; [done|]. split; [done|]. rewrite Hh. split; [done|]. split; [done|].
      split; [done|]. by exists top, rest. }
    destruct (IH mp1 Ls1 ltac:(lia) Hrun1) as (b & mp' & Hloop & Hres).
    exists b, mp'. split; [done|]. rewrite Hcur in Hres. destruct b.
    + destruct Hres as (Hlt & Hh' & Hmin & Ls' & Hrun' & Hsame & Hlen').
      split; [done|]. split; [apply Hholds; by right|]. split.
      { intros x Hx Hxc. apply Hholds in Hx as [->|Hx]; [lia|]. by apply Hmin. }
      exists Ls'. split; [done|]. split; [|lia].
      intros x Hx. rewrite (Hsame x Hx), (Hholds x).
      split; [by right|]. intros [->|?]; [lia|done].
    + destruct Hres as [Herr Hall]. split; [done|].
      intros x [->|Hx]%Hholds; [lia|]. by apply Hall.
  - (* a new value *)
    exists true, (mkMergedPostings (top :: rest) (mp_initialized mp1) (At top) (mp_err mp1)).
    split; [done|]. cbn [mp_cur]. rewrite Hcur in Hneq.
    split; [lia|]. split; [apply Hholds; by right|]. split.
    { intros x Hx Hxc. apply Hholds in Hx as [->|Hx]; [lia|]. by apply Hlow1. }
    exists Ls1. split; [|split; [|lia]].
    + split; [done|]. split; [done|]. split; [done|]. split; [done|]. split; [done|].
      by exists top, rest.
    + intros x Hx. rewrite (Hholds x). split; [by right|]. intros [->|?]; [lia|done].
Qed.

(** The values produced from a running [mergedPostings]: those above the
    current one. *)
Lemma ExpandPostings_merged_run (fuel : nat) : ∀ (mp : mergedPostings T) Ls,
  (totalLength Ls < fuel)%nat → MergedRun mp Ls →
  ∃ res, ExpandPostings fuel (PMerged mp) = Some (res, None) ∧
         StronglySorted N.lt res ∧ ∀ x, x ∈ res ↔ mp_cur mp < x ∧ holds Ls x.
Proof.
  induction fuel as [|fuel IH]; intros mp Ls Hfuel Hrun; [lia|].
  cbn [ExpandPostings PNext]. unfold mergedPostings_Next.
  pose proof Hrun as (Hi & He & _ & _ & _ & top & rest & Hh & _).
  rewrite Hh, He, Hi. cbn [length Nat.eqb orb negb].
  rewrite bool_decide_eq_false_2 by (by intros ?).
  destruct (mergedNextLoop_spec (S fuel) mp Ls ltac:(lia) Hrun) as (b & mp' & Hloop & Hres).
  rewrite Hloop. cbn [liftStep]. destruct b.
  - destruct Hres as (Hlt & Hh' & Hmin & Ls' & Hrun' & Hsame & Hlen).
    destruct (IH mp' Ls' ltac:(lia) Hrun') as (res & -> & Hs & Hel).
    exists (mp_cur mp' :: res). split; [done|]. split.
    + constructor; [done|]. apply Forall_forall. intros x Hx. by apply Hel in Hx as [? _].
    + intros x. rewrite elem_of_cons, Hel. split.
      * intros [->|[Hx Hxh]]; [done|]. split; [lia|]. by apply Hsame.
      * intros [Hx Hxh]. specialize (Hmin x Hxh Hx).
        destruct (decide (x = mp_cur mp')) as [->|Hne]; [by left|].
        right. split; [lia|]. apply Hsame; [lia|done].
  - destruct Hres as [Herr Hall]. exists []. cbn. rewrite Herr. split; [done|].
    split; [constructor|]. intros x. split; [by intros ?%elem_of_nil|].
    intros [Hx Hxh]. specialize (Hall x Hxh). lia.
Qed.

(** The values produced from a fresh [mergedPostings] whose heap holds the
    inputs that have a first value. *)
Lemma ExpandPostings_merged_new (fuel : nat) (ph : list T) (Ls : list (list SeriesRef)) :
  (totalLength Ls + 1 < fuel)%nat → ph ≠ [] →
  Forall2 StandsOn ph Ls → Forall (StronglySorted N.lt) Ls →
  ∃ res, ExpandPostings fuel (PMerged (mkMergedPostings ph false 0 None)) = Some (res, None) ∧
         StronglySorted N.lt res ∧ ∀ x, x ∈ res ↔ holds Ls x.
Proof.
  intros Hfuel Hne HF Hs. destruct fuel as [|fuel]; [lia|].
  cbn [ExpandPostings PNext]. unfold mergedPostings_Next. cbn [mp_h mp_err mp_initialized].
  destruct ph as [|p0 ph0] eqn:Hph; [done|]. rewrite <- Hph in *.
  replace (length ph =? 0)%nat with false by (by rewrite Hph).
  cbn [orb negb]. rewrite bool_decide_eq_false_2 by (by intros ?).
  destruct (heap_Init_spec At ph) as [Hheap Hperm].
  destruct (heap_Init At ph) as [|top rest] eqn:Hinit.
  { exfalso. apply Permutation_nil in Hperm. congruence. }
  cbn [liftStep].
  destruct (Forall2_Permutation_l _ _ _ _ HF (symmetry Hperm)) as (Ls' & HLs & HF').
  assert (Hs' : Forall (StronglySorted N.lt) Ls') by (by rewrite <- HLs).
  assert (Hrun : MergedRun (mkMergedPostings (top :: rest) true (At top) None) Ls').
  { split; [done|]. split; [done|]. split; [done|]. split; [done|]. split; [done|].
    by exists top, rest. }
  destruct (ExpandPostings_merged_run fuel _ Ls' ltac:(rewrite <- (totalLength_Permutation _ _ HLs); lia) Hrun)
    as (res & -> & Hsr & Hel).
  cbn [mp_cur] in Hel. exists (At top :: res). split; [done|].
  pose proof (heap_low (top :: rest) Ls' top rest eq_refl Hheap HF' Hs') as Hlow.
  assert (Htop : holds Ls' (At top)).
  { apply Forall2_cons_inv_l in HF' as (L & Ls0 & (c & t & -> & Hpos) & _ & ->).
    rewrite (Positioned_At _ _ _ Hpos). apply holds_cons. left. by left. }
  split.
  - constructor; [done|]. apply Forall_forall. intros x Hx. by apply Hel in Hx as [? _].
  - intros x. rewrite elem_of_cons, Hel, (holds_Permutation _ _ x HLs). split.
    + intros [->|[_ ?]]; done.
    + intros Hx. specialize (Hlow x Hx).
      destruct (decide (x = At top)) as [->|Hne']; [by left|]. right. split; [lia|done].
Qed.
End MergeFacts.

Section MergeTheorem.
Context {T : Type} `{Postings T}.

Lemma mergedInputs_spec (its : list T) (ls : list (list SeriesRef)) :
  Forall2 Conforming its ls →
  ∀ acc, ∃ ph, mergedInputs its acc = inl (acc ++ ph) ∧
               Forall2 StandsOn ph (filter (λ l, l ≠ []) ls).
Proof.
  induction 1 as [|p l its ls [Hs (He & _ & Ha)] _ IH]; intros acc; simpl.
  { exists []. by rewrite app_nil_r. }
  destruct (Next p) as [ok p'] eqn:HN. destruct l as [|y t]; simpl in Ha.
  - destruct Ha as [-> Herr]. rewrite Herr. rewrite filter_cons_False by (by intros ?).
    apply IH.
  - destruct Ha as [-> Hpos]. destruct (IH (acc ++ [p'])) as (ph & Heq & HF).
    exists (p' :: ph). rewrite Heq, <- app_assoc. split; [done|].
    rewrite filter_cons_True by done. constructor; [by exists y, t|done].
Qed.

Lemma holds_nonempty (ls : list (list SeriesRef)) (x : SeriesRef) :
  holds (filter (λ l, l ≠ []) ls) x ↔ holds ls x.
Proof.
  unfold holds. split; intros (L & HL & Hx).
  - apply list_elem_of_filter in HL as [_ HL]. by exists L.
  - exists L. split; [|done]. apply list_elem_of_filter. split; [|done].
    intros ->. by apply elem_of_nil in Hx.
Qed.

Lemma totalLength_nonempty (ls : list (list SeriesRef)) :
  (totalLength (filter (λ l, l ≠ []) ls) ≤ totalLength ls)%nat.
Proof.
  unfold totalLength. induction ls as [|l ls IH]; [done|].
  rewrite filter_cons. destruct (decide (l ≠ [])); cbn [sum_list_with]; lia.
Qed.

Lemma Merge_expands (its : list T) (ls : list (list SeriesRef)) :
  Forall2 Conforming its ls →
  expandsFrom (totalLength ls + 2) (Merge its) (mergedValues ls).
Proof.
  intros Hall fuel Hfuel.
  destruct (mergedValues_spec ls) as [Hms Hmel].
  assert (Hsorted : Forall (StronglySorted N.lt) ls).
  { eapply Forall2_Forall_r; [exact Hall|]. apply Forall_forall. by intros L _ q [? _]. }
  assert (Hgoal : ∀ res, StronglySorted N.lt res → (∀ x, x ∈ res ↔ holds ls x) →
                         res = mergedValues ls).
  { intros res Hs Hel. apply StronglySorted_lt_ext; [done|done|].
    intros x. by rewrite Hel, Hmel. }
  destruct Hall as [|p l its ls Hp Hrest].
  { rewrite <- (Hgoal []); [apply ExpandPostings_PErr; lia|constructor|].
    intros x. split; [by intros ?%elem_of_nil|]. by intros ?%holds_nil. }
  destruct Hrest as [|p2 l2 its ls Hp2 Hrest].
  { destruct Hp as [Hs (_ & _ & Ha)]. rewrite <- (Hgoal l); [|done|].
    - apply ExpandPostings_After; [|done].
      unfold totalLength in Hfuel. simpl in Hfuel. lia.
    - intros x. rewrite holds_cons. split; [by left|]. by intros [?|?%holds_nil]. }
  assert (Hall : Forall2 Conforming (p :: p2 :: its) (l :: l2 :: ls)).
  { constructor; [done|]. by constructor. }
  unfold Merge, newMergedPostings.
  destruct (mergedInputs_spec _ _ Hall []) as (ph & -> & HF). simpl app.
  set (Ls := filter (λ l, l ≠ []) (l :: l2 :: ls)) in *.
  destruct ph as [|q ph].
  { apply Forall2_nil_inv_l in HF.
    rewrite <- (Hgoal []); [apply ExpandPostings_PErr; lia|constructor|].
    intros x. rewrite <- holds_nonempty. fold Ls. rewrite HF.
    split; [by intros ?%elem_of_nil|by intros ?%holds_nil]. }
  destruct (ExpandPostings_merged_new fuel (q :: ph) Ls) as (res & Hexp & Hs & Hel).
  - pose proof (totalLength_nonempty (l :: l2 :: ls)) as Hle. fold Ls in Hle. lia.
  - done.
  - done.
  - unfold Ls. apply Forall_forall. intros L [_ HL]%list_elem_of_filter.
    by apply (proj1 (Forall_forall _ _) Hsorted).
  - rewrite <- (Hgoal res); [done|done|]. intros x.
    rewrite Hel. apply holds_nonempty.
Qed.
End MergeTheorem.

(** C3: for conforming inputs [its] over the strictly increasing lists
    [ls], expanding [Merge its] yields [mergedValues ls], which is strictly
    increasing (so every value occurs once) and holds exactly the values of
    the inputs; over 1, 3, 5 and 2, 3, 4 the output is 1, 2, 3, 4, 5. *)
Theorem Merge_yields_union {T : Type} `{Postings T}
    (its : list T) (ls : list (list SeriesRef)) :
  Forall2 Conforming its ls →
  expandsFrom (totalLength ls + 2) (Merge its) (mergedValues ls) ∧
  StronglySorted N.lt (mergedValues ls) ∧
  (∀ x, x ∈ mergedValues ls ↔ ∃ l, l ∈ ls ∧ x ∈ l) ∧
  ExpandPostings 8 (Merge [newListPostings [1; 3; 5]; newListPostings [2; 3; 4]])
    = Some ([1; 2; 3; 4; 5], None).
Proof.
  intros Hall. split; [by apply Merge_expands|].
  split; [apply mergedValues_spec|]. split; [apply mergedValues_spec|]. reflexivity.
Qed.

Lemma Merge_yields_union_witness :
  expandsFrom 8 (Merge [newListPostings [1; 3; 5]; newListPostings [2; 3; 4]])
              (mergedValues [[1; 3; 5]; [2; 3; 4]]).
Proof.
  apply (Merge_yields_union [newListPostings [1; 3; 5]; newListPostings [2; 3; 4]]
           [[1; 3; 5]; [2; 3; 4]]).
  constructor; [|constructor; [|constructor]];
    apply ListPostings_Conforming; repeat constructor; lia.
Defined.

(** * [Seek] to a value not beyond the current one *)
Section SeekFacts.
Context {T : Type} `{Postings T}.

Lemma removedPostings_Seek_le (fuel : nat) (id : SeriesRef) (rp : removedPostings T) :
  id ≤ rp_cur rp → removedPostings_Seek fuel id rp = Some (true, rp).
Proof.
  intros Hid. unfold removedPostings_Seek. by destruct (N.leb_spec id (rp_cur rp)); [|lia].
Qed.

(** *** merged *)
Lemma advanceTop_inr_positioned (step : T → bool * T) (mp mp' : mergedPostings T) :
  advanceTop step mp = Some (inr mp') → mp_err mp = None → mp_initialized mp = true →
  mp_err mp' = None ∧ mp_initialized mp' = true ∧ mp_cur mp' = mp_cur mp.
Proof.
  unfold advanceTop. destruct (mp_h mp) as [|cur rest]; [done|].
  destruct (step cur) as [ok cur']. destruct ok; cbn [negb].
  - intros [= <-]. by simpl.
  - destruct (Err cur'); [done|]. case_match; [done|]. intros [= <-]. by simpl.
Qed.

Lemma mergedNextLoop_positioned (fuel : nat) : ∀ (mp mp' : mergedPostings T),
  mergedNextLoop fuel mp = Some (true, mp') →
  mp_err mp = None → mp_initialized mp = true → MergedPositioned mp'.
Proof.
  induction fuel as [|fuel IH]; intros mp mp'; [done|]. cbn [mergedNextLoop].
  destruct (advanceTop Next mp) as [[mp1|mp1]|] eqn:Hadv; [done| |done].
  intros Hloop He Hi.
  destruct (advanceTop_inr_positioned _ _ _ Hadv He Hi) as (He1 & Hi1 & _).
  destruct (mp_h mp1) as [|top rest] eqn:Hh; [done|].
  destruct (negb (At top =? mp_cur mp1)).
  - injection Hloop as <-. by split.
  - by eapply IH.
Qed.

Lemma mergedPostings_Next_positioned (fuel : nat) (mp mp' : mergedPostings T) :
  mergedPostings_Next fuel mp = Some (true, mp') → MergedPositioned mp'.
Proof.
  unfold mergedPostings_Next.
  destruct (length (mp_h mp) =? 0)%nat; [done|].
  destruct (bool_decide (mp_err mp ≠ None)) eqn:He; [done|]. cbn [orb].
  apply bool_decide_eq_false in He. apply dec_stable in He.
  destruct (mp_initialized mp) eqn:Hi; cbn [negb].
  - intros Hloop. by eapply mergedNextLoop_positioned.
  - destruct (heap_Init At (mp_h mp)) as [|top rest]; [done|].
    intros [= <-]. by split.
Qed.

Lemma mergedSeekLoop_positioned (fuel : nat) (id : SeriesRef) :
  ∀ (mp mp' : mergedPostings T),
  mergedSeekLoop fuel id mp = Some (true, mp') →
  MergedPositioned mp → MergedPositioned mp'.
Proof.
  induction fuel as [|fuel IH]; intros mp mp'; [done|]. cbn [mergedSeekLoop].
  destruct (mp_cur mp <? id); [|by intros [= <-]].
  destruct (advanceTop (Seek id) mp) as [[mp1|mp1]|] eqn:Hadv; [done| |done].
  destruct (mp_h mp1) as [|top rest] eqn:Hh; [done|].
  intros Hloop (Hne & He & Hi).
  destruct (advanceTop_inr_positioned _ _ _ Hadv He Hi) as (He1 & Hi1 & _).
  apply (IH _ _ Hloop). by split.
Qed.

Lemma mergedPostings_Seek_positioned (fuel : nat) (v : SeriesRef)
    (mp mp' : mergedPostings T) :
  mergedPostings_Seek fuel v mp = Some (true, mp') → MergedPositioned mp'.
Proof.
  unfold mergedPostings_Seek.
  destruct (length (mp_h mp) =? 0)%nat eqn:Hlen; [done|].
  destruct (bool_decide (mp_err mp ≠ None)) eqn:He; [done|]. cbn [orb].
  apply bool_decide_eq_false in He. apply dec_stable in He.
  destruct (mp_initialized mp) eqn:Hi; cbn [negb].
  - intros Hloop. apply (mergedSeekLoop_positioned _ _ _ _ Hloop).
    split; [|done]. intros Hnil. by rewrite Hnil in Hlen.
  - destruct (mergedPostings_Next fuel mp) as [[[] mp1]|] eqn:HN; [|done..].
    intros Hloop. apply (mergedSeekLoop_positioned _ _ _ _ Hloop).
    by eapply mergedPostings_Next_positioned.
Qed.

Lemma mergedPostings_Seek_le (fuel : nat) (id : SeriesRef) (mp : mergedPostings T) :
  MergedPositioned mp → id ≤ mp_cur mp →
  mergedPostings_Seek (S fuel) id mp = Some (true, mp).
Proof.
  intros (Hne & He & Hi) Hid. unfold mergedPostings_Seek.
  destruct (mp_h mp) as [|top rest]; [done|]. rewrite He, Hi. cbn [length Nat.eqb orb negb].
  rewrite bool_decide_eq_false_2 by (by intros ?).
  cbn [mergedSeekLoop]. by destruct (N.ltb_spec (mp_cur mp) id); [lia|].
Qed.
(** *** intersected *)
Lemma seekAll_positioned (c : SeriesRef) (arr : list T) :
  Forall (λ p, ∃ l, Positioned p c l) arr → seekAll c arr = SweepDone arr.
Proof.
  induction 1 as [|p arr [l Hp] _ IH]; simpl; [done|].
  rewrite (Positioned_Seek_le p c l c Hp) by lia. cbn [negb].
  rewrite (Positioned_At _ _ _ Hp), N.ltb_irrefl. by rewrite IH.
Qed.

Lemma intersectPostings_Seek_le (fuel : nat) (id : SeriesRef) (it : intersectPostings T) :
  IntersectPositioned it → id ≤ ip_cur it →
  intersectPostings_Seek (S (S fuel)) id it = Some (true, it).
Proof.
  intros [Hne Hall] Hid. destruct it as [arr cur]. simpl in *.
  unfold intersectPostings_Seek. cbn [doNext ip_arr ip_cur].
  destruct (N.ltb_spec id cur) as [Hlt|Hge].
  - destruct arr as [|p rest]; [done|].
    pose proof Hall as [[l Hp] _]%Forall_cons. cbn [seekAll].
    rewrite (Positioned_Seek_le p cur l id Hp) by lia. cbn [negb].
    rewrite (Positioned_At _ _ _ Hp).
    destruct (N.ltb_spec id cur); [|lia].
    by rewrite (seekAll_positioned cur (p :: rest) Hall).
  - assert (id = cur) as -> by lia.
    by rewrite (seekAll_positioned cur arr Hall).
Qed.

Lemma doNext_positioned (fuel : nat) (arr : list T) (cur : SeriesRef) Ls it' :
  (ahead cur Ls < fuel)%nat → Forall (StronglySorted N.lt) Ls → Ls ≠ [] →
  Forall2 (Reach cur) arr Ls →
  doNext fuel (mkIntersectPostings arr cur) = Some (true, it') →
  IntersectPositioned it'.
Proof.
  intros Hfuel Hs Hne Hreach Hdo.
  destruct (doNext_spec fuel arr cur Ls Hfuel Hs Hne Hreach) as (b & it0 & Hdo' & Hres).
  rewrite Hdo in Hdo'. injection Hdo' as <- <-.
  destruct (commonFrom cur Ls) as [|y rest]; [by destruct Hres|].
  destruct Hres as (_ & Hcur & Hpos). split.
  - intros Hnil. rewrite Hnil in Hpos. apply Forall2_nil_inv_l in Hpos. done.
  - eapply Forall2_Forall_l; [exact Hpos|]. apply Forall_forall.
    intros L _ p (t & _ & Hp). exists t. by rewrite Hcur.
Qed.

Lemma intersectPostings_Next_positioned (fuel : nat) (it it' : intersectPostings T) Ls :
  (totalLength Ls < fuel)%nat → IntersectInv it Ls →
  intersectPostings_Next fuel it = Some (true, it') → IntersectPositioned it'.
Proof.
  intros Hfuel (Hpend & Hs & Hne & Hlow). unfold intersectPostings_Next.
  pose proof (nextAll_spec (ip_arr it) Ls (ip_cur it) Hpend) as Hnext.
  destruct (nextAll (ip_cur it) (ip_arr it)) as [[ok arr'] cur'].
  destruct ok; [|done]. cbn [negb]. destruct Hnext as (Hst & _).
  apply (doNext_positioned fuel arr' cur' Ls); [|done|done|].
  - pose proof (ahead_le_totalLength cur' Ls). lia.
  - eapply Forall2_impl; [exact Hst|]. intros p L HpL. exists 0.
    split; [lia|]. by rewrite seekList_0.
Qed.

Lemma intersectPostings_Seek_positioned (fuel : nat) (v : SeriesRef)
    (it it' : intersectPostings T) Ls :
  (ahead v Ls < fuel)%nat → Forall (StronglySorted N.lt) Ls → Ls ≠ [] →
  Forall2 (Reach v) (ip_arr it) Ls →
  intersectPostings_Seek fuel v it = Some (true, it') → IntersectPositioned it'.
Proof. intros. by eapply doNext_positioned. Qed.

(** *** sharded *)
Lemma ShardedPostings_Seek_le (id : SeriesRef) (sp : ShardedPostings T) :
  ShardedPositioned sp → id ≤ At sp →
  Seek id sp = (negb (sp_maxOffset sp <=? id), sp).
Proof.
  intros (c & l & Hp & _ & Hlo) Hid. cbn in Hid. rewrite (Positioned_At _ _ _ Hp) in Hid.
  rewrite ShardedPostings_Seek_eq. unfold ShardedPostings_Seek.
  destruct (N.leb_spec (sp_maxOffset sp) id); [done|]. cbn [negb].
  rewrite (Positioned_Seek_le _ c l _ Hp) by (destruct (N.ltb_spec id (sp_minOffset sp)); lia).
  by destruct sp.
Qed.

Lemma ShardedPostings_Seek_positioned (v : SeriesRef) (sp : ShardedPostings T) c l :
  Positioned (sp_p sp) c l → StronglySorted N.lt (c :: l) → (Seek v sp).1 = true →
  ShardedPositioned (Seek v sp).2.
Proof.
  intros Hp Hs. rewrite ShardedPostings_Seek_eq. unfold ShardedPostings_Seek.
  destruct (N.leb_spec (sp_maxOffset sp) v); [done|].
  set (v' := if v <? sp_minOffset sp then sp_minOffset sp else v).
  assert (Hv' : sp_minOffset sp ≤ v').
  { unfold v'. destruct (N.ltb_spec v (sp_minOffset sp)); lia. }
  pose proof (Positioned_Seek _ _ _ v' Hp) as Hsk.
  pose proof (seekList_sorted v' _ Hs) as Hs'.
  destruct (Seek v' (sp_p sp)) as [ok p'] eqn:HS. simpl. intros ->.
  destruct (seekList v' (c :: l)) as [|y l'] eqn:Hsl; simpl in Hsk; [by destruct Hsk|].
  destruct Hsk as [_ Hp']. pose proof (seekList_head _ _ _ _ Hsl).
  exists y, l'. simpl. split; [done|]. split; [done|lia].
Qed.

Lemma ShardedPostings_Next_positioned (sp : ShardedPostings T) :
  (if sp_initialized sp then ShardedPositioned sp else ∃ l, Conforming (sp_p sp) l) →
  (Next sp).1 = true → ShardedPositioned (Next sp).2.
Proof.
  rewrite ShardedPostings_Next_eq. unfold ShardedPostings_Next.
  destruct (sp_initialized sp); cbn [negb].
  - intros (c & l & Hp & Hs & Hlo). pose proof (Positioned_Next _ _ _ Hp) as Hn.
    destruct (Next (sp_p sp)) as [ok p'].
    destruct l as [|y l']; simpl in Hn; destruct Hn as [Hok Hp']; simpl in Hok; subst ok;
      cbn [negb]; [simpl; done|].
    simpl. destruct (sp_maxOffset sp <=? At p'); simpl; [done|]. intros _.
    exists y, l'. simpl. split; [done|].
    apply StronglySorted_cons in Hs as [Hc Hs]. split; [done|].
    apply Forall_cons in Hc as [Hc _]. lia.
  - intros [l [Hs (_ & _ & Hn)]]. destruct (Next (sp_p sp)) as [ok p'].
    destruct l as [|y l']; simpl in Hn; destruct Hn as [Hok Hp']; simpl in Hok; subst ok;
      cbn [negb]; [simpl; done|].
    intros Hok.
    by apply (ShardedPostings_Seek_positioned 0
                (mkShardedPostings p' (sp_minOffset sp) (sp_maxOffset sp) true) y l').
Qed.
End SeekFacts.

(** C6, as amended: on every variant a [Seek] to a value not beyond the
    one reached leaves the iterator as it is; it returns true on the
    list-backed, byte-encoded, subtracted, merged and intersected iterators,
    and on a sharded iterator exactly when the target is below the upper
    bound.  The second part shows that a successful [Next] or [Seek] of a
    composite over conforming inputs leads to such a position. *)
Theorem Seek_to_reached_value_is_noop :
  (∀ (it : ListPostings) x, x ≤ At it → Seek x it = (true, it)) ∧
  (∀ (it : BigEndianPostings) x, x ≤ At it → Seek x it = (true, it)) ∧
  (∀ (T : Type) (HT : Postings T),
     (∀ (rp : removedPostings T) id fuel,
        id ≤ rp_cur rp → removedPostings_Seek fuel id rp = Some (true, rp)) ∧
     (∀ (mp : mergedPostings T) id fuel,
        MergedPositioned mp → id ≤ mp_cur mp →
        mergedPostings_Seek (S fuel) id mp = Some (true, mp)) ∧
     (∀ (it : intersectPostings T) id fuel,
        IntersectPositioned it → id ≤ ip_cur it →
        intersectPostings_Seek (S (S fuel)) id it = Some (true, it)) ∧
     (∀ (sp : ShardedPostings T) id,
        ShardedPositioned sp → id ≤ At sp →
        Seek id sp = (negb (sp_maxOffset sp <=? id), sp))) ∧
  (∀ (T : Type) (HT : Postings T),
     (∀ (mp mp' : mergedPostings T) fuel,
        mergedPostings_Next fuel mp = Some (true, mp') → MergedPositioned mp') ∧
     (∀ (mp mp' : mergedPostings T) fuel v,
        mergedPostings_Seek fuel v mp = Some (true, mp') → MergedPositioned mp') ∧
     (∀ (it it' : intersectPostings T) Ls fuel,
        (totalLength Ls < fuel)%nat → IntersectInv it Ls →
        intersectPostings_Next fuel it = Some (true, it') → IntersectPositioned it') ∧
     (∀ (it it' : intersectPostings T) Ls v fuel,
        (ahead v Ls < fuel)%nat → Forall (StronglySorted N.lt) Ls → Ls ≠ [] →
        Forall2 (Reach v) (ip_arr it) Ls →
        intersectPostings_Seek fuel v it = Some (true, it') → IntersectPositioned it') ∧
     (∀ (sp : ShardedPostings T),
        (if sp_initialized sp then ShardedPositioned sp else ∃ l, Conforming (sp_p sp) l) →
        (Next sp).1 = true → ShardedPositioned (Next sp).2) ∧
     (∀ (sp : ShardedPostings T) v,
        ShardedPositioned sp → (Seek v sp).1 = true → ShardedPositioned (Seek v sp).2)).
Proof.
  split.
  { intros it x Hx. rewrite ListPostings_Seek_eq. unfold ListPostings_Seek.
    by destruct (N.leb_spec x (lp_cur it)); [|cbn in Hx; lia]. }
  split.
  { intros it x Hx. cbn. unfold BigEndianPostings_Seek.
    by destruct (N.leb_spec x (be_cur it)); [|cbn in Hx; lia]. }
  split; intros T HT.
  - split; [intros; by apply removedPostings_Seek_le|].
    split; [intros; by apply mergedPostings_Seek_le|].
    split; [intros; by apply intersectPostings_Seek_le|].
    intros; by apply ShardedPostings_Seek_le.
  - split; [intros ? ? ?; apply mergedPostings_Next_positioned|].
    split; [intros ? ? ? ?; apply mergedPostings_Seek_positioned|].
    split; [intros ? ? ? ?; apply intersectPostings_Next_positioned|].
    split; [intros ? ? ? ? ?; apply intersectPostings_Seek_positioned|].
    split; [apply ShardedPostings_Next_positioned|].
    intros sp v (c & l & Hp & Hs & _). by eapply ShardedPostings_Seek_positioned.
Qed.

(** C6, as stated, fails on the sharded iterator: over the inner values
    5, 25 with the bounds [10, 20), [Seek(12)] succeeds and stands on 25;
    [Seek(22)] then returns false although 22 is not beyond 25. *)
Lemma sharded_Seek_rejects_reached_value :
  let sp := NewShardedPostings (newListPostings [5; 25]) (10, 20) in
  (Seek 12 sp).1 = true ∧ At (Seek 12 sp).2 = 25 ∧ 22 ≤ At (Seek 12 sp).2 ∧
  (Seek 22 (Seek 12 sp).2).1 = false.
Proof. cbn. repeat split; lia. Qed.

(** * Errors of the inputs *)
Section ErrorFacts.
Context {T : Type} `{Postings T}.

Lemma Failed_Err (p : T) e : Failed p e → Err p = Some e.
Proof. intros (I & Hp & HI). by destruct (HI p Hp). Qed.

Lemma Failed_Next (p : T) e : Failed p e → (Next p).1 = false ∧ Failed (Next p).2 e.
Proof.
  intros (I & Hp & HI). destruct (HI p Hp) as (_ & Hn & HIn & _).
  split; [done|]. by exists I.
Qed.

Lemma Failed_Seek (p : T) e x : Failed p e → (Seek x p).1 = false ∧ Failed (Seek x p).2 e.
Proof.
  intros (I & Hp & HI). destruct (HI p Hp) as (_ & _ & _ & Hs).
  destruct (Hs x) as [Hs1 Hs2]. split; [done|]. by exists I.
Qed.

(** *** Merge *)
Lemma mergedInputs_error (pre post : list T) (p : T) (e : Error) : ∀ acc,
  Forall (λ q, (Next q).1 = true ∨ Err (Next q).2 = None) pre →
  (Next p).1 = false → Err (Next p).2 = Some e →
  mergedInputs (pre ++ p :: post) acc = inr e.
Proof.
  induction pre as [|q pre IH]; intros acc Hpre Hp He; simpl.
  - destruct (Next p) as [ok p']. simpl in *. subst ok. by rewrite He.
  - apply Forall_cons in Hpre as [Hq Hpre].
    destruct (Next q) as [ok q']. simpl in Hq. destruct ok; [by apply IH|].
    destruct Hq as [?|Hq]; [done|]. rewrite Hq. by apply IH.
Qed.

Lemma Merge_first_error (pre post : list T) (p : T) (e : Error) :
  Forall (λ q, (Next q).1 = true ∨ Err (Next q).2 = None) pre →
  (Next p).1 = false → Err (Next p).2 = Some e →
  (2 ≤ length (pre ++ p :: post))%nat →
  Merge (pre ++ p :: post) = PMerged (mkMergedPostings [] false 0 (Some e)).
Proof.
  intros Hpre Hp He Hlen. unfold Merge, newMergedPostings.
  rewrite (mergedInputs_error pre post p e [] Hpre Hp He).
  destruct (pre ++ p :: post) as [|a [|b l]]; simpl in Hlen; [lia|lia|done].
Qed.

Lemma mergedPostings_error_sticky (mp : mergedPostings T) (e : Error) fuel v :
  mp_err mp = Some e →
  mergedPostings_Next fuel mp = Some (false, mp) ∧
  mergedPostings_Seek fuel v mp = Some (false, mp) ∧
  PErrOf (PMerged mp) = Some e.
Proof.
  intros He. unfold mergedPostings_Next, mergedPostings_Seek. rewrite He.
  rewrite bool_decide_eq_true_2 by done. by rewrite orb_true_r.
Qed.

Lemma mergedPostings_Next_error (mp : mergedPostings T) top rest e fuel :
  mp_h mp = top :: rest → mp_err mp = None → mp_initialized mp = true →
  (Next top).1 = false → Err (Next top).2 = Some e →
  ∃ mp', mergedPostings_Next (S fuel) mp = Some (false, mp') ∧ mp_err mp' = Some e.
Proof.
  intros Hh He Hi Hn Herr. unfold mergedPostings_Next. rewrite Hh, He, Hi.
  cbn [length Nat.eqb orb negb]. rewrite bool_decide_eq_false_2 by (by intros ?).
  cbn [mergedNextLoop]. unfold advanceTop. rewrite Hh.
  destruct (Next top) as [ok top']. simpl in Hn, Herr. subst ok. cbn [negb].
  rewrite Herr. eexists. split; [reflexivity|done].
Qed.

Lemma mergedPostings_Seek_error (mp : mergedPostings T) top rest e fuel id :
  mp_h mp = top :: rest → mp_err mp = None → mp_initialized mp = true →
  mp_cur mp < id →
  (Seek id top).1 = false → Err (Seek id top).2 = Some e →
  ∃ mp', mergedPostings_Seek (S fuel) id mp = Some (false, mp') ∧ mp_err mp' = Some e.
Proof.
  intros Hh He Hi Hid Hn Herr. unfold mergedPostings_Seek. rewrite Hh, He, Hi.
  cbn [length Nat.eqb orb negb]. rewrite bool_decide_eq_false_2 by (by intros ?).
  cbn [mergedSeekLoop]. destruct (N.ltb_spec (mp_cur mp) id); [|lia].
  unfold advanceTop. rewrite Hh.
  destruct (Seek id top) as [ok top']. simpl in Hn, Herr. subst ok. cbn [negb].
  rewrite Herr. eexists. split; [reflexivity|done].
Qed.

(** *** Without *)
Lemma removedPostings_Next_full_failed (rp : removedPostings T) e fuel :
  Failed (rp_full rp) e → rp_initialized rp = false ∨ rp_fok rp = false →
  ∃ rp', removedPostings_Next (S fuel) rp = Some (false, rp') ∧
         Failed (rp_full rp') e ∧ rp_initialized rp' = true ∧ rp_fok rp' = false ∧
         rp_cur rp' = rp_cur rp ∧ removedPostings_Err rp' = Some e.
Proof.
  intros Hf Hst. unfold removedPostings_Next.
  destruct (rp_initialized rp) eqn:Hi; cbn [negb].
  - destruct Hst as [?|Hfok]; [done|]. cbn [removedLoop]. rewrite Hfok. cbn [negb].
    exists rp. split; [done|]. split; [done|]. split; [done|]. split; [done|].
    split; [done|]. unfold removedPostings_Err. by rewrite (Failed_Err _ _ Hf).
  - destruct (Failed_Next _ _ Hf) as [Hn Hf'].
    destruct (Next (rp_full rp)) as [fok full']. simpl in Hn, Hf'. subst fok.
    destruct (Next (rp_remove rp)) as [rok remove']. cbn [removedLoop rp_fok negb].
    eexists. split; [reflexivity|]. simpl. split; [done|]. split; [done|].
    split; [done|]. split; [done|]. unfold removedPostings_Err. simpl.
    by rewrite (Failed_Err _ _ Hf').
Qed.

Lemma removedPostings_Seek_full_failed (rp : removedPostings T) e fuel id :
  Failed (rp_full rp) e → rp_cur rp < id →
  ∃ rp', removedPostings_Seek (S fuel) id rp = Some (false, rp') ∧
         Failed (rp_full rp') e ∧ rp_initialized rp' = true ∧ rp_fok rp' = false ∧
         rp_cur rp' = rp_cur rp ∧ removedPostings_Err rp' = Some e.
Proof.
  intros Hf Hid. unfold removedPostings_Seek.
  destruct (N.leb_spec id (rp_cur rp)); [lia|].
  destruct (Failed_Seek _ _ id Hf) as [Hs Hf'].
  destruct (Seek id (rp_full rp)) as [fok full']. simpl in Hs, Hf'. subst fok.
  destruct (Seek id (rp_remove rp)) as [rok remove'].
  apply (removedPostings_Next_full_failed
           (mkRemovedPostings full' remove' (rp_cur rp) true false rok) e fuel); [done|].
  by right.
Qed.

Lemma removedPostings_Next_drop_failed (rp : removedPostings T) fuel :
  rp_initialized rp = true → rp_fok rp = true → rp_rok rp = false →
  removedPostings_Next (S fuel) rp = Some (takeFull rp) ∧ (takeFull rp).1 = true ∧
  (Err (rp_full rp) = None → removedPostings_Err rp = Err (rp_remove rp)).
Proof.
  intros Hi Hfok Hrok. unfold removedPostings_Next. rewrite Hi. cbn [negb removedLoop].
  rewrite Hfok, Hrok. cbn [negb]. split; [done|]. split.
  - unfold takeFull. by destruct (Next (rp_full rp)).
  - intros He. unfold removedPostings_Err. by rewrite He.
Qed.
End ErrorFacts.

Section IntersectErrors.
Context {T : Type} `{Postings T}.

Lemma nextAll_failed (e : Error) (arr : list T) : ∀ cur k,
  FailedAt k arr e → (nextAll cur arr).1.1 = false ∧ FailedAt k (nextAll cur arr).1.2 e.
Proof.
  induction arr as [|p rest IH]; intros cur k (q & Hq & Hf); [done|]. simpl.
  destruct k as [|k]; simpl in Hq.
  - injection Hq as ->. destruct (Failed_Next _ _ Hf) as [Hn Hf'].
    destruct (Next q) as [ok q']. simpl in Hn, Hf'. subst ok. simpl.
    split; [done|]. by exists q'.
  - destruct (Next p) as [ok p']. destruct ok; cbn [negb].
    + specialize (IH (if cur <? At p' then At p' else cur) k ltac:(by exists q)).
      destruct (nextAll _ rest) as [[ok' rest'] cur']. simpl in *.
      destruct IH as [-> (q' & Hq' & Hf')]. split; [done|]. by exists q'.
    + simpl. split; [done|]. by exists q.
Qed.

Lemma intersectPostings_Next_failed (it : intersectPostings T) k e fuel :
  FailedAt k (ip_arr it) e →
  ∃ it', intersectPostings_Next fuel it = Some (false, it') ∧ FailedAt k (ip_arr it') e.
Proof.
  intros Hf. unfold intersectPostings_Next.
  destruct (nextAll_failed e (ip_arr it) (ip_cur it) k Hf) as [Hok Hf'].
  destruct (nextAll (ip_cur it) (ip_arr it)) as [[ok arr'] cur']. simpl in *. subst ok.
  cbn [negb]. eexists. split; [reflexivity|done].
Qed.

Lemma firstErr_failed (arr : list T) : ∀ k e,
  FailedAt k arr e →
  firstErr arr ≠ None ∧
  ((∀ j q, (j < k)%nat → arr !! j = Some q → Err q = None) → firstErr arr = Some e).
Proof.
  induction arr as [|p rest IH]; intros k e (q & Hq & Hf); [done|]. simpl.
  destruct k as [|k]; simpl in Hq.
  - injection Hq as ->. rewrite (Failed_Err _ _ Hf). split; [done|]. done.
  - destruct (IH k e ltac:(by exists q)) as [Hne Hfirst].
    destruct (Err p) as [e'|] eqn:Hp.
    + split; [done|]. intros Hpre. specialize (Hpre 0%nat p ltac:(lia) eq_refl). congruence.
    + split; [done|]. intros Hpre. apply Hfirst. intros j q' Hj Hq'.
      apply (Hpre (S j) q'); [lia|done].
Qed.

Lemma seekAll_failed (e : Error) (cur : SeriesRef) (arr : list T) : ∀ k,
  FailedAt k arr e →
  match seekAll cur arr with
  | SweepFail arr' => FailedAt k arr' e
  | SweepRestart arr' _ => FailedAt k arr' e
  | SweepDone _ => False
  end.
Proof.
  induction arr as [|p rest IH]; intros k (q & Hq & Hf); [done|]. simpl.
  destruct k as [|k]; simpl in Hq.
  - injection Hq as ->. destruct (Failed_Seek _ _ cur Hf) as [Hn Hf'].
    destruct (Seek cur q) as [ok q']. simpl in Hn, Hf'. subst ok. simpl. by exists q'.
  - destruct (Seek cur p) as [ok p']. destruct ok; cbn [negb]; [|by exists q].
    destruct (cur <? At p'); [by exists q|].
    specialize (IH k ltac:(by exists q)).
    destruct (seekAll cur rest) as [arr'|arr' c'|arr']; simpl; [| |done];
      destruct IH as (q' & Hq' & Hf'); by exists q'.
Qed.

Lemma doNext_failed (e : Error) (fuel : nat) : ∀ (arr : list T) cur k r,
  FailedAt k arr e → doNext fuel (mkIntersectPostings arr cur) = Some r →
  r.1 = false ∧ FailedAt k (ip_arr r.2) e.
Proof.
  induction fuel as [|fuel IH]; intros arr cur k r Hf; [done|]. cbn [doNext ip_arr ip_cur].
  pose proof (seekAll_failed e cur arr k Hf) as Hsw.
  destruct (seekAll cur arr) as [arr'|arr' c'|arr']; [| |done].
  - by intros [= <-].
  - by apply IH.
Qed.

Lemma seekAll_prefix (e : Error) (cur : SeriesRef) (p : T) (post : list T)
    (pre : list T) (Ls : list (list SeriesRef)) :
  Forall2 (Reach cur) pre Ls → Failed p e →
  match seekAll cur (pre ++ p :: post) with
  | SweepFail _ => True
  | SweepRestart arr' c' =>
      cur < c' ∧ (∃ L t, L ∈ Ls ∧ seekList cur L = c' :: t) ∧
      ∃ pre', arr' = pre' ++ p :: post ∧ Forall2 (Reach c') pre' Ls
  | SweepDone _ => False
  end.
Proof.
  intros Hreach Hf. induction Hreach as [|q L pre Ls Hq Hrest IH]; simpl.
  { destruct (Failed_Seek _ _ cur Hf) as [Hn _].
    destruct (Seek cur p) as [ok p']. simpl in Hn. by subst ok. }
  destruct Hq as (c0 & Hc0 & h & t & HL & Hq).
  pose proof (Positioned_Seek _ _ _ cur Hq) as Hsk.
  rewrite <- HL, seekList_seekList in Hsk by done.
  destruct (Seek cur q) as [ok q'] eqn:HS.
  destruct (seekList cur L) as [|y t'] eqn:HsL; simpl in Hsk.
  { destruct Hsk as [-> _]. done. }
  destruct Hsk as [-> Hq']. cbn [negb]. rewrite (Positioned_At _ _ _ Hq').
  pose proof (seekList_head _ _ _ _ HsL) as Hy.
  destruct (N.ltb_spec cur y) as [Hlt|Hge].
  - split; [done|]. split; [exists L, t'; split; [by left|done]|].
    exists (q' :: pre). split; [done|]. constructor.
    + exists cur. split; [lia|]. exists y, t'. by rewrite HsL.
    + eapply Forall2_impl; [exact Hrest|]. intros ? ?. apply Reach_mono. lia.
  - assert (y = cur) as -> by lia.
    destruct (seekAll cur (pre ++ p :: post)) as [arr'|arr' c'|arr']; simpl; [done| |done].
    destruct IH as (Hlt & (L' & t'' & HL' & Hsk') & pre' & -> & Hreach').
    split; [done|]. split; [exists L', t''; split; [by right|done]|].
    exists (q' :: pre'). split; [done|]. constructor; [|done].
    exists cur. split; [lia|]. exists cur, t'. by rewrite HsL.
Qed.

Lemma doNext_failed_returns (e : Error) (p : T) (post : list T) (fuel : nat) :
  ∀ (pre : list T) (Ls : list (list SeriesRef)) cur,
  (ahead cur Ls < fuel)%nat → Forall (StronglySorted N.lt) Ls →
  Forall2 (Reach cur) pre Ls → Failed p e →
  ∃ it', doNext fuel (mkIntersectPostings (pre ++ p :: post) cur) = Some (false, it').
Proof.
  induction fuel as [|fuel IH]; intros pre Ls cur Hfuel Hs Hreach Hf; [lia|].
  cbn [doNext ip_arr ip_cur].
  pose proof (seekAll_prefix e cur p post pre Ls Hreach Hf) as Hsw.
  destruct (seekAll cur (pre ++ p :: post)) as [arr'|arr' c'|arr']; [| |done].
  - by eexists.
  - destruct Hsw as (Hlt & (L & t & HL & Hsk) & pre' & -> & Hreach').
    apply (IH pre' Ls c'); [|done|done|done].
    assert (c' ∈ L) by (apply (seekList_elem cur); rewrite Hsk; by left).
    pose proof (ahead_restart cur c' Ls L HL H0 Hlt). lia.
Qed.

Lemma intersectPostings_Seek_failed (it : intersectPostings T) (e : Error)
    (pre post : list T) (p : T) (Ls : list (list SeriesRef)) (v : SeriesRef) (fuel : nat) :
  ip_arr it = pre ++ p :: post → Failed p e →
  Forall2 (Reach v) pre Ls → Forall (StronglySorted N.lt) Ls →
  (ahead v Ls < fuel)%nat →
  ∃ it', intersectPostings_Seek fuel v it = Some (false, it') ∧
         FailedAt (length pre) (ip_arr it') e.
Proof.
  intros Harr Hf Hreach Hs Hfuel. unfold intersectPostings_Seek. rewrite Harr.
  destruct (doNext_failed_returns e p post fuel pre Ls v Hfuel Hs Hreach Hf) as [it' Hdo].
  exists it'. split; [done|].
  apply (doNext_failed e fuel (pre ++ p :: post) v (length pre) (false, it')); [|done].
  exists p. split; [|done]. by rewrite list_lookup_middle.
Qed.
End IntersectErrors.

Lemma ErrPostings_Failed (e : Error) : Failed (ErrPostings e) e.
Proof. exists (λ q, q = ErrPostings e). split; [done|]. by intros q ->. Qed.

(** C7, as amended.  [Merge]: an input that fails its first [Next] with an
    error makes the result an iterator without inputs that carries this
    error; once an error is recorded, [Next] and [Seek] return false and
    [Err] returns it; the error of the root of the heap is recorded when the
    root fails in [Next] or [Seek], which then return false.  [Intersect]:
    while an input has terminated with an error, [Next] returns false and
    so does [Seek], [Err] is not nil and is the error of the first input in
    argument order that has one.  [Without]: when [full] has terminated with
    an error, [Next] returns false, [Seek] beyond the current value returns
    false and [Err] returns the error of [full]; when only [drop] has
    terminated, [Next] goes on producing the values of [full] and [Err]
    returns the error of [drop]. *)
Theorem composite_error_propagation (T : Type) (HT : Postings T) (e : Error) :
  (∀ (pre post : list T) (p : T),
     Forall (λ q, (Next q).1 = true ∨ Err (Next q).2 = None) pre →
     (Next p).1 = false → Err (Next p).2 = Some e →
     (2 ≤ length (pre ++ p :: post))%nat →
     Merge (pre ++ p :: post) = PMerged (mkMergedPostings [] false 0 (Some e))) ∧
  (∀ (mp : mergedPostings T) fuel v,
     mp_err mp = Some e →
     mergedPostings_Next fuel mp = Some (false, mp) ∧
     mergedPostings_Seek fuel v mp = Some (false, mp) ∧
     PErrOf (PMerged mp) = Some e) ∧
  (∀ (mp : mergedPostings T) top rest fuel,
     mp_h mp = top :: rest → mp_err mp = None → mp_initialized mp = true →
     (Next top).1 = false → Err (Next top).2 = Some e →
     ∃ mp', mergedPostings_Next (S fuel) mp = Some (false, mp') ∧ mp_err mp' = Some e) ∧
  (∀ (mp : mergedPostings T) top rest fuel id,
     mp_h mp = top :: rest → mp_err mp = None → mp_initialized mp = true →
     mp_cur mp < id → (Seek id top).1 = false → Err (Seek id top).2 = Some e →
     ∃ mp', mergedPostings_Seek (S fuel) id mp = Some (false, mp') ∧ mp_err mp' = Some e) ∧
  (∀ (it : intersectPostings T) k fuel,
     FailedAt k (ip_arr it) e →
     ∃ it', intersectPostings_Next fuel it = Some (false, it') ∧ FailedAt k (ip_arr it') e) ∧
  (∀ (it : intersectPostings T) pre p post Ls v fuel,
     ip_arr it = pre ++ p :: post → Failed p e →
     Forall2 (Reach v) pre Ls → Forall (StronglySorted N.lt) Ls →
     (ahead v Ls < fuel)%nat →
     ∃ it', intersectPostings_Seek fuel v it = Some (false, it') ∧
            FailedAt (length pre) (ip_arr it') e) ∧
  (∀ (it : intersectPostings T) k,
     FailedAt k (ip_arr it) e →
     intersectPostings_Err it ≠ None ∧
     ((∀ j q, (j < k)%nat → ip_arr it !! j = Some q → Err q = None) →
      intersectPostings_Err it = Some e)) ∧
  (∀ (rp : removedPostings T) fuel,
     Failed (rp_full rp) e → rp_initialized rp = false ∨ rp_fok rp = false →
     ∃ rp', removedPostings_Next (S fuel) rp = Some (false, rp') ∧
            Failed (rp_full rp') e ∧ rp_initialized rp' = true ∧ rp_fok rp' = false ∧
            rp_cur rp' = rp_cur rp ∧ removedPostings_Err rp' = Some e) ∧
  (∀ (rp : removedPostings T) fuel id,
     Failed (rp_full rp) e → rp_cur rp < id →
     ∃ rp', removedPostings_Seek (S fuel) id rp = Some (false, rp') ∧
            Failed (rp_full rp') e ∧ rp_initialized rp' = true ∧ rp_fok rp' = false ∧
            rp_cur rp' = rp_cur rp ∧ removedPostings_Err rp' = Some e) ∧
  (∀ (rp : removedPostings T) fuel,
     rp_initialized rp = true → rp_fok rp = true → rp_rok rp = false →
     removedPostings_Next (S fuel) rp = Some (takeFull rp) ∧ (takeFull rp).1 = true ∧
     (Err (rp_full rp) = None → removedPostings_Err rp = Err (rp_remove rp))).
Proof.
  split; [intros; by apply Merge_first_error|].
  split; [intros; by apply mergedPostings_error_sticky|].
  split; [intros; by eapply mergedPostings_Next_error|].
  split; [intros; by eapply mergedPostings_Seek_error|].
  split; [intros; by apply intersectPostings_Next_failed|].
  split; [intros; by eapply intersectPostings_Seek_failed|].
  split; [intros it k Hf; by apply firstErr_failed|].
  split; [intros; by apply removedPostings_Next_full_failed|].
  split; [intros; by apply removedPostings_Seek_full_failed|].
  intros; by apply removedPostings_Next_drop_failed.
Qed.

(** C7, as stated, fails for [Without] when the error is the one of
    [drop]: with [full] over 1, 2, 3 and a [drop] that only carries an
    error, the first [Next] meets the error of [drop] and returns true, and
    so do the following ones; the error is reported by [Err] all along. *)
Lemma Without_goes_on_after_drop_error :
  let full : errPostings + ListPostings := inr (newListPostings [1; 2; 3]) in
  let drop : errPostings + ListPostings := inl (ErrPostings "boom") in
  (Next drop).1 = false ∧ Err (Next drop).2 = Some "boom" ∧
  ∃ p1 p2,
    PNext 3 (Without full drop) = Some (true, p1) ∧ PErrOf p1 = Some "boom" ∧
    PNext 3 p1 = Some (true, p2) ∧
    ExpandPostings 5 (Without full drop) = Some ([1; 2; 3], Some "boom").
Proof.
  cbn zeta. split; [reflexivity|]. split; [reflexivity|].
  eexists _, _. split; [reflexivity|]. split; [reflexivity|]. split; reflexivity.
Qed.
(** * Further properties of the store *)

Lemma postingsList_entry n v p : postingsList n v p = default [] (postingsEntry n v p).
Proof.
  unfold postingsList, postingsEntry.
  destruct (m p !! n) as [nm|]; simpl; [done|]. by rewrite lookup_empty.
Qed.

(** Two stores without empty inner map are equal when they hold the same
    entries and are in the same phase. *)
Lemma store_ext (p q : MemPostings) :
  (∀ n nm, m p !! n = Some nm → nm ≠ ∅) →
  (∀ n nm, m q !! n = Some nm → nm ≠ ∅) →
  ordered p = ordered q →
  (∀ n v, postingsEntry n v p = postingsEntry n v q) →
  p = q.
Proof.
  destruct p as [mp op], q as [mq oq]. unfold postingsEntry. simpl.
  intros Hp Hq -> He. f_equal. apply map_eq. intros n.
  destruct (mp !! n) as [a|] eqn:Ha, (mq !! n) as [b|] eqn:Hb; [| | |done].
  - f_equal. apply map_eq. intros v. specialize (He n v).
    by rewrite Ha, Hb in He.
  - exfalso. apply (Hp n a Ha). apply map_eq. intros v. specialize (He n v).
    rewrite Ha, Hb in He. simpl in He. by rewrite lookup_empty.
  - exfalso. apply (Hq n b Hb). apply map_eq. intros v. specialize (He n v).
    rewrite Ha, Hb in He. simpl in He. by rewrite lookup_empty.
Qed.

Lemma repairOrder_length (i : nat) : ∀ lst, length (repairOrder i lst) = length lst.
Proof.
  induction i as [|j IH]; intros lst; [done|]. simpl.
  destruct (lst !! S j) as [a|]; [|done].
  destruct (lst !! j) as [b|]; [|done].
  destruct (b <=? a); [done|].
  rewrite IH. by rewrite !length_insert.
Qed.

Lemma postingsEntry_addFor id l p n v :
  postingsEntry n v (addFor id l p) =
    if decide (l = mkLabel n v) then Some (postingsList n v (addFor id l p))
    else postingsEntry n v p.
Proof.
  destruct l as [ln lv]. unfold postingsList, postingsEntry, addFor. simpl.
  destruct (decide (ln = n)) as [->|Hn].
  - rewrite lookup_insert_eq. simpl.
    destruct (decide (lv = v)) as [->|Hv].
    + rewrite lookup_insert_eq. simpl. by rewrite decide_True by done.
    + rewrite lookup_insert_ne by done. rewrite decide_False by congruence.
      destruct (m p !! n); simpl; [done|]. by rewrite lookup_empty.
  - rewrite lookup_insert_ne by done. by rewrite decide_False by congruence.
Qed.

Lemma addFor_list_nonempty id n v p :
  postingsList n v (addFor id (mkLabel n v) p) ≠ [].
Proof.
  rewrite postingsList_addFor, decide_True by done. simpl.
  intros Hnil. apply (f_equal length) in Hnil.
  destruct (ordered p); [rewrite repairOrder_length in Hnil|];
    rewrite length_app in Hnil; simpl in Hnil; lia.
Qed.

Lemma storeInv_addFor id l p : storeInv p → storeInv (addFor id l p).
Proof.
  intros [Hnm Hl]. split.
  - intros n nm. unfold addFor. simpl.
    destruct (decide (Name l = n)) as [->|Hn].
    + rewrite lookup_insert_eq. intros [= <-]. apply insert_non_empty.
    + rewrite lookup_insert_ne by done. apply Hnm.
  - intros n v lst. rewrite postingsEntry_addFor.
    case_decide as Heq; [|apply Hl].
    intros [= <-]. subst l. apply addFor_list_nonempty.
Qed.

Lemma storeInv_Add id lset p : storeInv p → storeInv (Add id lset p).
Proof.
  intros Hp. unfold Add. apply storeInv_addFor.
  revert p Hp. induction lset as [|l lset IH]; intros p Hp; [done|].
  simpl. apply IH. by apply storeInv_addFor.
Qed.

Lemma postingsEntry_EnsureOrder n v p :
  postingsEntry n v (EnsureOrder p) =
    if ordered p then postingsEntry n v p else sortRefs <$> postingsEntry n v p.
Proof.
  unfold EnsureOrder, postingsEntry. destruct (ordered p); [done|]. simpl.
  rewrite lookup_fmap. destruct (m p !! n) as [nm|]; simpl; [|done].
  by rewrite lookup_fmap.
Qed.

Lemma sortRefs_Permutation l : sortRefs l ≡ₚ l.
Proof. apply merge_sort_Permutation. Qed.

Lemma sortRefs_nonempty l : l ≠ [] → sortRefs l ≠ [].
Proof.
  intros Hl Hs. apply Hl. apply Permutation_nil_r. rewrite <- Hs.
  symmetry. apply sortRefs_Permutation.
Qed.

Lemma storeInv_EnsureOrder p : storeInv p → storeInv (EnsureOrder p).
Proof.
  intros [Hnm Hl]. split.
  - intros n nm. unfold EnsureOrder. destruct (ordered p); [apply Hnm|]. simpl.
    rewrite lookup_fmap. destruct (m p !! n) as [nm0|] eqn:Hn; simpl; [|done].
    intros [= <-]. intros He. apply fmap_empty_inv in He. by apply (Hnm n nm0).
  - intros n v l. rewrite postingsEntry_EnsureOrder.
    destruct (ordered p); [apply Hl|].
    destruct (postingsEntry n v p) as [l0|] eqn:He; simpl; [|done].
    intros [= <-]. apply sortRefs_nonempty. by apply (Hl n v).
Qed.

Lemma postingsEntry_Delete D n v p :
  postingsEntry n v (Delete D p) = postingsEntry n v p ≫= deleteFrom D.
Proof.
  unfold postingsEntry. rewrite Delete_lookup.
  destruct (m p !! n) as [nm|]; [simpl|done].
  unfold deleteInner. case_decide as He; simpl.
  - rewrite <- lookup_omap, He. by rewrite lookup_empty.
  - by rewrite lookup_omap.
Qed.

Lemma Delete_inner_nonempty D p n nm : m (Delete D p) !! n = Some nm → nm ≠ ∅.
Proof.
  rewrite Delete_lookup. destruct (m p !! n) as [nm0|]; [simpl|done].
  unfold deleteInner. case_decide as He; [done|]. by intros [= <-].
Qed.

Lemma Delete_ordered D p : ordered (Delete D p) = ordered p.
Proof. unfold Delete. by rewrite foldl_deleteName. Qed.

Lemma deleteFrom_Some D l l' :
  deleteFrom D l = Some l' → l' = filter (λ id, id ∉ D) l ∧ (l ≠ [] → l' ≠ []).
Proof.
  unfold deleteFrom. case_decide as Hall.
  - intros [= <-]. split; [|done]. symmetry. by apply filter_all.
  - destruct (filter (λ id, id ∉ D) l) as [|x r] eqn:Hf; [done|].
    intros [= <-]. by split.
Qed.

Lemma storeInv_Delete D p : storeInv p → storeInv (Delete D p).
Proof.
  intros [Hnm Hl]. split; [apply Delete_inner_nonempty|].
  intros n v l. rewrite postingsEntry_Delete.
  destruct (postingsEntry n v p) as [l0|] eqn:He; simpl; [|done].
  intros [_ Hne]%deleteFrom_Some. apply Hne. by apply (Hl n v).
Qed.

Lemma runOps_ind (I : MemPostings → Prop) (ops : list StoreOp) (p : MemPostings) :
  (∀ q o, I q → I (applyOp q o)) → I p → I (runOps ops p).
Proof.
  intros Hstep. unfold runOps. revert p.
  induction ops as [|o ops IH]; intros p Hp; [done|]. simpl. apply IH, Hstep, Hp.
Qed.

Lemma storeInv_applyOp q o : storeInv q → storeInv (applyOp q o).
Proof.
  destruct o; simpl;
    [apply storeInv_Add | apply storeInv_EnsureOrder | apply storeInv_Delete].
Qed.

Lemma storeInv_new : storeInv NewMemPostings ∧ storeInv NewUnorderedMemPostings.
Proof. split; (split; [intros n nm|intros n v l]; by rewrite ?lookup_empty). Qed.

Lemma sortRefs_sorted l : StronglySorted N.le (sortRefs l).
Proof. apply StronglySorted_merge_sort; [apply _|]. intros x y. lia. Qed.

Lemma EnsureOrder_ordered p : ordered (EnsureOrder p) = true.
Proof. unfold EnsureOrder. by destruct (ordered p) eqn:Ho. Qed.

Lemma postingsList_Delete D n v p :
  postingsList n v (Delete D p) = filter (λ id, id ∉ D) (postingsList n v p).
Proof.
  rewrite !postingsList_entry, postingsEntry_Delete.
  destruct (postingsEntry n v p) as [l|]; simpl; [|done].
  destruct (deleteFrom D l) as [l'|] eqn:Hd.
  - by apply deleteFrom_Some in Hd as [-> _].
  - simpl. unfold deleteFrom in Hd. case_decide; [done|].
    by destruct (filter (λ id, id ∉ D) l).
Qed.

Lemma Add_ordered id lset p : ordered (Add id lset p) = ordered p.
Proof.
  rewrite Add_foldl. generalize (lset ++ [allPostingsKey]). intros ls. revert p.
  induction ls as [|l ls IH]; intros p; [done|]. simpl. by rewrite IH, addFor_ordered.
Qed.

Lemma servingSorted_applyOp q o : servingSorted q → servingSorted (applyOp q o).
Proof.
  intros Hq. destruct o as [id lset| |D]; simpl.
  - intros Ho. destruct (ordered q) eqn:Hoq.
    + rewrite Add_foldl. by apply addAll_serving; [|apply Hq].
    + rewrite Add_foldl in Ho.
      by destruct (addFor_all_unordered id (lset ++ [allPostingsKey]) q Hoq) as [Hf _];
        simpl in Hf; rewrite Hf in Ho.
  - intros _ n v. destruct (ordered q) eqn:Hoq.
    + unfold EnsureOrder. rewrite Hoq. by apply Hq.
    + rewrite postingsList_EnsureOrder by done. apply sortRefs_sorted.
  - unfold servingSorted. rewrite Delete_ordered. intros Ho n v.
    rewrite postingsList_Delete.
    apply StronglySorted_filter. by apply Hq.
Qed.

(** X1: every store obtained from one of the two constructors by [Add],
    [EnsureOrder] and [Delete] holds neither an empty postings list nor an
    empty inner map. *)
Theorem reachable_store_has_no_empty_entry (ops : list StoreOp) :
  storeInv (runOps ops NewMemPostings) ∧ storeInv (runOps ops NewUnorderedMemPostings).
Proof.
  split; (apply runOps_ind; [apply storeInv_applyOp|apply storeInv_new]).
Qed.

(** X2: every store obtained from one of the two constructors by [Add],
    [EnsureOrder] and [Delete] has all its postings lists sorted whenever
    it is in the serving phase; a store built by [NewMemPostings] is always
    in that phase. *)
Theorem reachable_store_is_sorted_when_serving (ops : list StoreOp) :
  servingSorted (runOps ops NewMemPostings) ∧
  servingSorted (runOps ops NewUnorderedMemPostings) ∧
  ordered (runOps ops NewMemPostings) = true.
Proof.
  split; [|split].
  - apply runOps_ind; [apply servingSorted_applyOp|]. intros _ n v. constructor.
  - apply runOps_ind; [apply servingSorted_applyOp|]. intros _ n v. constructor.
  - apply (runOps_ind (λ q, ordered q = true)); [|done].
    intros q [id lset| |D] Hq; cbn [applyOp].
    + by rewrite Add_ordered.
    + apply EnsureOrder_ordered.
    + by rewrite Delete_ordered.
Qed.
(** * Building a store: before or after [EnsureOrder], in any order *)

Lemma sorted_le_unique (l1 l2 : list SeriesRef) :
  StronglySorted N.le l1 → StronglySorted N.le l2 → l1 ≡ₚ l2 → l1 = l2.
Proof.
  intros H1 H2 Hp.
  assert (Ha : AntiSymm (=) N.le) by (intros x y; lia).
  by apply (StronglySorted_unique N.le).
Qed.

Lemma insertRef_Permutation id k l : insertRef id k l ≡ₚ l ++ replicate k id.
Proof.
  unfold insertRef.
  rewrite (Permutation_app_comm (replicate k id)), app_assoc.
  apply Permutation_app_tail.
  rewrite <- (filter_app_complement (λ x, x ≤ id) l) at 3.
  apply Permutation_app_head.
  erewrite (filter_ext_in (λ x, id < x) (λ x, ¬ x ≤ id)); [done|].
  intros x _. lia.
Qed.

Lemma storeInv_entry n v p :
  storeInv p →
  postingsEntry n v p = match postingsList n v p with [] => None | l => Some l end.
Proof.
  intros [_ Hl]. rewrite postingsList_entry.
  destruct (postingsEntry n v p) as [l|] eqn:He; simpl; [|done].
  specialize (Hl n v l He). by destruct l.
Qed.

Lemma storeInv_addAll adds : ∀ p, storeInv p → storeInv (addAll adds p).
Proof.
  unfold addAll. induction adds as [|a adds IH]; intros p Hp; [done|].
  simpl. apply IH. by apply storeInv_Add.
Qed.

Lemma addAll_ordered adds : ∀ p, ordered (addAll adds p) = ordered p.
Proof.
  unfold addAll. induction adds as [|a adds IH]; intros p; [done|].
  simpl. by rewrite IH, Add_ordered.
Qed.

Lemma appended_cons l a adds :
  appended l (a :: adds) =
    replicate (occurrences l (a.2 ++ [allPostingsKey])) a.1 ++ appended l adds.
Proof. done. Qed.

Lemma addAll_serving_Permutation adds : ∀ p,
  ordered p = true → sortedStore p →
  sortedStore (addAll adds p) ∧
  ∀ n v, postingsList n v (addAll adds p) ≡ₚ postingsList n v p ++ appended (mkLabel n v) adds.
Proof.
  unfold addAll. induction adds as [|a adds IH]; intros p Ho Hs.
  - split; [done|]. intros n v. simpl. by rewrite app_nil_r.
  - cbn [foldl].
    destruct (addAll_serving a.1 (a.2 ++ [allPostingsKey]) p Ho Hs) as (Ho' & Hs' & Hl').
    simpl in Ho', Hs', Hl'. rewrite <- Add_foldl in Ho', Hs', Hl'.
    destruct (IH _ Ho' Hs') as [Hs'' Hl'']. split; [done|].
    intros n v. rewrite Hl'', Hl', insertRef_Permutation, appended_cons.
    by rewrite <- app_assoc.
Qed.

Lemma postingsList_new n v :
  postingsList n v NewMemPostings = [] ∧ postingsList n v NewUnorderedMemPostings = [].
Proof. unfold postingsList. simpl. by rewrite lookup_empty. Qed.

Lemma postingsList_built_serving adds n v :
  postingsList n v (addAll adds NewMemPostings) = sortRefs (appended (mkLabel n v) adds).
Proof.
  assert (Hs0 : sortedStore NewMemPostings).
  { intros n' v'. rewrite (proj1 (postingsList_new n' v')). constructor. }
  destruct (addAll_serving_Permutation adds NewMemPostings eq_refl Hs0) as [Hs Hl].
  apply sorted_le_unique; [apply Hs|apply sortRefs_sorted|].
  rewrite Hl, (proj1 (postingsList_new n v)), sortRefs_Permutation. done.
Qed.

Lemma postingsList_built_ordered adds n v :
  postingsList n v (EnsureOrder (addAll adds NewUnorderedMemPostings))
  = sortRefs (appended (mkLabel n v) adds).
Proof.
  destruct (addAll_unordered adds NewUnorderedMemPostings eq_refl) as [Hord Hlist].
  rewrite postingsList_EnsureOrder, Hlist by done.
  by rewrite (proj2 (postingsList_new n v)).
Qed.

Lemma appended_Permutation l adds adds' :
  adds ≡ₚ adds' → appended l adds ≡ₚ appended l adds'.
Proof. intros Hp. unfold appended. by rewrite Hp. Qed.

Lemma sortRefs_Permutation_eq l l' : l ≡ₚ l' → sortRefs l = sortRefs l'.
Proof.
  intros Hp. apply sorted_le_unique; [apply sortRefs_sorted..|].
  by rewrite !sortRefs_Permutation.
Qed.

Lemma built_serving_eq adds adds' :
  adds ≡ₚ adds' →
  addAll adds NewMemPostings = EnsureOrder (addAll adds' NewUnorderedMemPostings).
Proof.
  intros Hp.
  assert (H1 : storeInv (addAll adds NewMemPostings))
    by apply storeInv_addAll, storeInv_new.
  assert (H2 : storeInv (EnsureOrder (addAll adds' NewUnorderedMemPostings)))
    by apply storeInv_EnsureOrder, storeInv_addAll, storeInv_new.
  apply store_ext; [apply H1|apply H2|..].
  - by rewrite addAll_ordered, EnsureOrder_ordered.
  - intros n v. rewrite !storeInv_entry by done.
    rewrite postingsList_built_serving, postingsList_built_ordered.
    by rewrite (sortRefs_Permutation_eq _ _ (appended_Permutation (mkLabel n v) _ _ Hp)).
Qed.

(** X3: adding the series to a store that serves reads, where every [Add]
    repairs the order of the lists it touches, gives the same store as
    adding them to an unordered store and calling [EnsureOrder] once at the
    end. *)
Theorem serving_build_agrees_with_EnsureOrder (adds : list (SeriesRef * list Label)) :
  addAll adds NewMemPostings = EnsureOrder (addAll adds NewUnorderedMemPostings).
Proof. by apply built_serving_eq. Qed.

(** X4: the store obtained in the serving phase does not depend on the
    order of the [Add] calls. *)
Theorem serving_build_order_irrelevant (adds adds' : list (SeriesRef * list Label)) :
  adds ≡ₚ adds' →
  addAll adds NewMemPostings = addAll adds' NewMemPostings ∧
  EnsureOrder (addAll adds NewUnorderedMemPostings)
  = EnsureOrder (addAll adds' NewUnorderedMemPostings).
Proof.
  intros Hp. split.
  - rewrite (built_serving_eq adds adds' Hp). symmetry. by apply built_serving_eq.
  - rewrite <- (built_serving_eq adds adds' Hp). symmetry. by apply built_serving_eq.
Qed.

Lemma serving_build_order_irrelevant_witness :
  let a := (7, [mkLabel "env" "prod"]) in
  let b := (3, [mkLabel "env" "prod"; mkLabel "job" "a"]) in
  addAll [a; b] NewMemPostings = addAll [b; a] NewMemPostings ∧
  EnsureOrder (addAll [a; b] NewUnorderedMemPostings)
  = EnsureOrder (addAll [b; a] NewUnorderedMemPostings).
Proof.
  apply (serving_build_order_irrelevant
           [(7, [mkLabel "env" "prod"]); (3, [mkLabel "env" "prod"; mkLabel "job" "a"])]
           [(3, [mkLabel "env" "prod"; mkLabel "job" "a"]); (7, [mkLabel "env" "prod"])]).
  apply perm_swap.
Defined.
(** * [Delete]: composition with itself, with [EnsureOrder], [Add] and [Get] *)

Lemma deleteFrom_filter (D : gset SeriesRef) l :
  l ≠ [] →
  deleteFrom D l = match filter (λ id, id ∉ D) l with [] => None | r => Some r end.
Proof.
  intros Hl. unfold deleteFrom. case_decide as Hall; [|done].
  rewrite filter_all by done. by destruct l.
Qed.

Lemma deleteFrom_nil (D : gset SeriesRef) : deleteFrom D [] = Some [].
Proof. unfold deleteFrom. by rewrite decide_True by constructor. Qed.

Lemma filter_filter_union (D1 D2 : gset SeriesRef) (l : list SeriesRef) :
  filter (λ id, id ∉ D1) (filter (λ id, id ∉ D2) l) = filter (λ id, id ∉ D1 ∪ D2) l.
Proof.
  induction l as [|x l IH]; [done|].
  rewrite (filter_cons (λ id, id ∉ D2)), (filter_cons (λ id, id ∉ D1 ∪ D2)).
  destruct (decide (x ∉ D2)) as [H2|H2].
  - rewrite filter_cons. destruct (decide (x ∉ D1)) as [H1|H1].
    + rewrite decide_True by (rewrite not_elem_of_union; done). by rewrite IH.
    + rewrite decide_False by (rewrite not_elem_of_union; tauto). done.
  - rewrite decide_False by (rewrite not_elem_of_union; tauto). done.
Qed.

Lemma deleteFrom_union (D1 D2 : gset SeriesRef) (l : list SeriesRef) :
  deleteFrom D2 l ≫= deleteFrom D1 = deleteFrom (D1 ∪ D2) l.
Proof.
  destruct l as [|x l]; [by rewrite !deleteFrom_nil; simpl; rewrite deleteFrom_nil|].
  rewrite (deleteFrom_filter D2), (deleteFrom_filter (D1 ∪ D2)) by done.
  rewrite <- filter_filter_union.
  destruct (filter (λ id, id ∉ D2) (x :: l)) as [|y r]; [done|].
  simpl. by rewrite deleteFrom_filter.
Qed.

Lemma Delete_Delete (D1 D2 : gset SeriesRef) p :
  Delete D1 (Delete D2 p) = Delete (D1 ∪ D2) p.
Proof.
  apply store_ext; [apply Delete_inner_nonempty..| |].
  - by rewrite !Delete_ordered.
  - intros n v. rewrite !postingsEntry_Delete.
    destruct (postingsEntry n v p) as [l|]; [simpl|done]. apply deleteFrom_union.
Qed.

(** X5: deleting two sets of references one after the other is deleting
    their union at once; in particular deleting the same set twice is
    deleting it once. *)
Theorem Delete_twice_is_Delete_of_union (D1 D2 : gset SeriesRef) (p : MemPostings) :
  Delete D1 (Delete D2 p) = Delete (D1 ∪ D2) p ∧
  Delete D1 (Delete D1 p) = Delete D1 p.
Proof.
  split; [apply Delete_Delete|].
  by rewrite Delete_Delete, union_idemp_L.
Qed.

Lemma EnsureOrder_inner_nonempty p :
  (∀ n nm, m p !! n = Some nm → nm ≠ ∅) →
  ∀ n nm, m (EnsureOrder p) !! n = Some nm → nm ≠ ∅.
Proof.
  intros Hnm n nm. unfold EnsureOrder. destruct (ordered p); [apply Hnm|]. simpl.
  rewrite lookup_fmap. destruct (m p !! n) as [nm0|] eqn:Hn; simpl; [|done].
  intros [= <-]. intros He. apply fmap_empty_inv in He. by apply (Hnm n nm0).
Qed.

Lemma sortRefs_filter (P : SeriesRef → Prop) `{!∀ x, Decision (P x)} l :
  sortRefs (filter P l) = filter P (sortRefs l).
Proof.
  apply sorted_le_unique; [apply sortRefs_sorted| |].
  - apply StronglySorted_filter, sortRefs_sorted.
  - by rewrite !sortRefs_Permutation.
Qed.

Lemma deleteFrom_sortRefs (D : gset SeriesRef) l :
  sortRefs <$> deleteFrom D l = deleteFrom D (sortRefs l).
Proof.
  destruct (decide (l = [])) as [->|Hl]; [done|].
  rewrite !deleteFrom_filter by (done || by apply sortRefs_nonempty).
  rewrite <- sortRefs_filter.
  destruct (filter (λ id, id ∉ D) l) as [|x r] eqn:Hf; [done|]. simpl.
  destruct (sortRefs (x :: r)) eqn:Hs; [|done].
  by apply sortRefs_nonempty in Hs.
Qed.

(** X6: [Delete] and [EnsureOrder] commute: deleting references before
    the lists are sorted gives the same store as deleting them
    afterwards. *)
Theorem Delete_commutes_with_EnsureOrder (D : gset SeriesRef) (p : MemPostings) :
  EnsureOrder (Delete D p) = Delete D (EnsureOrder p).
Proof.
  apply store_ext.
  - apply EnsureOrder_inner_nonempty, Delete_inner_nonempty.
  - apply Delete_inner_nonempty.
  - by rewrite Delete_ordered, !EnsureOrder_ordered.
  - intros n v.
    rewrite postingsEntry_EnsureOrder, !postingsEntry_Delete, postingsEntry_EnsureOrder,
      Delete_ordered.
    destruct (ordered p); [done|].
    destruct (postingsEntry n v p) as [l|]; [simpl|done]. apply deleteFrom_sortRefs.
Qed.

(** X7: a read after [Delete] returns the former list without the deleted
    references, in the former order; no deleted reference is ever
    returned. *)
Theorem Get_after_Delete (D : gset SeriesRef) (p : MemPostings) (n v : string) :
  expandsTo (Get n v (Delete D p)) (filter (λ id, id ∉ D) (postingsList n v p)) ∧
  expandsTo (All (Delete D p)) (filter (λ id, id ∉ D) (postingsList EmptyString EmptyString p)) ∧
  ∀ res e fuel id, ExpandPostings fuel (Get n v (Delete D p)) = Some (res, e) →
                   id ∈ D → id ∉ res.
Proof.
  assert (Hget : ∀ n v, expandsTo (Get n v (Delete D p))
                          (filter (λ id, id ∉ D) (postingsList n v p))).
  { intros n' v'. rewrite <- postingsList_Delete. apply expandsTo_Get. }
  split; [apply Hget|]. split; [apply Hget|].
  intros res e fuel id Hex Hid Hin.
  assert (Hres : res = filter (λ id, id ∉ D) (postingsList n v p)).
  { pose proof (Hget n v) as Hg. unfold Get in Hex, Hg.
    fold (postingsList n v (Delete D p)) in Hex, Hg.
    rewrite <- postingsList_Delete in *.
    destruct (postingsList n v (Delete D p)) as [|x l] eqn:Hl.
    - destruct fuel; [done|]. simpl in Hex. by injection Hex as <- _.
    - destruct (decide (length (x :: l) < fuel)%nat) as [Hlt|Hge].
      + rewrite (Hg fuel Hlt) in Hex. by injection Hex as <- _.
      + exfalso. clear Hg. revert Hex.
        assert (Hnone : ∀ (l : list SeriesRef) c fuel res e, (fuel ≤ length l)%nat →
                  ExpandPostings fuel (PIn (mkListPostings l c)) ≠ Some (res, e)).
        { clear. intros l. induction l as [|y l IH]; intros c fuel res e Hf.
          - destruct fuel; [done|simpl in Hf; lia].
          - destruct fuel as [|fuel]; [done|]. cbn [ExpandPostings PNext liftStep].
            change (Next (mkListPostings (y :: l) c)) with (true, mkListPostings l y).
            cbn. specialize (IH y fuel). simpl in Hf.
            destruct (ExpandPostings fuel (PIn (mkListPostings l y))) as [[r e']|] eqn:Hr;
              [|done].
            exfalso. by apply (IH r e'); [lia|]. }
        apply Hnone. lia. }
  subst res. apply list_elem_of_filter in Hin as [Hno _]. done.
Qed.
(** * [Add] followed by [Delete] *)

Lemma filter_ne_repairOrder (id : SeriesRef) (l : list SeriesRef) :
  filter (λ x, x ≠ id) (repairOrder (length (l ++ [id]) - 1) (l ++ [id]))
  = filter (λ x, x ≠ id) l.
Proof.
  rewrite length_app, Nat.add_sub.
  destruct (repairOrder_split l [] id) as (p1 & p2 & -> & _ & _ & ->).
  rewrite app_nil_r, !filter_app, filter_cons_False; [done|]. by intros [].
Qed.

Lemma postingsList_addFor_filter id l p n v :
  filter (λ x, x ≠ id) (postingsList n v (addFor id l p))
  = filter (λ x, x ≠ id) (postingsList n v p).
Proof.
  rewrite postingsList_addFor. case_decide; [|done]. simpl.
  destruct (ordered p); [apply filter_ne_repairOrder|].
  rewrite filter_app, filter_cons_False, filter_nil, app_nil_r; [done|]. by intros [].
Qed.

Lemma postingsList_Add_filter id lset p n v :
  filter (λ x, x ≠ id) (postingsList n v (Add id lset p))
  = filter (λ x, x ≠ id) (postingsList n v p).
Proof.
  rewrite Add_foldl. generalize (lset ++ [allPostingsKey]). intros ls. revert p.
  induction ls as [|l ls IH]; intros p; [done|].
  simpl. by rewrite IH, postingsList_addFor_filter.
Qed.

Lemma filter_not_singleton (id : SeriesRef) (l : list SeriesRef) :
  filter (λ x, x ∉ ({[id]} : gset SeriesRef)) l = filter (λ x, x ≠ id) l.
Proof. apply filter_ext_in. intros x _. by rewrite not_elem_of_singleton. Qed.

Lemma appended_elem l adds x : x ∈ appended l adds → x ∈ adds.*1.
Proof.
  unfold appended. intros (a & Hx & Ha)%list_elem_of_bind.
  apply elem_of_replicate in Hx as [-> _]. apply list_elem_of_fmap. by exists a.
Qed.

Lemma postingsList_built_elem adds n v x :
  x ∈ postingsList n v (addAll adds NewMemPostings) → x ∈ adds.*1.
Proof.
  rewrite postingsList_built_serving, sortRefs_Permutation. apply appended_elem.
Qed.

(** X8: on a store without empty entry that does not hold the reference
    [id], adding a series under [id] and then deleting [id] gives back the
    store as it was: the lists that received [id] get their former
    contents, and the entries created for it disappear. *)
Theorem Add_then_Delete_restores (id : SeriesRef) (lset : list Label) (p : MemPostings) :
  storeInv p → unusedRef id p →
  Delete {[id]} (Add id lset p) = p.
Proof.
  intros Hinv Hun. apply store_ext; [apply Delete_inner_nonempty|apply Hinv|..].
  - by rewrite Delete_ordered, Add_ordered.
  - intros n v.
    rewrite postingsEntry_Delete, (storeInv_entry n v (Add id lset p)), (storeInv_entry n v p)
      by (done || by apply storeInv_Add).
    assert (Hf : filter (λ x, x ≠ id) (postingsList n v (Add id lset p)) = postingsList n v p).
    { rewrite postingsList_Add_filter. apply filter_all, Forall_forall.
      intros x Hx ->. by apply (Hun n v). }
    destruct (postingsList n v (Add id lset p)) as [|x r] eqn:HL.
    + by rewrite <- Hf.
    + simpl. rewrite deleteFrom_filter by done. by rewrite filter_not_singleton, Hf.
Qed.

Lemma Add_then_Delete_restores_witness :
  let p := addAll [(7, [mkLabel "env" "prod"])] NewMemPostings in
  Delete {[3]} (Add 3 [mkLabel "env" "prod"; mkLabel "job" "a"] p) = p.
Proof.
  apply (Add_then_Delete_restores 3 [mkLabel "env" "prod"; mkLabel "job" "a"]
           (addAll [(7, [mkLabel "env" "prod"])] NewMemPostings)).
  - apply storeInv_addAll, storeInv_new.
  - intros n v Hin. apply postingsList_built_elem in Hin.
    apply list_elem_of_singleton in Hin. discriminate Hin.
Defined.

(** X9: deleting references that occur in no postings list leaves a store
    without empty inner map unchanged; in particular deleting the empty set
    does. *)
Theorem Delete_of_absent_references (D : gset SeriesRef) (p : MemPostings) :
  (∀ n nm, m p !! n = Some nm → nm ≠ ∅) →
  (∀ id, id ∈ D → unusedRef id p) →
  Delete D p = p.
Proof.
  intros Hnm Hun. apply store_ext; [apply Delete_inner_nonempty|apply Hnm|..].
  - apply Delete_ordered.
  - intros n v. rewrite postingsEntry_Delete.
    destruct (postingsEntry n v p) as [l|] eqn:He; [simpl|done].
    unfold deleteFrom. rewrite decide_True; [done|].
    apply Forall_forall. intros x Hx HD. apply (Hun x HD n v).
    by rewrite postingsList_entry, He.
Qed.

Lemma Delete_of_absent_references_witness :
  let p := addAll [(7, [mkLabel "env" "prod"])] NewMemPostings in
  Delete {[3; 4]} p = p ∧ Delete ∅ p = p.
Proof.
  split.
  - apply (Delete_of_absent_references {[3; 4]}
             (addAll [(7, [mkLabel "env" "prod"])] NewMemPostings)).
    + apply storeInv_addAll, storeInv_new.
    + intros id Hid n v Hin. apply postingsList_built_elem in Hin.
      apply list_elem_of_singleton in Hin. subst id.
      apply elem_of_union in Hid as [Hid|Hid]; apply elem_of_singleton in Hid;
        discriminate Hid.
  - apply (Delete_of_absent_references ∅
             (addAll [(7, [mkLabel "env" "prod"])] NewMemPostings)).
    + apply storeInv_addAll, storeInv_new.
    + intros id Hid. by apply not_elem_of_empty in Hid.
Defined.
(** * Listing the label names and values of the store *)

Lemma LabelValues_elem n v p : v ∈ LabelValues n p ↔ is_Some (postingsEntry n v p).
Proof.
  unfold LabelValues, postingsEntry. rewrite list_elem_of_fmap. split.
  - intros ([v' l] & -> & Hin). apply elem_of_map_to_list in Hin. simpl.
    destruct (m p !! n) as [nm|]; simpl in *; [by rewrite Hin|].
    by rewrite lookup_empty in Hin.
  - intros [l Hl]. exists (v, l). split; [done|]. apply elem_of_map_to_list.
    destruct (m p !! n) as [nm|]; simpl in *; done.
Qed.

Lemma LabelValues_NoDup n p : NoDup (LabelValues n p).
Proof. apply NoDup_fst_map_to_list. Qed.

Lemma LabelNames_elem n p : n ∈ LabelNames p ↔ n ≠ EmptyString ∧ is_Some (m p !! n).
Proof.
  unfold LabelNames. destruct (size (m p) =? 0)%nat eqn:Hs.
  - apply Nat.eqb_eq, map_size_empty_iff in Hs. rewrite Hs, lookup_empty.
    split; [by intros ?%elem_of_nil|]. by intros [_ []%is_Some_None].
  - rewrite list_elem_of_filter, list_elem_of_fmap. simpl. split.
    + intros [Hne ([n' nm] & -> & Hin)]. split; [done|].
      apply elem_of_map_to_list in Hin. by exists nm.
    + intros [Hne [nm Hnm]]. split; [done|]. exists (n, nm). split; [done|].
      by apply elem_of_map_to_list.
Qed.

Lemma LabelNames_NoDup p : NoDup (LabelNames p).
Proof.
  unfold LabelNames. destruct (size (m p) =? 0)%nat; [constructor|].
  apply NoDup_filter, NoDup_fst_map_to_list.
Qed.

Lemma addFor_name_lookup id l p n :
  is_Some (m (addFor id l p) !! n) ↔ n = Name l ∨ is_Some (m p !! n).
Proof.
  unfold addFor. simpl. destruct (decide (Name l = n)) as [<-|Hn].
  - rewrite lookup_insert_eq. split; [by left|by eexists].
  - rewrite lookup_insert_ne by done. split; [by right|]. by intros [->|].
Qed.

Lemma foldl_addFor_name_lookup id ls : ∀ p n,
  is_Some (m (foldl (λ p l, addFor id l p) p ls) !! n) ↔
  n ∈ Name <$> ls ∨ is_Some (m p !! n).
Proof.
  induction ls as [|l ls IH]; intros p n; simpl.
  - split; [by right|]. by intros [?%elem_of_nil|].
  - rewrite IH, addFor_name_lookup, elem_of_cons. tauto.
Qed.

Lemma foldl_addFor_entry id ls : ∀ p n v,
  is_Some (postingsEntry n v (foldl (λ p l, addFor id l p) p ls)) ↔
  mkLabel n v ∈ ls ∨ is_Some (postingsEntry n v p).
Proof.
  induction ls as [|l ls IH]; intros p n v; simpl.
  - split; [by right|]. by intros [?%elem_of_nil|].
  - rewrite IH, postingsEntry_addFor, elem_of_cons. case_decide as Hl.
    + subst l. split; [by left; left|]. intros _. by right.
    + split; [intros [|]; auto|]. intros [[Heq|]|]; auto. by symmetry in Heq.
Qed.

Lemma storeInv_Get_sentinel n v p :
  storeInv p → Get n v p = PErr EmptyPostings ↔ postingsEntry n v p = None.
Proof.
  intros Hinv. rewrite (storeInv_entry n v p Hinv). unfold Get.
  fold (postingsList n v p). by destruct (postingsList n v p).
Qed.

(** X10: [LabelValues] lists, each once, exactly the values that have an
    entry under the name; on a store without empty entry these are the
    values for which [Get] does not return the empty sentinel; after an
    [Add] the values of the added labels are listed too. *)
Theorem LabelValues_lists_the_entries (n : string) (p : MemPostings) :
  storeInv p →
  NoDup (LabelValues n p) ∧
  (∀ v, v ∈ LabelValues n p ↔ is_Some (postingsEntry n v p)) ∧
  (∀ v, v ∈ LabelValues n p ↔ Get n v p ≠ PErr EmptyPostings) ∧
  (∀ id lset v, v ∈ LabelValues n (Add id lset p) ↔
                v ∈ LabelValues n p ∨ mkLabel n v ∈ lset ∨ mkLabel n v = allPostingsKey).
Proof.
  intros Hinv. split; [apply LabelValues_NoDup|]. split; [intros v; apply LabelValues_elem|].
  split.
  - intros v. rewrite LabelValues_elem, (storeInv_Get_sentinel n v p Hinv).
    rewrite <- not_eq_None_Some. done.
  - intros id lset v. rewrite !LabelValues_elem, Add_foldl, foldl_addFor_entry.
    rewrite elem_of_app, list_elem_of_singleton. tauto.
Qed.

Lemma LabelValues_lists_the_entries_witness :
  let p := addAll [(7, [mkLabel "env" "prod"])] NewMemPostings in
  NoDup (LabelValues "env" p) ∧
  (∀ v, v ∈ LabelValues "env" p ↔ is_Some (postingsEntry "env" v p)) ∧
  (∀ v, v ∈ LabelValues "env" p ↔ Get "env" v p ≠ PErr EmptyPostings) ∧
  (∀ id lset v, v ∈ LabelValues "env" (Add id lset p) ↔
                v ∈ LabelValues "env" p ∨ mkLabel "env" v ∈ lset ∨
                mkLabel "env" v = allPostingsKey).
Proof.
  apply (LabelValues_lists_the_entries "env"
           (addAll [(7, [mkLabel "env" "prod"])] NewMemPostings)).
  apply storeInv_addAll, storeInv_new.
Defined.

(** X11: [LabelNames] lists, each once, exactly the names of the store
    other than the reserved empty name; on a store without empty entry
    these are the names with a value in [LabelValues]; after an [Add] the
    names of the added labels are listed too. *)
Theorem LabelNames_lists_the_names (p : MemPostings) :
  storeInv p →
  NoDup (LabelNames p) ∧
  (∀ n, n ∈ LabelNames p ↔ n ≠ EmptyString ∧ is_Some (m p !! n)) ∧
  (∀ n, n ∈ LabelNames p ↔ n ≠ EmptyString ∧ LabelValues n p ≠ []) ∧
  (∀ id lset n, n ∈ LabelNames (Add id lset p) ↔
                n ≠ EmptyString ∧ (n ∈ LabelNames p ∨ n ∈ Name <$> lset)).
Proof.
  intros [Hnm _]. split; [apply LabelNames_NoDup|]. split; [intros n; apply LabelNames_elem|].
  split.
  - intros n. rewrite LabelNames_elem. apply and_iff_compat_l.
    unfold LabelValues. split.
    + intros [nm Hn]. rewrite Hn. simpl. intros He.
      apply fmap_nil_inv, map_to_list_empty_iff in He. by apply (Hnm n nm).
    + destruct (m p !! n) as [nm|]; [by eexists|]. simpl.
      by rewrite map_to_list_empty.
  - intros id lset n. rewrite !LabelNames_elem, Add_foldl, foldl_addFor_name_lookup.
    rewrite fmap_app, elem_of_app. simpl. rewrite list_elem_of_singleton. tauto.
Qed.

Lemma LabelNames_lists_the_names_witness :
  let p := addAll [(7, [mkLabel "env" "prod"])] NewMemPostings in
  NoDup (LabelNames p) ∧
  (∀ n, n ∈ LabelNames p ↔ n ≠ EmptyString ∧ is_Some (m p !! n)) ∧
  (∀ n, n ∈ LabelNames p ↔ n ≠ EmptyString ∧ LabelValues n p ≠ []) ∧
  (∀ id lset n, n ∈ LabelNames (Add id lset p) ↔
                n ≠ EmptyString ∧ (n ∈ LabelNames p ∨ n ∈ Name <$> lset)).
Proof.
  apply (LabelNames_lists_the_names (addAll [(7, [mkLabel "env" "prod"])] NewMemPostings)).
  apply storeInv_addAll, storeInv_new.
Defined.
(** * [SortedKeys] and [Symbols] *)

(** ** The order of strings and of label pairs *)

Lemma StronglySorted_weaken {A} (R R' : relation A) (l : list A) :
  (∀ a b, R a b → R' a b) → StronglySorted R l → StronglySorted R' l.
Proof.
  intros HR. induction 1 as [|x l Hl IH Hx]; constructor; [done|].
  eapply Forall_impl; [exact Hx|]. intros y. apply HR.
Qed.

Lemma ascii_compare_refl (c : Ascii.ascii) : Ascii.compare c c = Eq.
Proof. unfold Ascii.compare. apply N.compare_refl. Qed.

Lemma ascii_compare_lt_trans (a b c : Ascii.ascii) :
  Ascii.compare a b = Lt → Ascii.compare b c = Lt → Ascii.compare a c = Lt.
Proof.
  unfold Ascii.compare. rewrite !N.compare_lt_iff. lia.
Qed.

Lemma string_compare_refl (s : string) : String.compare s s = Eq.
Proof. induction s as [|c s IH]; [done|]. simpl. by rewrite ascii_compare_refl. Qed.

Lemma string_compare_lt_trans (a : string) : ∀ b c,
  String.compare a b = Lt → String.compare b c = Lt → String.compare a c = Lt.
Proof.
  induction a as [|x a IH]; intros [|y b] [|z c]; simpl; try done.
  destruct (Ascii.compare x y) eqn:Hxy; [|clear IH|done].
  - apply Ascii.compare_eq_iff in Hxy as ->.
    destruct (Ascii.compare y z) eqn:Hyz; [|done..]. apply IH.
  - destruct (Ascii.compare y z) eqn:Hyz; [| |done]; intros _ _.
    + apply Ascii.compare_eq_iff in Hyz as ->. by rewrite Hxy.
    + by rewrite (ascii_compare_lt_trans x y z).
Qed.

(** A comparison function with the three properties of an order. *)
Section Comparison.
Context {A : Type} (cmp : A → A → comparison).
Hypothesis cmp_eq : ∀ a b, cmp a b = Eq ↔ a = b.
Hypothesis cmp_antisym : ∀ a b, cmp a b = CompOpp (cmp b a).
Hypothesis cmp_trans : ∀ a b c, cmp a b = Lt → cmp b c = Lt → cmp a c = Lt.

Lemma cmp_le_alt a b : cmp_le cmp a b ↔ cmp a b = Lt ∨ a = b.
Proof.
  unfold cmp_le. rewrite <- cmp_eq, (cmp_antisym b a).
  destruct (cmp a b); simpl; split; try done; try (by left); try (by right);
    by intros [|].
Qed.

Lemma cmp_le_total : Total (cmp_le cmp).
Proof.
  intros a b. unfold cmp_le. rewrite (cmp_antisym b a).
  destruct (cmp a b); simpl; [by left|by left|by right].
Qed.

Lemma cmp_le_trans : Transitive (cmp_le cmp).
Proof.
  intros a b c. rewrite !cmp_le_alt. intros [Hab | ->] [Hbc | ->]; auto.
  left. by apply (cmp_trans a b c).
Qed.

Lemma cmp_sorted_strict (l : list A) :
  StronglySorted (cmp_le cmp) l → NoDup l → StronglySorted (λ a b, cmp a b = Lt) l.
Proof.
  induction 1 as [|x l Hl IH Hx]; intros Hnd; [constructor|].
  apply NoDup_cons in Hnd as [Hxl Hnd]. constructor; [by apply IH|].
  rewrite Forall_forall in Hx |- *. intros y Hy.
  destruct (proj1 (cmp_le_alt x y) (Hx y Hy)) as [Hlt | ->]; done.
Qed.
End Comparison.

Lemma string_le_cmp a b : string_le a b ↔ cmp_le String.compare a b.
Proof.
  unfold string_le, cmp_le, String.leb. rewrite (String.compare_antisym a b).
  destruct (String.compare b a); simpl; split; done.
Qed.

Lemma string_lt_cmp a b : string_lt a b ↔ String.compare a b = Lt.
Proof. unfold string_lt, String.ltb. destruct (String.compare a b); split; done. Qed.

Lemma string_compare_eq a b : String.compare a b = Eq ↔ a = b.
Proof. split; [apply String.compare_eq_iff|]. intros ->. apply string_compare_refl. Qed.

Lemma sort_Strings_spec (l : list string) :
  NoDup l →
  StronglySorted string_lt (sort_Strings l) ∧ ∀ s, s ∈ sort_Strings l ↔ s ∈ l.
Proof.
  intros Hnd. unfold sort_Strings.
  pose proof (merge_sort_Permutation string_le l) as Hperm.
  split; [|intros s; by rewrite Hperm].
  assert (Htot : Total string_le).
  { intros a b. rewrite !string_le_cmp.
    apply (cmp_le_total String.compare String.compare_antisym). }
  assert (Htr : Transitive string_le).
  { intros a b c. rewrite !string_le_cmp.
    apply (cmp_le_trans String.compare string_compare_eq String.compare_antisym
             (λ a b c, string_compare_lt_trans a b c)). }
  pose proof (StronglySorted_merge_sort string_le l) as Hs.
  rewrite <- Hperm in Hnd.
  eapply StronglySorted_weaken;
    [|apply (cmp_sorted_strict String.compare string_compare_eq String.compare_antisym);
      [|exact Hnd]].
  - intros a b Hab. by apply string_lt_cmp.
  - eapply StronglySorted_weaken; [|exact Hs]. intros a b Hab. by apply string_le_cmp.
Qed.

Lemma keyLess_compare a b : keyLess a b = true ↔ keyCompare a b = Lt.
Proof.
  unfold keyLess, keyCompare, String.ltb. case_bool_decide as Hn; simpl.
  - rewrite Hn, string_compare_refl. by destruct (String.compare (Value a) (Value b)).
  - destruct (String.compare (Name a) (Name b)) eqn:Hc; [|done..].
    by apply String.compare_eq_iff in Hc.
Qed.

Lemma keyCompare_eq a b : keyCompare a b = Eq ↔ a = b.
Proof.
  unfold keyCompare. split.
  - destruct (String.compare (Name a) (Name b)) eqn:Hn; [|done..].
    intros Hv. apply String.compare_eq_iff in Hn, Hv.
    destruct a, b; simpl in *; congruence.
  - intros ->. by rewrite !string_compare_refl.
Qed.

Lemma keyCompare_antisym a b : keyCompare a b = CompOpp (keyCompare b a).
Proof.
  unfold keyCompare. rewrite (String.compare_antisym (Name a) (Name b)).
  destruct (String.compare (Name b) (Name a)); simpl; [|done..].
  apply String.compare_antisym.
Qed.

Lemma keyCompare_trans a b c :
  keyCompare a b = Lt → keyCompare b c = Lt → keyCompare a c = Lt.
Proof.
  unfold keyCompare.
  destruct (String.compare (Name a) (Name b)) eqn:Hab; [| |done].
  - apply String.compare_eq_iff in Hab. rewrite Hab.
    destruct (String.compare (Name b) (Name c)) eqn:Hbc; [|done..].
    apply string_compare_lt_trans.
  - intros _. destruct (String.compare (Name b) (Name c)) eqn:Hbc; [| |done].
    + apply String.compare_eq_iff in Hbc. rewrite <- Hbc, Hab. done.
    + intros _. by rewrite (string_compare_lt_trans _ _ _ Hab Hbc).
Qed.

Lemma key_le_cmp a b : key_le a b ↔ cmp_le keyCompare a b.
Proof.
  unfold key_le, cmp_le. rewrite <- keyLess_compare. by destruct (keyLess b a).
Qed.

Lemma storeKeys_elem l p :
  l ∈ storeKeys p ↔ is_Some (postingsEntry (Name l) (Value l) p).
Proof.
  unfold storeKeys, postingsEntry. rewrite list_elem_of_bind. split.
  - intros ([n nm] & Hl & Hn). apply elem_of_map_to_list in Hn.
    apply list_elem_of_fmap in Hl as (v & -> & Hv). simpl in *.
    apply list_elem_of_fmap in Hv as ([v' lst] & -> & Hv).
    apply elem_of_map_to_list in Hv. rewrite Hn. simpl. by rewrite Hv.
  - destruct l as [n v]. simpl. intros [lst Hl].
    destruct (m p !! n) as [nm|] eqn:Hn; [simpl in Hl|done].
    exists (n, nm). split; [|by apply elem_of_map_to_list].
    apply list_elem_of_fmap. exists v. split; [done|].
    apply list_elem_of_fmap. exists (v, lst). split; [done|].
    by apply elem_of_map_to_list.
Qed.

Lemma storeKeys_NoDup p : NoDup (storeKeys p).
Proof.
  unfold storeKeys. apply NoDup_bind.
  - intros [n1 nm1] [n2 nm2] l Hin1 Hin2 H1 H2.
    apply list_elem_of_fmap in H1 as (v1 & -> & _).
    apply list_elem_of_fmap in H2 as (v2 & [= Hn _] & _). simpl in Hn. subst n2.
    apply elem_of_map_to_list in Hin1, Hin2. congruence.
  - intros [n nm] _. apply NoDup_fmap_2; [|apply NoDup_fst_map_to_list].
    intros v1 v2 [= ->]. done.
  - apply NoDup_map_to_list.
Qed.

Lemma SortedKeys_spec p :
  StronglySorted (λ a b, keyCompare a b = Lt) (SortedKeys p) ∧
  ∀ l, l ∈ SortedKeys p ↔ l ∈ storeKeys p.
Proof.
  unfold SortedKeys.
  pose proof (merge_sort_Permutation key_le (storeKeys p)) as Hperm.
  split; [|intros l; by rewrite Hperm].
  assert (Htot : Total key_le).
  { intros a b. rewrite !key_le_cmp. apply (cmp_le_total keyCompare keyCompare_antisym). }
  assert (Htr : Transitive key_le).
  { intros a b c. rewrite !key_le_cmp.
    apply (cmp_le_trans keyCompare keyCompare_eq keyCompare_antisym keyCompare_trans). }
  pose proof (StronglySorted_merge_sort key_le (storeKeys p)) as Hs.
  apply (cmp_sorted_strict keyCompare keyCompare_eq keyCompare_antisym).
  - eapply StronglySorted_weaken; [|exact Hs]. intros a b Hab. by apply key_le_cmp.
  - rewrite Hperm. apply storeKeys_NoDup.
Qed.

(** X12: [SortedKeys] returns exactly the label pairs that have an entry,
    in strictly increasing order of the name and, under equal names, of the
    value; in particular no pair is listed twice. *)
Theorem SortedKeys_sorted_and_complete (p : MemPostings) :
  StronglySorted (λ a b, keyLess a b = true) (SortedKeys p) ∧
  NoDup (SortedKeys p) ∧
  (∀ l, l ∈ SortedKeys p ↔ is_Some (postingsEntry (Name l) (Value l) p)) ∧
  (∀ a b, keyLess a b = true ↔
          string_lt (Name a) (Name b) ∨ Name a = Name b ∧ string_lt (Value a) (Value b)).
Proof.
  destruct (SortedKeys_spec p) as [Hs Hel]. split; [|split; [|split]].
  - eapply StronglySorted_weaken; [|exact Hs]. intros a b Hab. by apply keyLess_compare.
  - unfold SortedKeys. rewrite merge_sort_Permutation. apply storeKeys_NoDup.
  - intros l. by rewrite Hel, storeKeys_elem.
  - intros a b. rewrite keyLess_compare, !string_lt_cmp. unfold keyCompare.
    destruct (String.compare (Name a) (Name b)) eqn:Hn.
    + apply String.compare_eq_iff in Hn. split; [by right|]. by intros [|[_ ?]].
    + split; [by left|done].
    + split; [done|]. intros [|[Heq _]]; [done|].
      rewrite Heq, string_compare_refl in Hn. done.
Qed.
(** * [Symbols] and [Iter] *)

Lemma foldl_add_elem (vs : list string) : ∀ (init : gset string) s,
  s ∈ foldl (λ acc v, {[v]} ∪ acc) init vs ↔ s ∈ vs ∨ s ∈ init.
Proof.
  induction vs as [|v vs IH]; intros init s; simpl.
  - split; [by right|]. by intros [?%elem_of_nil|].
  - rewrite IH, elem_of_union, elem_of_singleton, elem_of_cons. tauto.
Qed.

Lemma addSymbols_elem (symbols : gset string) ne s :
  s ∈ addSymbols symbols ne ↔ s = ne.1 ∨ s ∈ (map_to_list ne.2).*1 ∨ s ∈ symbols.
Proof.
  unfold addSymbols. rewrite foldl_add_elem, elem_of_union, elem_of_singleton. tauto.
Qed.

Lemma foldl_addSymbols_elem (es : list (string * gmap string (list SeriesRef))) :
  ∀ (init : gset string) s,
  s ∈ foldl addSymbols init es ↔
  s ∈ init ∨ ∃ ne, ne ∈ es ∧ (s = ne.1 ∨ s ∈ (map_to_list ne.2).*1).
Proof.
  induction es as [|ne es IH]; intros init s; simpl.
  - split; [by left|]. intros [|(? & ?%elem_of_nil & _)]; done.
  - rewrite IH, addSymbols_elem. split.
    + intros [[Hs|[Hs|Hs]]|(ne' & Hin & Hs)].
      * right. exists ne. split; [left|]; auto.
      * right. exists ne. split; [left|]; auto.
      * by left.
      * right. exists ne'. split; [by right|done].
    + intros [Hs|(ne' & Hin & Hs)]; [by left; right; right|].
      apply elem_of_cons in Hin as [->|Hin]; [left; tauto|].
      right. by exists ne'.
Qed.

(** X13: [Symbols] returns, in strictly increasing order and each once,
    exactly the strings that are a label name or a label value of the
    store. *)
Theorem Symbols_sorted_and_complete (p : MemPostings) :
  StronglySorted string_lt (Symbols p) ∧
  ∀ s, s ∈ Symbols p ↔ is_Some (m p !! s) ∨ ∃ n, s ∈ LabelValues n p.
Proof.
  unfold Symbols.
  destruct (sort_Strings_spec
              (elements (foldl addSymbols (∅ : gset string) (map_to_list (m p)))))
    as [Hs Hel]; [apply NoDup_elements|].
  split; [done|]. intros s.
  rewrite Hel, elem_of_elements, foldl_addSymbols_elem. split.
  - intros [?%not_elem_of_empty|([n nm] & Hin & Hs')]; [done|].
    apply elem_of_map_to_list in Hin. simpl in Hs'. destruct Hs' as [->|Hs'].
    + left. by exists nm.
    + right. exists n. unfold LabelValues. by rewrite Hin.
  - intros [[nm Hn]|[n Hn]]; right.
    + exists (s, nm). split; [by apply elem_of_map_to_list|by left].
    + unfold LabelValues in Hn. destruct (m p !! n) as [nm|] eqn:Hnm; simpl in Hn.
      * exists (n, nm). split; [by apply elem_of_map_to_list|by right].
      * by rewrite map_to_list_empty in Hn; apply elem_of_nil in Hn.
Qed.

Lemma storeEntries_elem l lst p :
  (l, lst) ∈ storeEntries p ↔ postingsEntry (Name l) (Value l) p = Some lst.
Proof.
  unfold storeEntries, postingsEntry. rewrite list_elem_of_bind. split.
  - intros ([n nm] & Hl & Hn). apply elem_of_map_to_list in Hn.
    apply list_elem_of_fmap in Hl as ([v lst'] & [= -> ->] & Hv).
    apply elem_of_map_to_list in Hv. simpl in *. by rewrite Hn.
  - destruct l as [n v]. simpl. intros Hl.
    destruct (m p !! n) as [nm|] eqn:Hn; [simpl in Hl|done].
    exists (n, nm). split; [|by apply elem_of_map_to_list].
    apply list_elem_of_fmap. exists (v, lst). split; [done|].
    by apply elem_of_map_to_list.
Qed.

Lemma storeEntries_keys p : (storeEntries p).*1 = storeKeys p.
Proof.
  unfold storeEntries, storeKeys.
  induction (map_to_list (m p)) as [|[n nm] es IH]; [done|].
  rewrite !bind_cons, fmap_app, IH. f_equal.
  rewrite <- !list_fmap_compose. done.
Qed.

Lemma iterLoop_recordCall (es : list (Label * list SeriesRef)) : ∀ log,
  iterLoop recordCall es log = (log ++ ((λ e, (e.1, newListPostings e.2)) <$> es), None).
Proof.
  induction es as [|e es IH]; intros log; simpl.
  - by rewrite app_nil_r.
  - rewrite IH. by rewrite <- app_assoc.
Qed.

Lemma iterLoop_succeed {S : Type} (f : Label → ListPostings → S → S * option Error)
    (es : list (Label * list SeriesRef)) (s s' : S) :
  callsSucceed f es s s' → iterLoop f es s = (s', None).
Proof.
  induction 1 as [s|e es s s1 s2 Hf _ IH]; simpl; [done|]. by rewrite Hf.
Qed.

Lemma iterLoop_fail {S : Type} (f : Label → ListPostings → S → S * option Error)
    (pre : list (Label * list SeriesRef)) (x : Label * list SeriesRef)
    (post : list (Label * list SeriesRef)) (s s1 s2 : S) (err : Error) :
  callsSucceed f pre s s1 →
  f x.1 (newListPostings x.2) s1 = (s2, Some err) →
  iterLoop f (pre ++ x :: post) s = (s2, Some err).
Proof.
  induction 1 as [s|e es s s1 s1' Hf _ IH]; simpl; intros Hx.
  - by rewrite Hx.
  - rewrite Hf. by apply IH.
Qed.

Lemma iterLoop_cases {S : Type} (f : Label → ListPostings → S → S * option Error)
    (es : list (Label * list SeriesRef)) : ∀ s,
  (∃ s', callsSucceed f es s s') ∨
  (∃ pre x post s1 s2 err,
     es = pre ++ x :: post ∧ callsSucceed f pre s s1 ∧
     f x.1 (newListPostings x.2) s1 = (s2, Some err)).
Proof.
  induction es as [|e es IH]; intros s.
  { left. exists s. constructor. }
  destruct (f e.1 (newListPostings e.2) s) as [s1 [err|]] eqn:Hf.
  { right. exists [], e, es, s, s1, err. split; [done|]. split; [constructor|done]. }
  destruct (IH s1) as [(s' & Hs')|(pre & x & post & s2 & s3 & err & -> & Hpre & Hx)].
  - left. exists s'. by econstructor.
  - right. exists (e :: pre), x, post, s2, s3, err.
    split; [done|]. split; [by econstructor|done].
Qed.

Lemma callsSucceed_failOn (bad : Label) (err : Error) (es : list (Label * list SeriesRef)) :
  ∀ n : nat, bad ∉ es.*1 → callsSucceed (failOn bad err) es n (n + length es)%nat.
Proof.
  induction es as [|e es IH]; intros n Hbad.
  { rewrite Nat.add_0_r. constructor. }
  rewrite fmap_cons, not_elem_of_cons in Hbad. destruct Hbad as [Hne Hbad].
  apply (callsSucceed_cons _ e es n (S n)).
  - unfold failOn. by rewrite bool_decide_eq_false_2.
  - replace (n + length (e :: es))%nat with (S n + length es)%nat by (simpl; lia).
    by apply IH.
Qed.

(** X14: [Iter] visits the entries of the store, each label pair once.
    When every call of the function succeeds, [Iter] has called it on
    every entry, with the label pair and a new list iterator over the
    postings list, and returns nil.  When the calls on the entries before
    an entry succeed and the call on this entry returns an error, [Iter]
    returns this error and the state is the one left by the failing call:
    no further call is made.  One of the two cases always applies.  A
    function that fails on one label pair makes [Iter] return its error
    after the calls up to this entry when the pair has an entry, and is
    called on every entry without error otherwise. *)
Theorem Iter_visits_every_entry_once (p : MemPostings) :
  NoDup (storeEntries p).*1 ∧
  (∀ l lst, (l, lst) ∈ storeEntries p ↔ postingsEntry (Name l) (Value l) p = Some lst) ∧
  (∃ log, Iter recordCall p [] = (log, None) ∧ NoDup log.*1 ∧
          ∀ l it, (l, it) ∈ log ↔
                  ∃ lst, postingsEntry (Name l) (Value l) p = Some lst ∧
                         it = newListPostings lst) ∧
  (∀ (S : Type) (f : Label → ListPostings → S → S * option Error) (s s' : S),
     callsSucceed f (storeEntries p) s s' → Iter f p s = (s', None)) ∧
  (∀ (S : Type) (f : Label → ListPostings → S → S * option Error) (s s1 s2 : S)
     pre x post err,
     storeEntries p = pre ++ x :: post →
     callsSucceed f pre s s1 →
     f x.1 (newListPostings x.2) s1 = (s2, Some err) →
     Iter f p s = (s2, Some err)) ∧
  (∀ (S : Type) (f : Label → ListPostings → S → S * option Error) (s : S),
     (∃ s', callsSucceed f (storeEntries p) s s') ∨
     (∃ pre x post s1 s2 err,
        storeEntries p = pre ++ x :: post ∧ callsSucceed f pre s s1 ∧
        f x.1 (newListPostings x.2) s1 = (s2, Some err))) ∧
  (∀ bad err,
     match postingsEntry (Name bad) (Value bad) p with
     | Some lst =>
         ∃ pre post, storeEntries p = pre ++ (bad, lst) :: post ∧
                     Iter (failOn bad err) p 0%nat = (S (length pre), Some err)
     | None => Iter (failOn bad err) p 0%nat = (length (storeEntries p), None)
     end).
Proof.
  assert (Hnd : NoDup (storeEntries p).*1).
  { rewrite storeEntries_keys. apply storeKeys_NoDup. }
  split; [done|]. split; [intros l lst; apply storeEntries_elem|].
  split; [|split; [|split; [|split]]].
  - exists ((λ e, (e.1, newListPostings e.2)) <$> storeEntries p).
    split; [unfold Iter; by rewrite iterLoop_recordCall|]. split.
    + rewrite <- list_fmap_compose.
      replace ((fst ∘ (λ e : Label * list SeriesRef, (e.1, newListPostings e.2))))
        with (fst : Label * list SeriesRef → Label) by done.
      done.
    + intros l it. rewrite list_elem_of_fmap. split.
      * intros ([l' lst] & [= -> ->] & Hin). exists lst. by rewrite <- storeEntries_elem.
      * intros (lst & He & ->). exists (l, lst). by rewrite storeEntries_elem.
  - intros S f s s' Hall. unfold Iter. by apply iterLoop_succeed.
  - intros S f s s1 s2 pre x post err Hes Hpre Hx. unfold Iter. rewrite Hes.
    by apply (iterLoop_fail f pre x post s s1 s2 err).
  - intros S f s. apply iterLoop_cases.
  - intros bad err. destruct (postingsEntry (Name bad) (Value bad) p) as [lst|] eqn:He.
    + apply storeEntries_elem, list_elem_of_split in He as (pre & post & Hes).
      exists pre, post. split; [done|]. unfold Iter. rewrite Hes.
      rewrite Hes, fmap_app, fmap_cons in Hnd. apply NoDup_app in Hnd as (_ & Hpre & _).
      apply (iterLoop_fail (failOn bad err) pre (bad, lst) post 0%nat (0 + length pre)%nat).
      * apply callsSucceed_failOn. intros Hin. apply (Hpre bad Hin). by left.
      * unfold failOn. simpl. by rewrite bool_decide_eq_true_2.
    + unfold Iter. apply (iterLoop_succeed (failOn bad err) _ 0%nat (0 + _)%nat).
      apply callsSucceed_failOn. intros Hin.
      apply list_elem_of_fmap in Hin as ([l lst] & -> & Hin). simpl in He.
      apply storeEntries_elem in Hin. simpl in Hin. by rewrite Hin in He.
Qed.

Lemma Iter_visits_every_entry_once_witness :
  let p := Add 7 [mkLabel "env" "prod"; mkLabel "job" "api"] NewMemPostings in
  Iter (failOn (mkLabel "job" "api") "boom") p 0%nat = (2%nat, Some "boom").
Proof.
  intros p.
  destruct (Iter_visits_every_entry_once p) as (_ & _ & _ & _ & Hfail & _).
  apply (Hfail nat (failOn (mkLabel "job" "api") "boom") 0%nat 1%nat 2%nat
           [(mkLabel "env" "prod", [7])] (mkLabel "job" "api", [7])
           [(allPostingsKey, [7])] "boom").
  - vm_compute. reflexivity.
  - eapply callsSucceed_cons; [reflexivity|constructor].
  - reflexivity.
Defined.
(** * The list-backed and the byte-encoded iterator *)

Lemma sorted_le_lookup (l : list SeriesRef) (i j : nat) (a b : SeriesRef) :
  StronglySorted N.le l → (i ≤ j)%nat → l !! i = Some a → l !! j = Some b → a ≤ b.
Proof.
  intros Hs. revert i j. induction Hs as [|x l Hl IH Hx]; intros i j Hij Ha Hb; [done|].
  destruct i as [|i], j as [|j]; simpl in *; [|..].
  - injection Ha as <-. injection Hb as <-. lia.
  - injection Ha as <-. rewrite Forall_forall in Hx. apply Hx.
    by eapply list_elem_of_lookup_2.
  - lia.
  - apply (IH i j); [lia|done..].
Qed.

(** The binary search of [Seek] on an increasing list: [g i] tells whether
    the value at index [i] has reached [x]. *)
Lemma search_sorted (l : list SeriesRef) (x : SeriesRef) (g : nat → bool) :
  StronglySorted N.le l →
  (∀ i y, l !! i = Some y → g i = (x <=? y)) →
  seekList x l = drop (sort_Search (length l) g) l.
Proof.
  intros Hs Hg.
  pose proof (sort_Search_spec g (length l)) as Hsp.
  destruct Hsp as (Hr & Hlo & Hhi).
  { intros i j Hij Hi.
    destruct (lookup_lt_is_Some_2 l i ltac:(lia)) as [a Ha].
    destruct (lookup_lt_is_Some_2 l j ltac:(lia)) as [b Hb].
    rewrite (Hg i a Ha) in Hi. rewrite (Hg j b Hb).
    apply N.leb_le in Hi. apply N.leb_le.
    pose proof (sorted_le_lookup l i j a b Hs ltac:(lia) Ha Hb). lia. }
  apply seekList_drop.
  - intros k y Hk Hy. specialize (Hlo k Hk). rewrite (Hg k y Hy) in Hlo.
    by apply N.leb_gt in Hlo.
  - intros y Hy. rewrite <- N.leb_le, <- (Hg _ y Hy). apply Hhi.
    split; [done|]. by eapply lookup_lt_Some.
Qed.

Lemma ListPostings_Seek_sorted (l : list SeriesRef) (c x : SeriesRef) :
  StronglySorted N.le l → c < x →
  ListPostings_Seek x (mkListPostings l c) =
    match seekList x l with
    | [] => (false, mkListPostings [] c)
    | y :: l' => (true, mkListPostings l' y)
    end.
Proof.
  intros Hs Hc. unfold ListPostings_Seek. simpl.
  destruct (N.leb_spec x c); [lia|].
  destruct (Nat.eqb_spec (length l) 0) as [Hz|Hnz].
  { by destruct l. }
  rewrite (search_sorted l x (λ i, x <=? l !!! i) Hs).
  2:{ intros i y Hy. by rewrite (list_lookup_total_correct _ _ _ Hy). }
  set (r := sort_Search (length l) (λ i, x <=? l !!! i)).
  destruct (Nat.ltb_spec r (length l)) as [Hlt|Hge].
  - destruct (lookup_lt_is_Some_2 l r Hlt) as [y Hy].
    rewrite (list_lookup_total_correct _ _ _ Hy).
    rewrite (drop_S _ _ _ Hy). by rewrite Nat.add_1_r.
  - by rewrite drop_ge.
Qed.

(** X15: expanding a list-backed iterator returns the list it was made
    of, whatever the list (sorted or not, with or without repetitions),
    and no error. *)
Theorem ExpandPostings_NewListPostings (l : list SeriesRef) (fuel : nat) :
  (length l < fuel)%nat →
  ExpandPostings fuel (NewListPostings l) = Some (l, None).
Proof. intros Hf. by apply ExpandPostings_list. Qed.

Lemma ExpandPostings_NewListPostings_witness :
  ExpandPostings 4 (NewListPostings [5; 2; 2]) = Some ([5; 2; 2], None).
Proof. apply (ExpandPostings_NewListPostings [5; 2; 2] 4). simpl. lia. Defined.

(** X16: on an increasing list (repetitions allowed), [Seek] to a value
    above the current one moves the list-backed iterator to the first
    element that is at least the target and leaves the elements after it;
    when there is none, [Seek] fails, the list is emptied and [At] keeps
    its value. *)
Theorem ListPostings_Seek_finds_first (l : list SeriesRef) (c x : SeriesRef) :
  StronglySorted N.le l → c < x →
  Seek x (mkListPostings l c) =
    match seekList x l with
    | [] => (false, mkListPostings [] c)
    | y :: l' => (true, mkListPostings l' y)
    end ∧
  (∀ y l', seekList x l = y :: l' →
           x ≤ y ∧ ∃ pre, l = pre ++ y :: l' ∧ Forall (λ z, z < x) pre).
Proof.
  intros Hs Hc. split; [by apply ListPostings_Seek_sorted|].
  clear. induction l as [|z l IH]; intros y l' Hl; [done|]. simpl in Hl.
  destruct (N.leb_spec x z) as [Hle|Hlt].
  - injection Hl as -> ->. split; [done|]. by exists [].
  - destruct (IH y l' Hl) as [Hxy (pre & -> & Hpre)]. split; [done|].
    exists (z :: pre). split; [done|]. by constructor.
Qed.

Lemma ListPostings_Seek_finds_first_witness :
  Seek 4 (mkListPostings [3; 3; 5; 5; 8] 1) = (true, mkListPostings [5; 8] 5).
Proof.
  apply (ListPostings_Seek_finds_first [3; 3; 5; 5; 8] 1 4);
    [repeat constructor; lia|lia].
Defined.
(** ** Reading a stream of big-endian numbers *)

Lemma byteOf_to_N (n : N) : n < 256 → Byte.to_N (byteOf n) = n.
Proof.
  intros Hn. unfold byteOf. destruct (Byte.of_N n) as [b|] eqn:Hb; simpl.
  - by apply Byte.to_of_N.
  - apply Byte.of_N_None_iff in Hb. lia.
Qed.

Lemma testbit_byte (k v i : N) :
  N.testbit (v / 2 ^ k mod 256) i = (i <? 8) && N.testbit v (i + k).
Proof.
  change 256 with (2 ^ 8). destruct (N.ltb_spec i 8) as [Hlt|Hge]; simpl.
  - by rewrite N.mod_pow2_bits_low, N.div_pow2_bits.
  - by rewrite N.mod_pow2_bits_high.
Qed.

Lemma testbit_shiftl (a k i : N) :
  N.testbit (N.shiftl a k) i = (k <=? i) && N.testbit a (i - k).
Proof.
  destruct (N.leb_spec k i) as [Hle|Hlt]; simpl.
  - by rewrite N.shiftl_spec_high'.
  - by rewrite N.shiftl_spec_low.
Qed.

Lemma testbit_above (v i : N) : v < 2 ^ 32 → 32 ≤ i → N.testbit v i = false.
Proof.
  intros Hv Hi. rewrite <- (N.mod_small v (2 ^ 32)) by done.
  by apply N.mod_pow2_bits_high.
Qed.

Lemma Uint32_PutUint32 (v : N) (rest : list Byte.byte) :
  v < 2 ^ 32 → Uint32 (PutUint32 v ++ rest) = v.
Proof.
  intros Hv. unfold PutUint32. cbn [app Uint32].
  rewrite !byteOf_to_N by (apply N.mod_lt; lia).
  apply N.bits_inj. intros i.
  rewrite !N.lor_spec, !testbit_shiftl, !testbit_byte.
  destruct (N.leb_spec 24 i) as [H24|H24]; simpl.
  - replace (i - 24 + 24) with i by lia.
    destruct (N.leb_spec 16 i) as [H16|H16]; [simpl|lia].
    destruct (N.leb_spec 8 i) as [H8|H8]; [simpl|lia].
    destruct (N.ltb_spec (i - 16) 8) as [Ha|Ha]; [lia|].
    destruct (N.ltb_spec (i - 8) 8) as [Hb|Hb]; [lia|].
    destruct (N.ltb_spec i 8) as [Hc|Hc]; [lia|]. simpl.
    destruct (N.ltb_spec (i - 24) 8) as [Hd|Hd]; simpl.
    + by rewrite !orb_false_r.
    + symmetry. apply testbit_above; [done|lia].
  - destruct (N.leb_spec 16 i) as [H16|H16]; simpl.
    + replace (i - 16 + 16) with i by lia.
      destruct (N.ltb_spec (i - 16) 8) as [Ha|Ha]; [|lia].
      destruct (N.leb_spec 8 i) as [H8|H8]; [simpl|lia].
      destruct (N.ltb_spec (i - 8) 8) as [Hb|Hb]; [lia|].
      destruct (N.ltb_spec i 8) as [Hc|Hc]; [lia|]. simpl.
      by rewrite !orb_false_r.
    + destruct (N.leb_spec 8 i) as [H8|H8]; simpl.
      * replace (i - 8 + 8) with i by lia.
        destruct (N.ltb_spec (i - 8) 8) as [Hb|Hb]; [|lia].
        destruct (N.ltb_spec i 8) as [Hc|Hc]; [lia|]. simpl.
        by rewrite !orb_false_r.
      * destruct (N.ltb_spec i 8) as [Hc|Hc]; [|lia]. simpl.
        by rewrite N.add_0_r.
Qed.

Lemma encodeBE_cons (x : N) (l : list N) : encodeBE (x :: l) = PutUint32 x ++ encodeBE l.
Proof. done. Qed.

Lemma length_encodeBE (l : list N) : length (encodeBE l) = (4 * length l)%nat.
Proof.
  induction l as [|x l IH]; [done|].
  rewrite encodeBE_cons, length_app, IH. simpl. lia.
Qed.

Lemma drop_encodeBE (l : list N) (t : list Byte.byte) : ∀ i,
  drop (i * 4) (encodeBE l ++ t) = encodeBE (drop i l) ++ drop (i * 4 - 4 * length l) t.
Proof.
  induction l as [|x l IH]; intros i.
  - simpl. rewrite drop_nil. simpl. by rewrite Nat.sub_0_r.
  - destruct i as [|i]; [done|].
    rewrite encodeBE_cons. change (S i * 4)%nat with (4 + i * 4)%nat.
    rewrite <- app_assoc.
    change (drop (4 + i * 4) (PutUint32 x ++ encodeBE l ++ t))
      with (drop (i * 4) (encodeBE l ++ t)).
    rewrite IH. simpl. do 2 f_equal. lia.
Qed.

Lemma BigEndianPostings_Next_cons (x : N) (l : list N) (t : list Byte.byte) (c : N) :
  x < 2 ^ 32 →
  Next (mkBigEndianPostings (encodeBE (x :: l) ++ t) c)
  = (true, mkBigEndianPostings (encodeBE l ++ t) x).
Proof.
  intros Hx. cbn [Next BigEndianPostings_Postings]. unfold BigEndianPostings_Next.
  cbn [be_list be_cur]. rewrite encodeBE_cons, <- app_assoc.
  rewrite (Uint32_PutUint32 x _ Hx). done.
Qed.

Lemma BigEndianPostings_Next_nil (t : list Byte.byte) (c : N) :
  (length t < 4)%nat →
  Next (mkBigEndianPostings (encodeBE [] ++ t) c)
  = (false, mkBigEndianPostings (encodeBE [] ++ t) c).
Proof.
  intros Ht. cbn [Next BigEndianPostings_Postings]. unfold BigEndianPostings_Next.
  cbn [be_list be_cur encodeBE mbind list_bind app].
  destruct (Nat.leb_spec 4 (length t)); [lia|done].
Qed.

Lemma ExpandPostings_bytes (l : list N) (t : list Byte.byte) : ∀ c fuel,
  Forall (λ x, x < 2 ^ 32) l → (length t < 4)%nat → (length l < fuel)%nat →
  ExpandPostings fuel (PIn (mkBigEndianPostings (encodeBE l ++ t) c)) = Some (l, None).
Proof.
  induction l as [|x l IH]; intros c fuel Hl Ht Hf;
    (destruct fuel as [|f]; [simpl in Hf; lia|]); cbn [ExpandPostings PNext liftStep].
  - by rewrite BigEndianPostings_Next_nil.
  - apply Forall_cons in Hl as [Hx Hl]. rewrite BigEndianPostings_Next_cons by done.
    rewrite (IH x f); [done..|]. simpl in Hf. lia.
Qed.

(** X17: expanding the byte-encoded iterator over the big-endian
    encoding of a list of 32-bit numbers returns the list, whatever the
    list, and no error; up to three bytes left at the end of the stream are
    ignored. *)
Theorem BigEndianPostings_reads_encoding (l : list N) (t : list Byte.byte) (fuel : nat) :
  Forall (λ x, x < 2 ^ 32) l → (length t < 4)%nat → (length l < fuel)%nat →
  ExpandPostings fuel (PIn (NewBigEndianPostings (encodeBE l ++ t))) = Some (l, None).
Proof. apply ExpandPostings_bytes. Qed.

Lemma BigEndianPostings_reads_encoding_witness :
  ExpandPostings 3 (PIn (NewBigEndianPostings (encodeBE [70000; 5] ++ [Byte.x01])))
  = Some ([70000; 5], None).
Proof.
  apply (BigEndianPostings_reads_encoding [70000; 5] [Byte.x01] 3);
    [repeat constructor; lia|simpl; lia|simpl; lia].
Defined.

Lemma BigEndianPostings_Seek_sorted (l : list N) (t : list Byte.byte) (c x : N) :
  StronglySorted N.le l → Forall (λ y, y < 2 ^ 32) l → (length t < 4)%nat → c < x →
  Seek x (mkBigEndianPostings (encodeBE l ++ t) c) =
    match seekList (to_uint32 x) l with
    | [] => (false, mkBigEndianPostings [] c)
    | y :: l' => (true, mkBigEndianPostings (encodeBE l' ++ t) y)
    end.
Proof.
  intros Hs Hl Ht Hc. cbn [Seek BigEndianPostings_Postings].
  unfold BigEndianPostings_Seek. cbn [be_list be_cur].
  destruct (N.leb_spec x c); [lia|].
  assert (Hnum : (length (encodeBE l ++ t) / 4 = length l)%nat).
  { rewrite length_app, length_encodeBE, Nat.mul_comm, Nat.div_add_l by lia.
    rewrite Nat.div_small by lia. lia. }
  rewrite Hnum.
  assert (Hat : ∀ i y, l !! i = Some y →
            drop (i * 4) (encodeBE l ++ t) = PutUint32 y ++ (encodeBE (drop (S i) l) ++ t)).
  { intros i y Hy. rewrite drop_encodeBE, (drop_S _ _ _ Hy), encodeBE_cons, <- app_assoc.
    do 2 f_equal. pose proof (lookup_lt_Some _ _ _ Hy).
    replace (i * 4 - 4 * length l)%nat with 0%nat by lia. done. }
  rewrite (search_sorted l (to_uint32 x)
             (λ i, to_uint32 x <=? Uint32 (drop (i * 4) (encodeBE l ++ t))) Hs).
  2:{ intros i y Hy. rewrite (Hat i y Hy), Uint32_PutUint32; [done|].
      rewrite Forall_forall in Hl. apply Hl. by eapply list_elem_of_lookup_2. }
  set (r := sort_Search _ _).
  destruct (Nat.ltb_spec r (length l)) as [Hlt|Hge].
  - destruct (lookup_lt_is_Some_2 l r Hlt) as [y Hy].
    rewrite (drop_S _ _ _ Hy).
    replace (r * 4 + 4)%nat with (S r * 4)%nat by lia.
    rewrite (Hat r y Hy), Uint32_PutUint32.
    + rewrite drop_encodeBE. pose proof (lookup_lt_Some _ _ _ Hy).
      replace (S r * 4 - 4 * length l)%nat with 0%nat by lia. done.
    + rewrite Forall_forall in Hl. apply Hl. by eapply list_elem_of_lookup_2.
  - by rewrite drop_ge.
Qed.

(** X18: on the encoding of an increasing list of 32-bit numbers, [Seek]
    to a value above the current one moves the byte-encoded iterator to the
    first number that is at least the target reduced to 32 bits; a target
    of [2^32] or more is therefore sought as its low 32 bits.  When there is
    no such number [Seek] fails and empties the stream. *)
Theorem BigEndianPostings_Seek_finds_first (l : list N) (t : list Byte.byte) (c x : N) :
  StronglySorted N.le l → Forall (λ y, y < 2 ^ 32) l → (length t < 4)%nat → c < x →
  Seek x (mkBigEndianPostings (encodeBE l ++ t) c) =
    match seekList (x mod 2 ^ 32) l with
    | [] => (false, mkBigEndianPostings [] c)
    | y :: l' => (true, mkBigEndianPostings (encodeBE l' ++ t) y)
    end.
Proof. apply BigEndianPostings_Seek_sorted. Qed.

Lemma BigEndianPostings_Seek_finds_first_witness :
  Seek (2 ^ 32 + 4) (mkBigEndianPostings (encodeBE [3; 5; 8] ++ []) 1)
  = (true, mkBigEndianPostings (encodeBE [8] ++ []) 5).
Proof.
  apply (BigEndianPostings_Seek_finds_first [3; 5; 8] [] 1 (2 ^ 32 + 4));
    [repeat constructor; lia|repeat constructor; lia|simpl; lia|lia].
Defined.
(** * More on the sharded iterator *)

(** X19: when the first value of the inner iterator that is at least
    [minOffset] lies below [maxOffset] (or there is none), expanding the
    sharded iterator yields exactly the values of the inner iterator within
    [minOffset, maxOffset), in order. *)
Theorem ShardedPostings_yields_range {T : Type} `{Postings T}
    (p : T) (l : list SeriesRef) (lo hi : N) :
  Conforming p l →
  (∀ y rest, seekList lo l = y :: rest → y < hi) →
  expandsFrom (S (length l)) (PIn (NewShardedPostings p (lo, hi))) (inRange lo hi l).
Proof.
  intros Hc Hfirst. rewrite <- (shardedValues_inRange lo hi l); [|apply Hc|done].
  by apply ShardedPostings_expands.
Qed.

Lemma ShardedPostings_yields_range_witness :
  expandsFrom 8 (PIn (NewShardedPostings (newListPostings [5; 9; 10; 15; 19; 20; 25]) (10, 20)))
              (inRange 10 20 [5; 9; 10; 15; 19; 20; 25]).
Proof.
  apply (ShardedPostings_yields_range (newListPostings [5; 9; 10; 15; 19; 20; 25])
           [5; 9; 10; 15; 19; 20; 25] 10 20).
  - apply ListPostings_Conforming. repeat constructor; lia.
  - intros y rest [= <- _]. lia.
Defined.

(** X20: [Seek] on a sharded iterator whose inner iterator stands on a
    value: a target at or above [maxOffset] is refused and nothing moves;
    another target is raised to [minOffset] if it is below, and the inner
    iterator moves to its first value that is at least this target, [Seek]
    failing when there is none. *)
Theorem ShardedPostings_Seek_clamps {T : Type} `{Postings T}
    (sp : ShardedPostings T) (c : SeriesRef) (l : list SeriesRef) (v : SeriesRef) :
  Positioned (sp_p sp) c l →
  (sp_maxOffset sp ≤ v → Seek v sp = (false, sp)) ∧
  (v < sp_maxOffset sp →
   match seekList (N.max v (sp_minOffset sp)) (c :: l) with
   | [] => (Seek v sp).1 = false ∧ Err (Seek v sp).2 = None
   | y :: l' =>
       (Seek v sp).1 = true ∧ At (Seek v sp).2 = y ∧ Positioned (sp_p (Seek v sp).2) y l'
   end).
Proof.
  intros Hpos. split; [apply ShardedPostings_Seek_out|].
  by apply ShardedPostings_Seek_running.
Qed.

Lemma ShardedPostings_Seek_clamps_witness :
  let sp := mkShardedPostings (mkListPostings [12; 15; 30] 5) 10 20 true in
  (20 ≤ 7 → Seek 7 sp = (false, sp)) ∧
  (7 < 20 →
   match seekList (N.max 7 10) [5; 12; 15; 30] with
   | [] => (Seek 7 sp).1 = false ∧ Err (Seek 7 sp).2 = None
   | y :: l' =>
       (Seek 7 sp).1 = true ∧ At (Seek 7 sp).2 = y ∧ Positioned (sp_p (Seek 7 sp).2) y l'
   end).
Proof.
  apply (ShardedPostings_Seek_clamps
           (mkShardedPostings (mkListPostings [12; 15; 30] 5) 10 20 true) 5 [12; 15; 30] 7).
  apply ListPostings_Positioned. repeat constructor; lia.
Defined.
(** * More on the operators *)

Section OperatorFacts.
Context {T : Type} `{Postings T}.

Lemma Conforming_sorted (its : list T) (ls : list (list SeriesRef)) :
  Forall2 Conforming its ls → Forall (StronglySorted N.lt) ls.
Proof.
  intros Hall. eapply Forall2_Forall_r; [exact Hall|].
  apply Forall_forall. by intros L _ q [? _].
Qed.

Lemma commonValues_Permutation (ls ls' : list (list SeriesRef)) :
  Forall (StronglySorted N.lt) ls → ls ≡ₚ ls' → commonValues ls = commonValues ls'.
Proof.
  intros Hs Hp.
  apply StronglySorted_lt_ext;
    [by apply commonValues_sorted|apply commonValues_sorted; by rewrite <- Hp|].
  intros x. rewrite !commonValues_elem.
  assert (Hne : ls ≠ [] ↔ ls' ≠ []).
  { split; intros Hne Hnil; apply Hne; rewrite Hnil in Hp;
      [symmetry in Hp|]; by apply Permutation_nil in Hp. }
  assert (Hall : Forall (λ l, x ∈ l) ls ↔ Forall (λ l, x ∈ l) ls') by (by rewrite Hp).
  tauto.
Qed.

Lemma mergedValues_Permutation (ls ls' : list (list SeriesRef)) :
  ls ≡ₚ ls' → mergedValues ls = mergedValues ls'.
Proof.
  intros Hp. destruct (mergedValues_spec ls) as [Hs Hel].
  destruct (mergedValues_spec ls') as [Hs' Hel'].
  apply StronglySorted_lt_ext; [done..|].
  intros x. by rewrite Hel, Hel', (holds_Permutation _ _ x Hp).
Qed.

Lemma Intersect_Permutation (its its' : list T) (ls : list (list SeriesRef)) fuel :
  its ≡ₚ its' → Forall2 Conforming its ls → (S (totalLength ls) ≤ fuel)%nat →
  ExpandPostings fuel (Intersect its') = ExpandPostings fuel (Intersect its).
Proof.
  intros Hp Hall Hfuel.
  destruct (Forall2_Permutation_l _ _ _ _ Hall Hp) as (ls' & Hls & Hall').
  rewrite (Intersect_expands its ls Hall fuel Hfuel).
  rewrite (Intersect_expands its' ls' Hall' fuel)
    by (by rewrite <- (totalLength_Permutation _ _ Hls)).
  by rewrite (commonValues_Permutation ls ls' (Conforming_sorted _ _ Hall) Hls).
Qed.

Lemma Merge_Permutation (its its' : list T) (ls : list (list SeriesRef)) fuel :
  its ≡ₚ its' → Forall2 Conforming its ls → (totalLength ls + 2 ≤ fuel)%nat →
  ExpandPostings fuel (Merge its') = ExpandPostings fuel (Merge its).
Proof.
  intros Hp Hall Hfuel.
  destruct (Forall2_Permutation_l _ _ _ _ Hall Hp) as (ls' & Hls & Hall').
  rewrite (Merge_expands its ls Hall fuel Hfuel).
  rewrite (Merge_expands its' ls' Hall' fuel)
    by (by rewrite <- (totalLength_Permutation _ _ Hls)).
  by rewrite (mergedValues_Permutation ls ls' Hls).
Qed.

Lemma Merge_all_empty (its : list T) (ls : list (list SeriesRef)) :
  Forall2 Conforming its ls → (2 ≤ length its)%nat → Forall (λ l, l = []) ls →
  Merge its = PErr EmptyPostings.
Proof.
  intros Hall Hlen Hemp.
  destruct its as [|p [|p2 its]]; [simpl in Hlen; lia..|].
  unfold Merge, newMergedPostings.
  destruct (mergedInputs_spec _ _ Hall []) as (ph & -> & HF).
  rewrite filter_none in HF by (eapply Forall_impl; [exact Hemp|]; by intros l -> ?).
  by apply Forall2_nil_inv_r in HF as ->.
Qed.
End OperatorFacts.

(** X21: the values produced by [Intersect] and by [Merge] do not depend
    on the order of the arguments. *)
Theorem Intersect_Merge_ignore_argument_order {T : Type} `{Postings T}
    (its its' : list T) (ls : list (list SeriesRef)) (fuel : nat) :
  its ≡ₚ its' → Forall2 Conforming its ls → (totalLength ls + 2 ≤ fuel)%nat →
  ExpandPostings fuel (Intersect its') = ExpandPostings fuel (Intersect its) ∧
  ExpandPostings fuel (Merge its') = ExpandPostings fuel (Merge its).
Proof.
  intros Hp Hall Hfuel. split.
  - eapply Intersect_Permutation; [done..|lia].
  - by eapply Merge_Permutation.
Qed.

Lemma Intersect_Merge_ignore_argument_order_witness :
  let a := newListPostings [1; 3; 5; 7] in
  let b := newListPostings [3; 4; 5; 6] in
  ExpandPostings 10 (Intersect [b; a]) = ExpandPostings 10 (Intersect [a; b]) ∧
  ExpandPostings 10 (Merge [b; a]) = ExpandPostings 10 (Merge [a; b]).
Proof.
  apply (Intersect_Merge_ignore_argument_order
           [newListPostings [1; 3; 5; 7]; newListPostings [3; 4; 5; 6]]
           [newListPostings [3; 4; 5; 6]; newListPostings [1; 3; 5; 7]]
           [[1; 3; 5; 7]; [3; 4; 5; 6]] 10).
  - apply perm_swap.
  - constructor; [|constructor; [|constructor]];
      apply ListPostings_Conforming; repeat constructor; lia.
  - simpl. lia.
Defined.

(** X22: [Merge] of two or more inputs that all are exhausted at their
    first [Next], without error, returns the empty sentinel itself, the
    value on which [Intersect] and [Without] take their short cut. *)
Theorem Merge_of_empty_inputs_is_sentinel {T : Type} `{Postings T}
    (its : list T) (ls : list (list SeriesRef)) :
  Forall2 Conforming its ls → (2 ≤ length its)%nat → Forall (λ l, l = []) ls →
  Merge its = PErr EmptyPostings.
Proof. apply Merge_all_empty. Qed.

Lemma Merge_of_empty_inputs_is_sentinel_witness :
  Merge [newListPostings []; newListPostings []] = PErr EmptyPostings.
Proof.
  apply (Merge_of_empty_inputs_is_sentinel [newListPostings []; newListPostings []] [[]; []]).
  - constructor; [|constructor; [|constructor]];
      apply ListPostings_Conforming; constructor.
  - simpl. lia.
  - by repeat constructor.
Defined.
(** * [Next] and [Seek] on a running intersection *)

Section IntersectRunning.
Context {T : Type} `{Postings T}.

Lemma commonFrom_seekList (x : SeriesRef) (Ls : list (list SeriesRef)) :
  Forall (StronglySorted N.lt) Ls →
  commonFrom x Ls = seekList x (commonValues Ls).
Proof.
  intros Hs. pose proof (commonValues_sorted Ls Hs) as Hcs.
  apply StronglySorted_lt_ext;
    [by apply commonFrom_sorted|by apply seekList_sorted|].
  intros z. rewrite commonFrom_elem, seekList_elem_iff, commonValues_elem by done. tauto.
Qed.

Lemma IntersectOn_heads (it : intersectPostings T) Ls y :
  IntersectOn it Ls y → ∃ rest, commonValues Ls = y :: rest.
Proof.
  intros (_ & Hne & Hs & HF).
  assert (Hy : y ∈ commonValues Ls).
  { apply commonValues_elem. split; [done|].
    eapply Forall2_Forall_r; [exact HF|]. apply Forall_forall.
    intros L _ p (t & -> & _). by left. }
  pose proof (commonValues_sorted Ls Hs) as Hcs.
  destruct (commonValues Ls) as [|z rest] eqn:Hcv; [by apply elem_of_nil in Hy|].
  exists rest. f_equal.
  assert (Hz : z ∈ commonValues Ls) by (rewrite Hcv; by left).
  apply commonValues_elem in Hz as [_ Hz].
  destruct Ls as [|L Ls']; [done|].
  apply Forall2_cons_inv_r in HF as (p & arr' & (t & -> & _) & _ & _).
  apply Forall_cons in Hz as [Hz _]. apply Forall_cons in Hs as [Hs _].
  pose proof (StronglySorted_lt_head_le y z t Hs Hz).
  pose proof (StronglySorted_lt_head_le z y rest Hcs Hy). lia.
Qed.

Lemma seekList_fmap_sorted (z : SeriesRef) (Ls : list (list SeriesRef)) :
  Forall (StronglySorted N.lt) Ls → Forall (StronglySorted N.lt) (seekList z <$> Ls).
Proof.
  intros Hs. rewrite Forall_fmap. eapply Forall_impl; [exact Hs|].
  intros L HL. by apply seekList_sorted.
Qed.

Lemma totalLength_seekList (z : SeriesRef) (Ls : list (list SeriesRef)) :
  (totalLength (seekList z <$> Ls) ≤ totalLength Ls)%nat.
Proof.
  unfold totalLength. induction Ls as [|L Ls IH]; [done|].
  rewrite fmap_cons. cbn [sum_list_with]. pose proof (seekList_length z L). lia.
Qed.

(** The result of [doNext] as a running intersection. *)
Lemma doNext_on (fuel : nat) (arr : list T) (cur : SeriesRef) Ls :
  (totalLength Ls < fuel)%nat →
  Forall (StronglySorted N.lt) Ls → Ls ≠ [] →
  Forall2 (Reach cur) arr Ls →
  ∃ b it', doNext fuel (mkIntersectPostings arr cur) = Some (b, it') ∧
    match commonFrom cur Ls with
    | [] => b = false ∧ intersectPostings_Err it' = None
    | z :: _ =>
        b = true ∧
        ∃ Ls', IntersectOn it' Ls' z ∧ commonValues Ls' = commonFrom cur Ls ∧
               (totalLength Ls' ≤ totalLength Ls)%nat
    end.
Proof.
  intros Hfuel Hs Hne HR.
  destruct (doNext_spec fuel arr cur Ls) as (b & it' & Hdo & Hres); [|done..|].
  { pose proof (ahead_le_totalLength cur Ls). lia. }
  exists b, it'. split; [done|].
  pose proof (commonFrom_sorted cur Ls Hs) as Hcs.
  destruct (commonFrom cur Ls) as [|z rest] eqn:Hcf; [done|].
  destruct Hres as (-> & Hcur & Hpos). split; [done|].
  exists (seekList z <$> Ls). split; [|split; [|apply totalLength_seekList]].
  - split; [done|]. split; [by destruct Ls|]. split; [by apply seekList_fmap_sorted|].
    apply Forall2_fmap_r. eapply Forall2_impl; [exact Hpos|].
    intros p L (t & Ht & Hp). by exists t.
  - change (commonValues (seekList z <$> Ls)) with (commonFrom z Ls).
    assert (Hz : z ∈ commonFrom cur Ls) by (rewrite Hcf; by left).
    apply commonFrom_elem in Hz as (_ & _ & Hcz); [|done].
    rewrite <- Hcf.
    apply StronglySorted_lt_ext; [by apply commonFrom_sorted..|].
    intros x. rewrite !commonFrom_elem by done.
    split; [intros (? & ? & ?); repeat split; [done..|lia]|].
    intros (Hn & Hall & Hx). repeat split; [done..|].
    assert (Hin : x ∈ z :: rest).
    { rewrite <- Hcf. apply commonFrom_elem; done. }
    by apply (StronglySorted_lt_head_le z x rest).
Qed.

Lemma intersectPostings_Seek_on (fuel : nat) (x : SeriesRef) (it : intersectPostings T) Ls y :
  IntersectOn it Ls y → (totalLength Ls < fuel)%nat →
  ∃ b it', intersectPostings_Seek fuel x it = Some (b, it') ∧
    match seekList x (commonValues Ls) with
    | [] => b = false ∧ intersectPostings_Err it' = None
    | z :: _ =>
        b = true ∧
        ∃ Ls', IntersectOn it' Ls' z ∧ commonValues Ls' = seekList x (commonValues Ls) ∧
               (totalLength Ls' ≤ totalLength Ls)%nat
    end.
Proof.
  intros (Hcur & Hne & Hs & HF) Hfuel. unfold intersectPostings_Seek.
  rewrite <- (commonFrom_seekList x Ls Hs).
  apply doNext_on; [done..|].
  eapply Forall2_impl; [exact HF|]. intros p L (t & -> & Hp).
  exists 0. split; [lia|]. rewrite seekList_0. by exists y, t.
Qed.

Lemma intersectPostings_Next_on (fuel : nat) (it : intersectPostings T) Ls :
  (totalLength Ls < fuel)%nat → IntersectInv it Ls →
  ∃ b it', intersectPostings_Next fuel it = Some (b, it') ∧
    match commonValues Ls with
    | [] => b = false ∧ intersectPostings_Err it' = None
    | z :: _ =>
        b = true ∧
        ∃ Ls', IntersectOn it' Ls' z ∧ commonValues Ls' = commonValues Ls ∧
               (totalLength Ls' ≤ totalLength Ls)%nat
    end.
Proof.
  intros Hfuel (Hpend & Hs & Hne & Hlow). unfold intersectPostings_Next.
  pose proof (nextAll_spec (ip_arr it) Ls (ip_cur it) Hpend) as Hnext.
  destruct (nextAll (ip_cur it) (ip_arr it)) as [[ok arr'] cur'].
  destruct ok; simpl.
  2:{ destruct Hnext as [Hnil Herr].
      exists false, (mkIntersectPostings arr' cur'). split; [done|].
      destruct (commonValues Ls) as [|y rest] eqn:Hcv.
      - split; [done|]. by apply firstErr_None.
      - exfalso. assert (Hy : y ∈ commonValues Ls) by (rewrite Hcv; by left).
        apply commonValues_elem in Hy as [_ Hall]. rewrite Forall_forall in Hall.
        specialize (Hall [] Hnil). by apply elem_of_nil in Hall. }
  destruct Hnext as (Hst & Hle & Hheads & Hwhich).
  assert (Hcf : commonFrom cur' Ls = commonValues Ls).
  { apply StronglySorted_lt_ext;
      [by apply commonFrom_sorted|by apply commonValues_sorted|].
    intros x. rewrite commonFrom_elem, commonValues_elem by done.
    split; [by intros (? & ? & _)|]. intros [_ Hall]. split; [done|]. split; [done|].
    rewrite Forall_forall in Hall, Hlow, Hs.
    destruct Hwhich as [->|(L & t & HL & ->)].
    - destruct Ls as [|L Ls']; [done|].
      specialize (Hlow L ltac:(by left)). rewrite Forall_forall in Hlow.
      apply Hlow, Hall. by left.
    - eapply StronglySorted_lt_head_le; [by apply Hs|by apply Hall]. }
  rewrite <- Hcf. apply doNext_on; [done..|].
  eapply Forall2_impl; [exact Hst|]. intros p L HpL. exists 0.
  split; [lia|]. by rewrite seekList_0.
Qed.

Lemma IntersectOn_all_heads (arr : list T) (Ls : list (list SeriesRef)) y :
  Forall2 (λ p L, ∃ t, L = y :: t ∧ Positioned p y t) arr Ls →
  Forall (λ L, ∃ t, L = y :: t) Ls.
Proof.
  induction 1 as [|p L arr Ls (t & -> & _) _ IH]; constructor; [by exists t|done].
Qed.

Lemma IntersectOn_Inv (it : intersectPostings T) Ls y :
  IntersectOn it Ls y → IntersectInv it (tail <$> Ls).
Proof.
  intros (Hcur & Hne & Hs & HF). split; [|split; [|split]].
  - apply Forall2_fmap_r. eapply Forall2_impl; [exact HF|].
    intros p L (t & -> & Hp). simpl.
    split; [by eapply Positioned_Err|by eapply Positioned_Next].
  - rewrite Forall_fmap. eapply Forall_impl; [exact Hs|].
    intros L HL. simpl. destruct L as [|z t]; [constructor|].
    by apply StronglySorted_cons in HL as [_ ?].
  - by destruct Ls.
  - rewrite Forall_fmap. rewrite Forall_forall in Hs |- *. intros L HL. simpl.
    pose proof (IntersectOn_all_heads _ _ _ HF) as Hh. rewrite Forall_forall in Hh.
    destruct (Hh L HL) as [t ->]. simpl. specialize (Hs _ HL).
    apply StronglySorted_cons in Hs as [Hyt _].
    eapply Forall_impl; [exact Hyt|]. intros x Hx. rewrite Hcur. simpl in Hx. lia.
Qed.

Lemma commonValues_tails (Ls : list (list SeriesRef)) y :
  Ls ≠ [] → Forall (StronglySorted N.lt) Ls → Forall (λ L, ∃ t, L = y :: t) Ls →
  commonValues (tail <$> Ls) = tail (commonValues Ls).
Proof.
  intros Hne Hs Hh. pose proof (commonValues_sorted Ls Hs) as Hcs.
  assert (Hst : Forall (StronglySorted N.lt) (tail <$> Ls)).
  { rewrite Forall_fmap. eapply Forall_impl; [exact Hs|].
    intros L HL. simpl. destruct L as [|z t]; [constructor|].
    by apply StronglySorted_cons in HL as [_ ?]. }
  assert (Hy : y ∈ commonValues Ls).
  { apply commonValues_elem. split; [done|]. eapply Forall_impl; [exact Hh|].
    intros L [t ->]. by left. }
  assert (Hmem : ∀ x L, L ∈ Ls → x ∈ tail L ↔ x ∈ L ∧ y < x).
  { intros x L HL. rewrite Forall_forall in Hs, Hh.
    destruct (Hh L HL) as [t ->]. specialize (Hs _ HL). simpl.
    apply StronglySorted_cons in Hs as [Hyt _]. rewrite Forall_forall in Hyt.
    rewrite elem_of_cons. split.
    - intros Hx. split; [by right|by apply Hyt].
    - intros [[->|Hx] Hlt]; [lia|done]. }
  apply StronglySorted_lt_ext; [by apply commonValues_sorted| |].
  { destruct (commonValues Ls) as [|z r]; [constructor|].
    by apply StronglySorted_cons in Hcs as [_ ?]. }
  intros x. rewrite commonValues_elem, Forall_fmap.
  assert (Htl : x ∈ tail (commonValues Ls) ↔ x ∈ commonValues Ls ∧ y < x).
  { destruct (commonValues Ls) as [|z r] eqn:Hcv; [by apply elem_of_nil in Hy|].
    assert (z = y) as ->.
    { assert (Hz : z ∈ commonValues Ls) by (rewrite Hcv; by left).
      apply commonValues_elem in Hz as [_ Hz].
      destruct Ls as [|L Ls']; [done|].
      apply Forall_cons in Hz as [Hz _]. apply Forall_cons in Hh as [[t ->] _].
      apply Forall_cons in Hs as [Hs _].
      pose proof (StronglySorted_lt_head_le y z t Hs Hz).
      pose proof (StronglySorted_lt_head_le z y r Hcs Hy). lia. }
    simpl. apply StronglySorted_cons in Hcs as [Hyr _]. rewrite Forall_forall in Hyr.
    rewrite elem_of_cons. split.
    - intros Hx. split; [by right|by apply Hyr].
    - intros [[->|Hx] Hlt]; [lia|done]. }
  rewrite Htl, commonValues_elem. split.
  - intros [_ Hall]. rewrite Forall_forall in Hall.
    assert (Hall' : ∀ L, L ∈ Ls → x ∈ L ∧ y < x).
    { intros L HL. apply (Hmem x L HL). by apply Hall. }
    split; [split; [done|]|].
    + apply Forall_forall. intros L HL. by apply Hall'.
    + destruct Ls as [|L Ls']; [done|]. apply (Hall' L). by left.
  - intros [[_ Hall] Hlt]. split; [by destruct Ls|].
    rewrite Forall_forall in Hall |- *. intros L HL. simpl.
    apply (Hmem x L HL). split; [by apply Hall|done].
Qed.
End IntersectRunning.

Lemma totalLength_tails (Ls : list (list SeriesRef)) y :
  Ls ≠ [] → Forall (λ L, ∃ t, L = y :: t) Ls →
  (totalLength (tail <$> Ls) < totalLength Ls)%nat.
Proof.
  unfold totalLength. intros Hne Hh. induction Hh as [|L Ls [t ->] Hh IH]; [done|].
  rewrite fmap_cons. cbn [sum_list_with tail length].
  destruct Ls as [|L' Ls']; [simpl; lia|]. specialize (IH ltac:(done)). lia.
Qed.

(** X23: a running intersection follows the contract of the interface:
    it stands on the first of the common values of the lists its inputs
    stand on; [Seek] moves it to the first common value that is at least
    the target, and [Next] to the next common value; both fail without
    error when there is no such value, and otherwise leave a running
    intersection over what is left. *)
Theorem running_intersection_follows_contract {T : Type} `{Postings T}
    (it : intersectPostings T) (Ls : list (list SeriesRef)) (y : SeriesRef) (fuel : nat) :
  IntersectOn it Ls y → (totalLength Ls < fuel)%nat →
  (∃ rest, commonValues Ls = y :: rest) ∧
  (∀ x, ∃ b it', intersectPostings_Seek fuel x it = Some (b, it') ∧
     match seekList x (commonValues Ls) with
     | [] => b = false ∧ intersectPostings_Err it' = None
     | z :: _ =>
         b = true ∧
         ∃ Ls', IntersectOn it' Ls' z ∧ commonValues Ls' = seekList x (commonValues Ls) ∧
                (totalLength Ls' ≤ totalLength Ls)%nat
     end) ∧
  (∃ b it', intersectPostings_Next fuel it = Some (b, it') ∧
     match tail (commonValues Ls) with
     | [] => b = false ∧ intersectPostings_Err it' = None
     | z :: _ =>
         b = true ∧
         ∃ Ls', IntersectOn it' Ls' z ∧ commonValues Ls' = tail (commonValues Ls) ∧
                (totalLength Ls' < totalLength Ls)%nat
     end).
Proof.
  intros Hon Hfuel. split; [by eapply IntersectOn_heads|]. split.
  - intros x. by eapply intersectPostings_Seek_on.
  - pose proof Hon as (Hcur & Hne & Hs & HF).
    pose proof (IntersectOn_all_heads _ _ _ HF) as Hh.
    pose proof (totalLength_tails Ls y Hne Hh) as Hlt.
    destruct (intersectPostings_Next_on fuel it (tail <$> Ls)) as (b & it' & HN & Hres);
      [lia|by eapply IntersectOn_Inv|].
    exists b, it'. split; [done|].
    rewrite (commonValues_tails Ls y Hne Hs Hh) in Hres.
    destruct (tail (commonValues Ls)) as [|z r]; [done|].
    destruct Hres as (-> & Ls' & Hon' & Hcv & Hlen). split; [done|].
    exists Ls'. split; [done|]. split; [done|]. lia.
Qed.

Lemma running_intersection_follows_contract_witness :
  let it := mkIntersectPostings [mkListPostings [5; 9] 3; mkListPostings [4; 9] 3] 3 in
  let Ls : list (list SeriesRef) := [[3; 5; 9]; [3; 4; 9]] in
  ∃ b it', intersectPostings_Seek 7 4 it = Some (b, it') ∧
     match seekList 4 (commonValues Ls) with
     | [] => b = false ∧ intersectPostings_Err it' = None
     | z :: _ =>
         b = true ∧
         ∃ Ls', IntersectOn it' Ls' z ∧ commonValues Ls' = seekList 4 (commonValues Ls) ∧
                (totalLength Ls' ≤ totalLength Ls)%nat
     end.
Proof.
  apply (running_intersection_follows_contract
           (mkIntersectPostings [mkListPostings [5; 9] 3; mkListPostings [4; 9] 3] 3)
           [[3; 5; 9]; [3; 4; 9]] 3 7).
  - split; [done|]. split; [done|]. split.
    + repeat constructor; lia.
    + constructor; [|constructor; [|constructor]].
      * exists [5; 9]. split; [done|]. apply ListPostings_Positioned.
        repeat constructor; lia.
      * exists [4; 9]. split; [done|]. apply ListPostings_Positioned.
        repeat constructor; lia.
  - simpl. lia.
Defined.

(** X24: the first [Next] of the intersection of two or more conforming
    inputs, none of them the empty sentinel, fails without error when the
    inputs have no common value, and otherwise lands on the first common
    value and leaves a running intersection over the common values. *)
Theorem Intersect_first_Next {T : Type} `{Postings T}
    (its : list T) (ls : list (list SeriesRef)) (fuel : nat) :
  Forall2 Conforming its ls → (2 ≤ length its)%nat →
  existsb IsEmptyPostingsType its = false → (totalLength ls < fuel)%nat →
  ∃ b it', PNext fuel (Intersect its) = Some (b, PIntersect it') ∧
    match commonValues ls with
    | [] => b = false ∧ intersectPostings_Err it' = None
    | y :: _ =>
        b = true ∧ ∃ Ls', IntersectOn it' Ls' y ∧ commonValues Ls' = commonValues ls
    end.
Proof.
  intros Hall Hlen Hex Hfuel.
  destruct its as [|p [|p2 its]]; [simpl in Hlen; lia..|].
  unfold Intersect. rewrite Hex. cbn [PNext].
  destruct (intersectPostings_Next_on fuel (newIntersectPostings (p :: p2 :: its)) ls)
    as (b & it' & HN & Hres); [done| |].
  { split; [|split; [|split]].
    - eapply Forall2_impl; [exact Hall|]. by intros q L [_ (? & _ & ?)].
    - by eapply Conforming_sorted.
    - intros ->. by apply Forall2_nil_inv_r in Hall.
    - apply Forall_forall. intros L _. apply Forall_forall. intros x _. simpl. lia. }
  exists b, it'. rewrite HN. split; [done|].
  destruct (commonValues ls) as [|y r]; [done|].
  destruct Hres as (-> & Ls' & Hon & Hcv & _). split; [done|]. by exists Ls'.
Qed.

Lemma Intersect_first_Next_witness :
  ∃ b it', PNext 9 (Intersect [newListPostings [1; 3; 5; 7]; newListPostings [3; 4; 5; 6]])
           = Some (b, PIntersect it') ∧
    match commonValues [[1; 3; 5; 7]; [3; 4; 5; 6]] with
    | [] => b = false ∧ intersectPostings_Err it' = None
    | y :: _ =>
        b = true ∧
        ∃ Ls', IntersectOn it' Ls' y ∧ commonValues Ls' = commonValues [[1; 3; 5; 7]; [3; 4; 5; 6]]
    end.
Proof.
  apply (Intersect_first_Next [newListPostings [1; 3; 5; 7]; newListPostings [3; 4; 5; 6]]
           [[1; 3; 5; 7]; [3; 4; 5; 6]] 9).
  - constructor; [|constructor; [|constructor]];
      apply ListPostings_Conforming; repeat constructor; lia.
  - simpl. lia.
  - reflexivity.
  - simpl. lia.
Defined.
(** * [Seek] on a running merge *)

Section MergeRunning.
Context {T : Type} `{Postings T}.

Lemma startBelow_Permutation (id : SeriesRef) (Ls Ls' : list (list SeriesRef)) :
  Ls ≡ₚ Ls' → startBelow id Ls = startBelow id Ls'.
Proof. intros Hp. unfold startBelow. by rewrite Hp. Qed.

Lemma startBelow_le_length (id : SeriesRef) (Ls : list (list SeriesRef)) :
  (startBelow id Ls ≤ length Ls)%nat.
Proof. apply length_filter. Qed.

Lemma startBelow_cons (id : SeriesRef) (L : list SeriesRef) (Ls : list (list SeriesRef)) :
  startBelow id (L :: Ls)
  = ((if startsBelow id L then 1 else 0) + startBelow id Ls)%nat.
Proof.
  unfold startBelow. rewrite filter_cons.
  destruct (startsBelow id L); [by rewrite decide_True|by rewrite decide_False].
Qed.

Lemma seekList_gt_head (id c : SeriesRef) (t : list SeriesRef) :
  c < id → seekList id (c :: t) = seekList id t.
Proof. intros Hc. simpl. by destruct (N.leb_spec id c); [lia|]. Qed.

(** One turn of the loop of [Seek]: the root, which stands below the
    target, seeks the target; it leaves the heap when it has no such
    value. *)
Lemma advanceTop_Seek_spec (id : SeriesRef) (mp : mergedPostings T)
    (Ls : list (list SeriesRef)) :
  MergedRun mp Ls → mp_cur mp < id →
  match advanceTop (Seek id) mp with
  | None => False
  | Some (inl mp') => mp_err mp' = None ∧ ∀ x, holds Ls x → x < id
  | Some (inr mp') =>
      mp_initialized mp' = true ∧ mp_err mp' = None ∧
      ∃ Ls', Forall2 StandsOn (mp_h mp') Ls' ∧ Forall (StronglySorted N.lt) Ls' ∧
             isHeap At (mp_h mp') ∧ mp_h mp' ≠ [] ∧
             (∀ x, holds Ls' x → holds Ls x) ∧
             (∀ x, id ≤ x → holds Ls x → holds Ls' x) ∧
             S (startBelow id Ls') = startBelow id Ls ∧
             (totalLength Ls' ≤ totalLength Ls)%nat
  end.
Proof.
  intros Hrun Hlt.
  destruct Hrun as (Hi & He & HF & Hs & Hheap & top & rest & Hh & Hcur).
  unfold advanceTop. rewrite Hh in *.
  apply Forall2_cons_inv_l in HF as (Ltop & Lrest & (c & t & -> & Hpos) & HF & ->).
  pose proof (Positioned_At _ _ _ Hpos) as Hat. rewrite Hat in Hcur. rewrite Hcur in Hlt.
  pose proof (Positioned_Seek _ _ _ id Hpos) as Hseek.
  rewrite (seekList_gt_head id c t Hlt) in Hseek.
  destruct (Seek id top) as [ok top'] eqn:HS.
  apply Forall_cons in Hs as [Hsct HsR].
  change (<[0%nat:=top']> (top :: rest)) with (top' :: rest).
  pose proof (isHeap_replace_root At top top' rest Hheap) as Hheap1.
  assert (Hsb : startBelow id ((c :: t) :: Lrest) = S (startBelow id Lrest)).
  { rewrite startBelow_cons. simpl. by destruct (N.ltb_spec c id); [|lia]. }
  assert (Hmem : ∀ x, x ∈ seekList id t ↔ x ∈ c :: t ∧ id ≤ x).
  { intros x. rewrite <- (seekList_gt_head id c t Hlt). by apply seekList_elem_iff. }
  destruct (seekList id t) as [|y t'] eqn:Hsl; simpl in Hseek.
  - (* the root has no value from the target on: it is popped *)
    destruct Hseek as [-> Herr]. cbn [negb]. rewrite Herr.
    destruct (heap_Pop_spec At top' rest Hheap1) as [Hheap2 Hperm].
    destruct (Nat.eqb_spec (length (heap_Pop At (top' :: rest))) 0) as [Hz|Hnz]; simpl.
    + split; [done|]. apply nil_length_inv in Hz. rewrite Hz in Hperm.
      apply Permutation_nil in Hperm. subst rest.
      apply Forall2_nil_inv_l in HF as ->.
      intros x [Hx|Hx%holds_nil]%holds_cons; [|done].
      destruct (N.lt_ge_cases x id) as [?|Hge]; [done|].
      assert (Hin : x ∈ []) by (by apply Hmem). by apply elem_of_nil in Hin.
    + split; [done|]. split; [done|].
      destruct (Forall2_Permutation_l _ _ _ _ HF (symmetry Hperm)) as (Ls' & HLs & HF').
      exists Ls'. split; [done|]. split; [by rewrite <- HLs|]. split; [done|].
      split; [by intros Hnil; rewrite Hnil in Hnz|]. split; [|split; [|split]].
      * intros x Hx. apply holds_cons. right. by rewrite (holds_Permutation _ _ x HLs).
      * intros x Hge [Hx|Hx]%holds_cons; [|by rewrite <- (holds_Permutation _ _ x HLs)].
        assert (Hin : x ∈ []) by (by apply Hmem). by apply elem_of_nil in Hin.
      * by rewrite <- (startBelow_Permutation id _ _ HLs), Hsb.
      * rewrite <- (totalLength_Permutation _ _ HLs). unfold totalLength.
        cbn [sum_list_with]. lia.
  - (* the root has moved: it is sifted down *)
    destruct Hseek as [-> Hpos']. cbn [negb].
    destruct (heap_Fix_spec At (top' :: rest) Hheap1) as [Hheap2 Hperm].
    simpl. split; [done|]. split; [done|].
    assert (HF1 : Forall2 StandsOn (top' :: rest) ((y :: t') :: Lrest)).
    { constructor; [by exists y, t'|done]. }
    destruct (Forall2_Permutation_l _ _ _ _ HF1 (symmetry Hperm)) as (Ls' & HLs & HF').
    assert (Hsy : StronglySorted N.lt (y :: t')).
    { rewrite <- Hsl. apply seekList_sorted. by apply StronglySorted_cons in Hsct as [_ ?]. }
    assert (Hy : id ≤ y) by (by apply (seekList_head id t y t')).
    exists Ls'. split; [done|]. split; [rewrite <- HLs; by constructor|].
    split; [done|]. split.
    { intros Hnil. rewrite Hnil in Hperm. by apply Permutation_nil_cons in Hperm. }
    split; [|split; [|split]].
    + intros x. rewrite <- (holds_Permutation _ _ x HLs), !holds_cons.
      intros [Hx|Hx]; [left; by apply Hmem|by right].
    + intros x Hge. rewrite <- (holds_Permutation _ _ x HLs), !holds_cons.
      intros [Hx|Hx]; [left; by apply Hmem|by right].
    + rewrite <- (startBelow_Permutation id _ _ HLs), Hsb, startBelow_cons. simpl.
      by destruct (N.ltb_spec y id); [lia|].
    + rewrite <- (totalLength_Permutation _ _ HLs). unfold totalLength.
      cbn [sum_list_with]. pose proof (seekList_length id t) as Hlen.
      rewrite Hsl in Hlen. simpl in Hlen |- *. lia.
Qed.

Lemma mergedSeekLoop_spec (id : SeriesRef) (fuel : nat) :
  ∀ (mp : mergedPostings T) Ls,
  (startBelow id Ls < fuel)%nat → MergedRun mp Ls →
  ∃ b mp', mergedSeekLoop fuel id mp = Some (b, mp') ∧
    if b then
      id ≤ mp_cur mp' ∧ (id ≤ mp_cur mp → mp' = mp) ∧
      ∃ Ls', MergedRun mp' Ls' ∧ (∀ x, holds Ls' x → holds Ls x) ∧
             (∀ x, id ≤ x → holds Ls x → holds Ls' x) ∧
             (totalLength Ls' ≤ totalLength Ls)%nat
    else mp_cur mp < id ∧ mp_err mp' = None ∧ ∀ x, holds Ls x → x < id.
Proof.
  induction fuel as [|fuel IH]; intros mp Ls Hfuel Hrun; [lia|].
  cbn [mergedSeekLoop]. destruct (N.ltb_spec (mp_cur mp) id) as [Hlt|Hge].
  2:{ exists true, mp. split; [done|]. split; [done|]. split; [done|]. by exists Ls. }
  pose proof (advanceTop_Seek_spec id mp Ls Hrun Hlt) as Hadv.
  destruct (advanceTop (Seek id) mp) as [[mp1|mp1]|]; [| |done].
  { destruct Hadv as [Herr Hall]. by exists false, mp1. }
  destruct Hadv as (Hi & He & Ls1 & HF & Hs & Hheap & Hne & Hsub & Hsup & Hlen & Htl).
  destruct (mp_h mp1) as [|top rest] eqn:Hh; [done|].
  assert (Hrun1 : MergedRun (mkMergedPostings (top :: rest) (mp_initialized mp1) (At top)
                                              (mp_err mp1)) Ls1).
  { split; [done|]. split; [done|]. split; [done|]. split; [done|]. split; [done|].
    by exists top, rest. }
  destruct (IH _ Ls1 ltac:(lia) Hrun1) as (b & mp' & Hloop & Hres).
  exists b, mp'. split; [done|]. destruct b.
  - destruct Hres as (Hcur' & _ & Ls' & Hrun' & Hsub' & Hsup' & Htl').
    split; [done|]. split; [lia|]. exists Ls'. split; [done|]. split; [|split; [|lia]].
    + intros x Hx. by apply Hsub, Hsub'.
    + intros x Hx Hin. by apply Hsup', Hsup.
  - destruct Hres as (_ & Herr & Hall). split; [done|]. split; [done|].
    intros x Hx. destruct (N.lt_ge_cases x id) as [?|Hxge]; [done|].
    by apply Hall, Hsup.
Qed.

Lemma mergedPostings_Seek_run (id : SeriesRef) (fuel : nat) (mp : mergedPostings T) Ls :
  MergedRun mp Ls →
  mergedPostings_Seek fuel id mp = mergedSeekLoop fuel id mp.
Proof.
  intros (Hi & He & _ & _ & _ & top & rest & Hh & _). unfold mergedPostings_Seek.
  by rewrite Hh, He, Hi.
Qed.

Lemma MergedRun_holds_cur (mp : mergedPostings T) Ls : MergedRun mp Ls → holds Ls (mp_cur mp).
Proof.
  intros (_ & _ & HF & _ & _ & top & rest & Hh & ->). rewrite Hh in HF.
  apply Forall2_cons_inv_l in HF as (L & Ls0 & (c & t & -> & Hpos) & _ & ->).
  rewrite (Positioned_At _ _ _ Hpos). apply holds_cons. left. by left.
Qed.
End MergeRunning.
(** * A running merge follows the contract of the interface *)

Section MergeContract.
Context {T : Type} `{Postings T}.

Lemma length_le_totalLength (ph : list T) (Ls : list (list SeriesRef)) :
  Forall2 StandsOn ph Ls → (length Ls ≤ totalLength Ls)%nat.
Proof.
  unfold totalLength. induction 1 as [|p L ph Ls (h & t & -> & _) _ IH]; [done|].
  cbn [sum_list_with length]. lia.
Qed.

Lemma mergedPostings_Next_run (fuel : nat) (mp : mergedPostings T) Ls :
  MergedRun mp Ls → mergedPostings_Next fuel mp = mergedNextLoop fuel mp.
Proof.
  intros (Hi & He & _ & _ & _ & top & rest & Hh & _). unfold mergedPostings_Next.
  by rewrite Hh, He, Hi.
Qed.

Lemma running_merge_Seek (mp : mergedPostings T) Ls id fuel :
  MergedRun mp Ls → (length Ls < fuel)%nat → mp_cur mp < id →
  ∃ b mp', mergedPostings_Seek fuel id mp = Some (b, mp') ∧
    if b then
      id ≤ mp_cur mp' ∧ holds Ls (mp_cur mp') ∧
      (∀ x, holds Ls x → id ≤ x → mp_cur mp' ≤ x) ∧
      ∃ Ls', MergedRun mp' Ls' ∧ (∀ x, holds Ls' x ↔ holds Ls x ∧ id ≤ x) ∧
             (totalLength Ls' ≤ totalLength Ls)%nat
    else mp_err mp' = None ∧ ∀ x, holds Ls x → x < id.
Proof.
  intros Hrun Hfuel Hlt. rewrite (mergedPostings_Seek_run id fuel mp Ls Hrun).
  destruct (mergedSeekLoop_spec id fuel mp Ls) as (b & mp' & Hloop & Hres); [|done|].
  { pose proof (startBelow_le_length id Ls). lia. }
  exists b, mp'. split; [done|]. destruct b; [|by destruct Hres as (_ & ? & ?)].
  destruct Hres as (Hcur & _ & Ls' & Hrun' & Hsub & Hsup & Hlen).
  pose proof (MergedRun_low mp' Ls' Hrun') as Hlow.
  split; [done|]. split; [apply Hsub; by eapply MergedRun_holds_cur|]. split.
  { intros x Hx Hge. by apply Hlow, Hsup. }
  exists Ls'. split; [done|]. split; [|done]. intros x. split.
  - intros Hx. split; [by apply Hsub|]. specialize (Hlow x Hx). lia.
  - intros [Hx Hge]. by apply Hsup.
Qed.

Lemma running_merge_Next (mp : mergedPostings T) Ls fuel :
  MergedRun mp Ls → (totalLength Ls ≤ fuel)%nat →
  ∃ b mp', mergedPostings_Next fuel mp = Some (b, mp') ∧
    if b then
      mp_cur mp < mp_cur mp' ∧ holds Ls (mp_cur mp') ∧
      (∀ x, holds Ls x → mp_cur mp < x → mp_cur mp' ≤ x) ∧
      ∃ Ls', MergedRun mp' Ls' ∧ (∀ x, holds Ls' x ↔ holds Ls x ∧ mp_cur mp' ≤ x) ∧
             (totalLength Ls' < totalLength Ls)%nat
    else mp_err mp' = None ∧ ∀ x, holds Ls x → x ≤ mp_cur mp.
Proof.
  intros Hrun Hfuel. rewrite (mergedPostings_Next_run fuel mp Ls Hrun).
  destruct (mergedNextLoop_spec fuel mp Ls Hfuel Hrun) as (b & mp' & Hloop & Hres).
  exists b, mp'. split; [done|]. destruct b; [|done].
  destruct Hres as (Hlt & Hh & Hmin & Ls' & Hrun' & Hsame & Hlen).
  split; [done|]. split; [done|]. split; [done|].
  exists Ls'. split; [done|]. split; [|done].
  pose proof (MergedRun_low mp' Ls' Hrun') as Hlow.
  pose proof (MergedRun_holds_cur mp' Ls' Hrun') as Hcur.
  intros x. split.
  - intros Hx. pose proof (Hlow x Hx) as Hle. split; [|done].
    destruct (decide (x = mp_cur mp')) as [->|Hne]; [done|].
    apply Hsame; [lia|done].
  - intros [Hx Hle]. destruct (decide (x = mp_cur mp')) as [->|Hne]; [done|].
    apply Hsame; [lia|done].
Qed.
End MergeContract.
(** X25: a running merge follows the contract of the interface: it stands
    on the least value its inputs hold; [Seek] to a larger target moves it
    to the least value that is at least the target, and [Next] to the least
    value above the current one; both fail without error when the inputs
    hold no such value, and otherwise leave a running merge over the values
    from the new one on. *)
Theorem running_merge_follows_contract {T : Type} `{Postings T}
    (mp : mergedPostings T) (Ls : list (list SeriesRef)) (fuel : nat) :
  MergedRun mp Ls → (totalLength Ls < fuel)%nat →
  holds Ls (mp_cur mp) ∧ (∀ x, holds Ls x → mp_cur mp ≤ x) ∧
  (∀ id, mp_cur mp < id →
     ∃ b mp', mergedPostings_Seek fuel id mp = Some (b, mp') ∧
       if b then
         id ≤ mp_cur mp' ∧ holds Ls (mp_cur mp') ∧
         (∀ x, holds Ls x → id ≤ x → mp_cur mp' ≤ x) ∧
         ∃ Ls', MergedRun mp' Ls' ∧ (∀ x, holds Ls' x ↔ holds Ls x ∧ id ≤ x) ∧
                (totalLength Ls' ≤ totalLength Ls)%nat
       else mp_err mp' = None ∧ ∀ x, holds Ls x → x < id) ∧
  (∃ b mp', mergedPostings_Next fuel mp = Some (b, mp') ∧
     if b then
       mp_cur mp < mp_cur mp' ∧ holds Ls (mp_cur mp') ∧
       (∀ x, holds Ls x → mp_cur mp < x → mp_cur mp' ≤ x) ∧
       ∃ Ls', MergedRun mp' Ls' ∧ (∀ x, holds Ls' x ↔ holds Ls x ∧ mp_cur mp' ≤ x) ∧
              (totalLength Ls' < totalLength Ls)%nat
     else mp_err mp' = None ∧ ∀ x, holds Ls x → x ≤ mp_cur mp).
Proof.
  intros Hrun Hfuel.
  split; [by apply MergedRun_holds_cur|]. split; [by apply MergedRun_low|]. split.
  - intros id Hlt. apply running_merge_Seek; [done| |done].
    destruct Hrun as (_ & _ & HF & _). pose proof (length_le_totalLength _ _ HF). lia.
  - apply running_merge_Next; [done|lia].
Qed.

Lemma running_merge_follows_contract_witness :
  let mp := mkMergedPostings [mkListPostings [5] 1; mkListPostings [4; 9] 2] true 1 None in
  let Ls : list (list SeriesRef) := [[1; 5]; [2; 4; 9]] in
  holds Ls (mp_cur mp) ∧ (∀ x, holds Ls x → mp_cur mp ≤ x).
Proof.
  refine (let Hall := running_merge_follows_contract
           (mkMergedPostings [mkListPostings [5] 1; mkListPostings [4; 9] 2] true 1 None)
           [[1; 5]; [2; 4; 9]] 6 _ _ in conj (proj1 Hall) (proj1 (proj2 Hall))).
  - split; [done|]. split; [done|]. split; [|split; [|split]].
    + constructor; [|constructor; [|constructor]].
      * exists 1, [5]. split; [done|]. apply ListPostings_Positioned.
        repeat constructor; lia.
      * exists 2, [4; 9]. split; [done|]. apply ListPostings_Positioned.
        repeat constructor; lia.
    + repeat constructor; lia.
    + intros i _ j Hj Hlt. simpl in Hlt.
      assert (i = 0%nat ∧ j = 1%nat) as [-> ->] by lia. unfold kAt. simpl. lia.
    + by eexists _, _.
  - simpl. lia.
Defined.

(** X26: [Merge] of two or more conforming inputs is the empty sentinel
    when no input holds a value; otherwise its first [Next] succeeds, lands
    on the least value of the inputs and leaves a running merge over all
    their values. *)
Theorem Merge_first_Next {T : Type} `{Postings T}
    (its : list T) (ls : list (list SeriesRef)) (fuel : nat) :
  Forall2 Conforming its ls → (2 ≤ length its)%nat →
  match mergedValues ls with
  | [] => Merge its = PErr EmptyPostings
  | y :: _ =>
      ∃ mp mp' Ls',
        Merge its = PMerged mp ∧ mergedPostings_Next fuel mp = Some (true, mp') ∧
        mp_cur mp' = y ∧ MergedRun mp' Ls' ∧ (∀ x, holds Ls' x ↔ holds ls x) ∧
        (totalLength Ls' ≤ totalLength ls)%nat
  end.
Proof.
  intros Hall Hlen.
  destruct its as [|p [|p2 its]]; [simpl in Hlen; lia..|].
  destruct (mergedValues_spec ls) as [Hms Hmel].
  unfold Merge, newMergedPostings.
  destruct (mergedInputs_spec _ _ Hall []) as (ph & -> & HF). simpl app.
  pose proof (Conforming_sorted _ _ Hall) as Hsorted.
  destruct ph as [|q ph].
  { apply Forall2_nil_inv_l in HF.
    destruct (mergedValues ls) as [|y r]; [done|]. exfalso.
    assert (Hy : holds ls y) by (apply Hmel; by left).
    apply holds_nonempty in Hy. rewrite HF in Hy. by apply holds_nil in Hy. }
  destruct (heap_Init_spec At (q :: ph)) as [Hheap Hperm].
  destruct (heap_Init At (q :: ph)) as [|top rest] eqn:Hinit.
  { exfalso. apply Permutation_nil in Hperm. congruence. }
  destruct (Forall2_Permutation_l _ _ _ _ HF (symmetry Hperm)) as (Ls' & HLs & HF').
  assert (Hs' : Forall (StronglySorted N.lt) Ls').
  { rewrite <- HLs. apply Forall_forall. intros L [_ HL]%list_elem_of_filter.
    by apply (proj1 (Forall_forall _ _) Hsorted). }
  assert (Hrun : MergedRun (mkMergedPostings (top :: rest) true (At top) None) Ls').
  { split; [done|]. split; [done|]. split; [done|]. split; [done|]. split; [done|].
    by exists top, rest. }
  assert (Hsame : ∀ x, holds Ls' x ↔ holds ls x).
  { intros x. by rewrite <- (holds_Permutation _ _ x HLs), holds_nonempty. }
  pose proof (MergedRun_holds_cur _ _ Hrun) as Hcur. cbn [mp_cur] in Hcur.
  pose proof (MergedRun_low _ _ Hrun) as Hlow. cbn [mp_cur] in Hlow.
  assert (Htop : At top ∈ mergedValues ls) by (by apply Hmel, Hsame).
  destruct (mergedValues ls) as [|y r] eqn:Hmv; [by apply elem_of_nil in Htop|].
  exists (mkMergedPostings (q :: ph) false 0 None),
         (mkMergedPostings (top :: rest) true (At top) None), Ls'.
  split; [done|]. split.
  { unfold mergedPostings_Next. cbn [mp_h mp_err mp_initialized length Nat.eqb orb negb].
    rewrite bool_decide_eq_false_2 by (by intros ?). by rewrite Hinit. }
  split; [|split; [done|split; [done|]]].
  - cbn [mp_cur].
    assert (Hy : holds Ls' y) by (apply Hsame, Hmel; by left).
    pose proof (Hlow y Hy). pose proof (StronglySorted_lt_head_le y (At top) r Hms Htop). lia.
  - rewrite <- (totalLength_Permutation _ _ HLs). apply totalLength_nonempty.
Qed.

Lemma Merge_first_Next_witness :
  match mergedValues [[1; 3; 5]; [2; 3; 4]] with
  | [] => Merge [newListPostings [1; 3; 5]; newListPostings [2; 3; 4]] = PErr EmptyPostings
  | y :: _ =>
      ∃ mp mp' Ls',
        Merge [newListPostings [1; 3; 5]; newListPostings [2; 3; 4]] = PMerged mp ∧
        mergedPostings_Next 1 mp = Some (true, mp') ∧
        mp_cur mp' = y ∧ MergedRun mp' Ls' ∧
        (∀ x, holds Ls' x ↔ holds [[1; 3; 5]; [2; 3; 4]] x) ∧
        (totalLength Ls' ≤ 6)%nat
  end.
Proof.
  apply (Merge_first_Next [newListPostings [1; 3; 5]; newListPostings [2; 3; 4]]
           [[1; 3; 5]; [2; 3; 4]] 1).
  - constructor; [|constructor; [|constructor]];
      apply ListPostings_Conforming; repeat constructor; lia.
  - simpl. lia.
Defined.
(** * Evaluating a query: reads of the store combined by the operators *)

Section SumFacts.
Context {A B : Type} `{Postings A} `{Postings B}.

Lemma Positioned_inr (p : B) (c : SeriesRef) (l : list SeriesRef) :
  Positioned p c l → Positioned (inr p : A + B) c l.
Proof.
  induction 1 as [p c l Hat Herr Hle Hnil Hnext _ IHnext Hsnil Hsok _ IHseek].
  constructor; simpl; [done|done| |done|done|done|done|done|done].
  intros x Hx. by rewrite (Hle x Hx).
Qed.

Lemma Conforming_inr (p : B) (l : list SeriesRef) :
  IsEmptyPostingsType p = false → Conforming p l → Conforming (inr p : A + B) l.
Proof.
  intros Hne (Hs & Herr & _ & Ha). split; [done|]. split; [done|].
  split; [simpl; by rewrite Hne|].
  destruct l as [|y l']; simpl in *; [done|].
  destruct Ha as [Hok Hpos]. split; [done|]. by apply Positioned_inr.
Qed.
End SumFacts.

Lemma Conforming_sentinel : Conforming (inl EmptyPostings : errPostings + ListPostings) [].
Proof. split; [constructor|]. split; [done|]. split; [done|]. by split. Qed.

Lemma Get_asArgument n v p :
  StronglySorted N.lt (postingsList n v p) →
  ∃ a, asArgument (Get n v p) = Some a ∧ Conforming a (postingsList n v p).
Proof.
  intros Hs. unfold Get. fold (postingsList n v p).
  destruct (postingsList n v p) as [|x l] eqn:Hl.
  - exists (inl EmptyPostings). split; [done|]. apply Conforming_sentinel.
  - exists (inr (newListPostings (x :: l))). split; [done|].
    apply Conforming_inr; [done|]. by apply ListPostings_Conforming.
Qed.

Lemma NoDup_fst_unique {A B} (l : list (A * B)) x y1 y2 :
  NoDup l.*1 → (x, y1) ∈ l → (x, y2) ∈ l → y1 = y2.
Proof.
  induction l as [|[a b] l IH]; simpl; intros Hnd H1 H2; [by apply elem_of_nil in H1|].
  apply NoDup_cons in Hnd as [Ha Hnd].
  assert (Hin : ∀ y, (a, y) ∈ l → False).
  { intros y Hy. apply Ha, list_elem_of_fmap. by exists (a, y). }
  apply elem_of_cons in H1 as [[= -> ->]|H1], H2 as [[= <-]|H2]; try done.
  - by destruct (Hin y2).
  - simplify_eq. by destruct (Hin y1).
  - by apply IH.
Qed.

Lemma expandsFrom_mono {T} `{Postings T} (n k : nat) (q : PostingsOf T) res :
  expandsFrom n q res → (n ≤ k)%nat → expandsFrom k q res.
Proof. intros Hq Hnk fuel Hf. apply Hq. lia. Qed.

(** The lists of a store built from well-formed series. *)
Lemma built_list_spec (adds : list (SeriesRef * list Label)) (l : Label) :
  NoDup adds.*1 → Forall (λ a, wellFormedLabels a.2) adds →
  let p := EnsureOrder (addAll adds NewUnorderedMemPostings) in
  StronglySorted N.lt (postingsList (Name l) (Value l) p) ∧
  ∀ r, r ∈ postingsList (Name l) (Value l) p ↔
       ∃ ls, (r, ls) ∈ adds ∧ (l ∈ ls ∨ l = allPostingsKey).
Proof.
  intros Hnd Hwf p. unfold p. rewrite postingsList_built_ordered.
  replace (mkLabel (Name l) (Value l)) with l by (by destruct l).
  destruct (appended_spec l adds Hnd Hwf) as [Hnd' Hin].
  destruct (sortRefs_strict _ Hnd') as [Hs Hel]. split; [done|].
  intros r. by rewrite Hel, Hin.
Qed.

(** X27: a store is built from series with pairwise distinct references
    and well-formed label sets and then ordered.  For two labels other than
    the reserved one, the reads of the store combined by the operators
    yield, in strictly increasing order: with [Intersect], the series that
    carry both labels; with [Merge], those that carry one of them; with
    [Without] applied to [All] and the first read, those that do not carry
    the first label. *)
Theorem query_over_the_store (adds : list (SeriesRef * list Label)) (l1 l2 : Label) :
  NoDup adds.*1 → Forall (λ a, wellFormedLabels a.2) adds →
  l1 ≠ allPostingsKey → l2 ≠ allPostingsKey →
  let p := EnsureOrder (addAll adds NewUnorderedMemPostings) in
  ∃ a b all,
    asArgument (Get (Name l1) (Value l1) p) = Some a ∧
    asArgument (Get (Name l2) (Value l2) p) = Some b ∧
    asArgument (All p) = Some all ∧
    ∃ fuel0 both either others,
      expandsFrom fuel0 (Intersect [a; b]) both ∧
      expandsFrom fuel0 (Merge [a; b]) either ∧
      expandsFrom fuel0 (Without all a) others ∧
      StronglySorted N.lt both ∧ StronglySorted N.lt either ∧ StronglySorted N.lt others ∧
      (∀ r, r ∈ both ↔ ∃ ls, (r, ls) ∈ adds ∧ l1 ∈ ls ∧ l2 ∈ ls) ∧
      (∀ r, r ∈ either ↔ ∃ ls, (r, ls) ∈ adds ∧ (l1 ∈ ls ∨ l2 ∈ ls)) ∧
      (∀ r, r ∈ others ↔ ∃ ls, (r, ls) ∈ adds ∧ l1 ∉ ls).
Proof.
  intros Hnd Hwf Hl1 Hl2 p.
  destruct (built_list_spec adds l1 Hnd Hwf) as [Hs1 Hm1].
  destruct (built_list_spec adds l2 Hnd Hwf) as [Hs2 Hm2].
  destruct (built_list_spec adds allPostingsKey Hnd Hwf) as [Hs0 Hm0].
  fold p in Hs1, Hm1, Hs2, Hm2, Hs0, Hm0.
  set (L1 := postingsList (Name l1) (Value l1) p) in *.
  set (L2 := postingsList (Name l2) (Value l2) p) in *.
  set (L0 := postingsList (Name allPostingsKey) (Value allPostingsKey) p) in *.
  destruct (Get_asArgument (Name l1) (Value l1) p Hs1) as (a & Ha & Hca).
  destruct (Get_asArgument (Name l2) (Value l2) p Hs2) as (b & Hb & Hcb).
  destruct (Get_asArgument (Name allPostingsKey) (Value allPostingsKey) p Hs0)
    as (all & Hall & Hcall).
  fold L1 in Hca. fold L2 in Hcb. fold L0 in Hcall.
  exists a, b, all. split; [done|]. split; [done|]. split; [done|].
  assert (Hab : Forall2 Conforming [a; b] [L1; L2]).
  { constructor; [done|]. constructor; [done|]. constructor. }
  destruct (mergedValues_spec [L1; L2]) as [Hms Hmel].
  exists (totalLength [L1; L2] + length L0 + length L1 + 2)%nat,
         (commonValues [L1; L2]), (mergedValues [L1; L2]), (filter (λ x, x ∉ L1) L0).
  split; [|split; [|split; [|split; [|split; [|split; [|split; [|split]]]]]]].
  - eapply expandsFrom_mono; [by apply Intersect_expands|lia].
  - eapply expandsFrom_mono; [by apply Merge_expands|lia].
  - eapply expandsFrom_mono; [by apply Without_expands|lia].
  - apply commonValues_sorted. by repeat constructor.
  - done.
  - by apply StronglySorted_filter.
  - intros r. rewrite commonValues_elem, !Forall_cons, Forall_nil, Hm1, Hm2. split.
    + intros (_ & (ls1 & Hin1 & [H1|H1]) & (ls2 & Hin2 & [H2|H2]) & _); try done.
      rewrite (NoDup_fst_unique adds r ls2 ls1 Hnd Hin2 Hin1) in H2. by exists ls1.
    + intros (ls & Hin & H1 & H2). split; [done|]. split; [|split; [|done]]; exists ls; auto.
  - intros r. rewrite Hmel, holds_cons, holds_cons, Hm1, Hm2. split.
    + intros [(ls & Hin & [H1|H1])|[(ls & Hin & [H2|H2])|Hn%holds_nil]]; try done;
        exists ls; auto.
    + intros (ls & Hin & [H1|H2]); [left|right; left]; exists ls; auto.
  - intros r. rewrite list_elem_of_filter, Hm0, Hm1. split.
    + intros [Hno (ls & Hin & _)]. exists ls. split; [done|].
      intros H1. apply Hno. exists ls. auto.
    + intros (ls & Hin & H1). split.
      * intros (ls' & Hin' & [H1'|H1']); [|done].
        by rewrite (NoDup_fst_unique adds r ls' ls Hnd Hin' Hin) in H1'.
      * exists ls. auto.
Qed.

Lemma query_over_the_store_witness :
  let adds := [(7, [mkLabel "env" "prod"]);
               (3, [mkLabel "env" "prod"; mkLabel "job" "a"])] in
  let p := EnsureOrder (addAll adds NewUnorderedMemPostings) in
  ∃ a b all,
    asArgument (Get "env" "prod" p) = Some a ∧
    asArgument (Get "job" "a" p) = Some b ∧
    asArgument (All p) = Some all ∧
    ∃ fuel0 both either others,
      expandsFrom fuel0 (Intersect [a; b]) both ∧
      expandsFrom fuel0 (Merge [a; b]) either ∧
      expandsFrom fuel0 (Without all a) others ∧
      StronglySorted N.lt both ∧ StronglySorted N.lt either ∧ StronglySorted N.lt others ∧
      (∀ r, r ∈ both ↔ ∃ ls, (r, ls) ∈ adds ∧ mkLabel "env" "prod" ∈ ls ∧ mkLabel "job" "a" ∈ ls) ∧
      (∀ r, r ∈ either ↔ ∃ ls, (r, ls) ∈ adds ∧ (mkLabel "env" "prod" ∈ ls ∨ mkLabel "job" "a" ∈ ls)) ∧
      (∀ r, r ∈ others ↔ ∃ ls, (r, ls) ∈ adds ∧ mkLabel "env" "prod" ∉ ls).
Proof.
  apply (query_over_the_store
           [(7, [mkLabel "env" "prod"]); (3, [mkLabel "env" "prod"; mkLabel "job" "a"])]
           (mkLabel "env" "prod") (mkLabel "job" "a")).
  - compute_done.
  - repeat constructor; compute_done.
  - discriminate.
  - discriminate.
Defined.
(** * [Stats] *)

Section StatsFacts.
Context {maxHeap : Type}.
Variable heap_init : nat → maxHeap.
Variable heap_push : Stat → maxHeap → maxHeap.
Variable heap_get : maxHeap → list Stat.

(** The inner loop does not look at [label] but for [metrics]. *)
Lemma statsValue_label (label label' n : string) (vs : list (string * list SeriesRef)) :
  ∀ m1 m2 lvp sz,
    (foldl (statsValue heap_push label n) (m1, lvp, sz) vs).1.2
    = (foldl (statsValue heap_push label' n) (m2, lvp, sz) vs).1.2 ∧
    (foldl (statsValue heap_push label n) (m1, lvp, sz) vs).2
    = (foldl (statsValue heap_push label' n) (m2, lvp, sz) vs).2.
Proof.
  induction vs as [|nv vs IH]; intros m1 m2 lvp sz; [done|]. cbn [foldl].
  unfold statsValue at 2 4 6 8. apply IH.
Qed.

Lemma statsValue_other (label n : string) (vs : list (string * list SeriesRef)) :
  n ≠ label → ∀ m1 lvp sz, (foldl (statsValue heap_push label n) (m1, lvp, sz) vs).1.1 = m1.
Proof.
  intros Hn. induction vs as [|nv vs IH]; intros m1 lvp sz; [done|]. cbn [foldl].
  unfold statsValue at 2. rewrite bool_decide_eq_false_2 by done. apply IH.
Qed.

Lemma statsName_label (label label' : string) (es : list (string * gmap string (list SeriesRef))) :
  ∀ a1 a2,
    acc_labels a1 = acc_labels a2 →
    acc_labelValueLength a1 = acc_labelValueLength a2 →
    acc_labelValuePairs a1 = acc_labelValuePairs a2 →
    acc_numLabelPairs a1 = acc_numLabelPairs a2 →
    let r1 := foldl (statsName heap_push label) a1 es in
    let r2 := foldl (statsName heap_push label') a2 es in
    acc_labels r1 = acc_labels r2 ∧
    acc_labelValueLength r1 = acc_labelValueLength r2 ∧
    acc_labelValuePairs r1 = acc_labelValuePairs r2 ∧
    acc_numLabelPairs r1 = acc_numLabelPairs r2.
Proof.
  induction es as [|ne es IH]; intros a1 a2 H1 H2 H3 H4; [done|]. cbn [foldl].
  apply IH; unfold statsName; case_bool_decide; try done.
  - pose proof (statsValue_label label label' ne.1 (map_to_list ne.2)
                  (acc_metrics a1) (acc_metrics a2) (acc_labelValuePairs a1) 0) as [_ _].
    rewrite H3.
    destruct (foldl (statsValue heap_push label ne.1) _ _) as [[? ?] ?],
             (foldl (statsValue heap_push label' ne.1) _ _) as [[? ?] ?].
    simpl. by rewrite H1.
  - pose proof (statsValue_label label label' ne.1 (map_to_list ne.2)
                  (acc_metrics a1) (acc_metrics a2) (acc_labelValuePairs a1) 0) as [_ Hsz].
    rewrite H3 in Hsz |- *.
    destruct (foldl (statsValue heap_push label ne.1) _ _) as [[? ?] ?],
             (foldl (statsValue heap_push label' ne.1) _ _) as [[? ?] ?].
    simpl in *. by rewrite H2, Hsz.
  - pose proof (statsValue_label label label' ne.1 (map_to_list ne.2)
                  (acc_metrics a1) (acc_metrics a2) (acc_labelValuePairs a1) 0) as [Hlvp _].
    rewrite H3 in Hlvp |- *.
    destruct (foldl (statsValue heap_push label ne.1) _ _) as [[? ?] ?],
             (foldl (statsValue heap_push label' ne.1) _ _) as [[? ?] ?].
    simpl in *. done.
  - destruct (foldl (statsValue heap_push label ne.1) _ _) as [[? ?] ?],
             (foldl (statsValue heap_push label' ne.1) _ _) as [[? ?] ?].
    simpl. by rewrite H4.
Qed.

Lemma statsName_metrics (label : string) (es : list (string * gmap string (list SeriesRef))) :
  (∀ ne, ne ∈ es → ne.1 = EmptyString ∨ ne.1 ≠ label) →
  ∀ a, acc_metrics (foldl (statsName heap_push label) a es) = acc_metrics a.
Proof.
  induction es as [|ne es IH]; intros Hes a; [done|]. cbn [foldl].
  rewrite IH by (intros ne' Hin; apply Hes; by right).
  unfold statsName. case_bool_decide as Hn; [done|].
  destruct (Hes ne ltac:(by left)) as [?|Hne]; [done|].
  pose proof (statsValue_other label ne.1 (map_to_list ne.2) Hne
                (acc_metrics a) (acc_labelValuePairs a) 0) as Hm.
  by destruct (foldl (statsValue heap_push label ne.1) _ _) as [[? ?] ?].
Qed.

Lemma statsName_count (label : string) (es : list (string * gmap string (list SeriesRef))) :
  ∀ a, acc_numLabelPairs (foldl (statsName heap_push label) a es)
       = (acc_numLabelPairs a
          + length (filter (λ l, Name l ≠ EmptyString)
                      (es ≫= λ ne, (λ v, mkLabel ne.1 v) <$> (map_to_list ne.2).*1)))%nat.
Proof.
  induction es as [|ne es IH]; intros a; [simpl; lia|]. cbn [foldl].
  rewrite IH, bind_cons, filter_app, length_app.
  unfold statsName. case_bool_decide as Hn.
  - rewrite (filter_none _ ((λ v, mkLabel ne.1 v) <$> (map_to_list ne.2).*1)); [simpl; lia|].
    apply Forall_forall. intros l (v & -> & _)%list_elem_of_fmap. simpl. by intros ?.
  - rewrite (filter_all _ ((λ v, mkLabel ne.1 v) <$> (map_to_list ne.2).*1)).
    2:{ apply Forall_forall. by intros l (v & -> & _)%list_elem_of_fmap. }
    rewrite !length_fmap, length_map_to_list.
    destruct (foldl (statsValue heap_push label ne.1) _ _) as [[? ?] ?].
    cbn [acc_numLabelPairs]. lia.
Qed.

Lemma Stats_NumLabelPairs (label : string) (p : MemPostings) :
  NumLabelPairs (Stats heap_init heap_push heap_get label p)
  = length (filter (λ l, Name l ≠ EmptyString) (SortedKeys p)).
Proof.
  unfold Stats. cbn [NumLabelPairs]. rewrite statsName_count. cbn [acc_numLabelPairs].
  fold (storeKeys p). unfold SortedKeys. by rewrite merge_sort_Permutation.
Qed.
End StatsFacts.

(** X28: whatever the heap behind it, [Stats] counts in [NumLabelPairs]
    the label pairs of the store whose name is not the reserved empty name;
    the label given only bears on [CardinalityMetricsStats], which is the
    content of a heap without any push when the label is not among
    [LabelNames]. *)
Theorem Stats_counts_label_pairs {maxHeap : Type} (heap_init : nat → maxHeap)
    (heap_push : Stat → maxHeap → maxHeap) (heap_get : maxHeap → list Stat)
    (label : string) (p : MemPostings) :
  let stats := Stats heap_init heap_push heap_get in
  NumLabelPairs (stats label p)
  = length (filter (λ l, Name l ≠ EmptyString) (SortedKeys p)) ∧
  (∀ label',
     CardinalityLabelStats (stats label' p) = CardinalityLabelStats (stats label p) ∧
     LabelValueStats (stats label' p) = LabelValueStats (stats label p) ∧
     LabelValuePairsStats (stats label' p) = LabelValuePairsStats (stats label p) ∧
     NumLabelPairs (stats label' p) = NumLabelPairs (stats label p)) ∧
  (label ∉ LabelNames p → CardinalityMetricsStats (stats label p) = heap_get (heap_init 10%nat)).
Proof.
  intros stats. split; [apply Stats_NumLabelPairs|]. split.
  - intros label'. unfold stats, Stats.
    cbn [CardinalityLabelStats LabelValueStats LabelValuePairsStats NumLabelPairs].
    destruct (statsName_label heap_push label' label (map_to_list (m p))
                (mkStatsAcc (heap_init 10%nat) (heap_init 10%nat) (heap_init 10%nat) (heap_init 10%nat) 0%nat)
                (mkStatsAcc (heap_init 10%nat) (heap_init 10%nat) (heap_init 10%nat) (heap_init 10%nat) 0%nat)
                eq_refl eq_refl eq_refl eq_refl) as (-> & -> & -> & ->).
    done.
  - intros Hno. unfold stats, Stats. cbn [CardinalityMetricsStats].
    rewrite statsName_metrics; [done|].
    intros [n e] Hin. apply elem_of_map_to_list in Hin. simpl.
    destruct (decide (n = EmptyString)) as [?|Hn]; [by left|]. right.
    intros ->. apply Hno, LabelNames_elem. split; [done|]. by exists e.
Qed.
(** * [Add] followed by a read, and what [EnsureOrder] keeps *)

Lemma repairOrder_Permutation (id : SeriesRef) (l : list SeriesRef) :
  repairOrder (length (l ++ [id]) - 1) (l ++ [id]) ≡ₚ l ++ [id].
Proof.
  rewrite length_app, Nat.add_sub.
  destruct (repairOrder_split l [] id) as (p1 & p2 & -> & _ & _ & ->).
  rewrite app_nil_r, <- app_assoc. apply Permutation_app_head.
  rewrite <- (Permutation_cons_append p2 id). done.
Qed.

Lemma postingsList_addFor_Permutation id l p n v :
  postingsList n v (addFor id l p)
  ≡ₚ postingsList n v p ++ replicate (occurrences (mkLabel n v) [l]) id.
Proof.
  rewrite postingsList_addFor, occurrences_cons. case_decide as Hl; simpl.
  - destruct (ordered p); [apply repairOrder_Permutation|done].
  - by rewrite app_nil_r.
Qed.

Lemma postingsList_foldl_addFor_Permutation id ls : ∀ p n v,
  postingsList n v (foldl (λ p l, addFor id l p) p ls)
  ≡ₚ postingsList n v p ++ replicate (occurrences (mkLabel n v) ls) id.
Proof.
  induction ls as [|l ls IH]; intros p n v; [simpl; by rewrite app_nil_r|].
  cbn [foldl]. rewrite IH, postingsList_addFor_Permutation.
  change (l :: ls) with ([l] ++ ls). rewrite occurrences_app, replicate_add.
  by rewrite <- app_assoc.
Qed.

(** X29: whatever the store and its phase, [Add] puts the reference into
    the list of every label of the set and into the list behind [All], once
    per occurrence, and neither loses nor adds any other reference; a read
    of a label of the set returns the reference; before [EnsureOrder] the
    reference is appended at the end. *)
Theorem Add_then_Get (id : SeriesRef) (lset : list Label) (p : MemPostings) (n v : string) :
  postingsList n v (Add id lset p)
  ≡ₚ postingsList n v p
     ++ replicate (occurrences (mkLabel n v) (lset ++ [allPostingsKey])) id ∧
  expandsTo (Get n v (Add id lset p)) (postingsList n v (Add id lset p)) ∧
  (mkLabel n v ∈ lset → id ∈ postingsList n v (Add id lset p)) ∧
  (∃ res, expandsTo (All (Add id lset p)) res ∧ id ∈ res) ∧
  (ordered p = false →
   postingsList n v (Add id lset p)
   = postingsList n v p
     ++ replicate (occurrences (mkLabel n v) (lset ++ [allPostingsKey])) id).
Proof.
  assert (Hperm : ∀ n v, postingsList n v (Add id lset p)
            ≡ₚ postingsList n v p
               ++ replicate (occurrences (mkLabel n v) (lset ++ [allPostingsKey])) id).
  { intros n' v'. rewrite Add_foldl. apply postingsList_foldl_addFor_Permutation. }
  assert (Hin : ∀ n v, mkLabel n v ∈ lset ++ [allPostingsKey] →
                       id ∈ postingsList n v (Add id lset p)).
  { intros n' v' Hl. rewrite Hperm, elem_of_app. right.
    apply elem_of_replicate. split; [done|]. unfold occurrences.
    intros Hz. apply nil_length_inv in Hz.
    assert (Hf : mkLabel n' v' ∈ filter (λ x, x = mkLabel n' v') (lset ++ [allPostingsKey]))
      by (by apply list_elem_of_filter).
    rewrite Hz in Hf. by apply elem_of_nil in Hf. }
  split; [apply Hperm|]. split; [apply expandsTo_Get|]. split; [|split].
  - intros Hl. apply Hin, elem_of_app. by left.
  - exists (postingsList EmptyString EmptyString (Add id lset p)).
    split; [apply expandsTo_Get|]. apply Hin, elem_of_app. right. by left.
  - intros Ho. rewrite Add_foldl.
    by destruct (addFor_all_unordered id (lset ++ [allPostingsKey]) p Ho) as [_ ->].
Qed.

(** X30: [EnsureOrder] leaves the store in the serving phase and keeps
    its contents: the same label pairs have an entry and every list holds
    the same references as before, as often as before; the lists of a store
    that was not ordered come out sorted; a store already marked as ordered
    is returned as it is, and a second call changes nothing. *)
Theorem EnsureOrder_keeps_contents (p : MemPostings) :
  ordered (EnsureOrder p) = true ∧
  EnsureOrder (EnsureOrder p) = EnsureOrder p ∧
  (ordered p = true → EnsureOrder p = p) ∧
  (ordered p = false → sortedStore (EnsureOrder p)) ∧
  (∀ n v, postingsList n v (EnsureOrder p) ≡ₚ postingsList n v p) ∧
  (∀ n v, is_Some (postingsEntry n v (EnsureOrder p)) ↔ is_Some (postingsEntry n v p)).
Proof.
  split; [apply EnsureOrder_ordered|]. split; [|split; [|split; [|split]]].
  - unfold EnsureOrder at 1. by rewrite EnsureOrder_ordered.
  - intros Ho. unfold EnsureOrder. by rewrite Ho.
  - intros Ho n v. rewrite postingsList_EnsureOrder by done. apply sortRefs_sorted.
  - intros n v. destruct (ordered p) eqn:Ho.
    + unfold EnsureOrder. by rewrite Ho.
    + rewrite postingsList_EnsureOrder by done. apply sortRefs_Permutation.
  - intros n v. rewrite postingsEntry_EnsureOrder. destruct (ordered p); [done|].
    by rewrite fmap_is_Some.
Qed.
